(** * Monte Carlo graph search and tree search planners

    A shallow embedding of [src/MCGSAgent.py] (graph search) and
    [src/MCTSAgent.py] (tree search).

    Python objects live in an arena ([list Node]) and are referred to by
    their index, so that aliasing through [parent] pointers and through
    the graph store is explicit.  Methods that mutate [self] become
    functions in a state-and-exception monad over the agent record.
    [while] loops take fuel.

    A Python float is taken as the real number it denotes.  Binary64
    addition rounds, so the [+=] of a float accumulator is not the sum
    of the reals: it is a parameter of the development ([float_add]
    below) of which nothing is assumed, neither exactness nor
    associativity.  The quotient, logarithm and square root of the
    scores are the exact real functions. *)

From Stdlib Require Import ZArith List String Ascii Reals Lra Lia Bool.
From stdpp Require Import base list.
Import ListNotations.

Set Implicit Arguments.
Open Scope Z_scope.

(** ** Python-level outcomes *)

Module Py.

(** The exceptions the two agents can raise.  [BadHandle] is not a Python
    exception: it marks a handle that points outside the arena, which no
    Python reference can do.  [NotANumber] is not one either: it marks
    the point where the code goes on with the float [nan], which no real
    number stands for. *)
Inductive exn : Set :=
| AttributeError
| ZeroDivisionError
| ValueError
| KeyError
| IndexError
| BadHandle
| NotANumber.

Inductive outcome (A : Type) : Type :=
| Ret (a : A)
| Raise (e : exn)
| OutOfFuel.

Arguments Ret {A} a.
Arguments Raise {A} e.
Arguments OutOfFuel {A}.

Definition obind {A B} (m : outcome A) (k : A -> outcome B) : outcome B :=
  match m with
  | Ret a => k a
  | Raise e => Raise e
  | OutOfFuel => OutOfFuel
  end.

(** State-and-exception monad over a state [S]. *)
Definition M (S A : Type) : Type := S -> outcome (A * S).

Definition ret {S A} (a : A) : M S A := fun s => Ret (a, s).

Definition bind {S A B} (m : M S A) (k : A -> M S B) : M S B :=
  fun s => match m s with
           | Ret (a, s') => k a s'
           | Raise e => Raise e
           | OutOfFuel => OutOfFuel
           end.

Definition raise {S A} (e : exn) : M S A := fun _ => Raise e.
Definition out_of_fuel {S A} : M S A := fun _ => OutOfFuel.
Definition get {S} : M S S := fun s => Ret (s, s).
Definition gets {S A} (f : S -> A) : M S A := fun s => Ret (f s, s).
Definition modify {S} (f : S -> S) : M S unit := fun s => Ret (tt, f s).
Definition lift {S A} (o : outcome A) : M S A :=
  fun s => match o with
           | Ret a => Ret (a, s)
           | Raise e => Raise e
           | OutOfFuel => OutOfFuel
           end.

Declare Scope py_scope.
Delimit Scope py_scope with py.

Notation "x <- m ;; k" := (bind m (fun x => k))
  (at level 100, m at next level, right associativity) : py_scope.
Notation "m ;;; k" := (bind m (fun _ => k))
  (at level 100, right associativity) : py_scope.

Open Scope py_scope.

(** [for x in l: acc = body(acc, x)] *)
Fixpoint for_each {S A B} (l : list A) (acc : B) (body : B -> A -> M S B)
  : M S B :=
  match l with
  | [] => ret acc
  | x :: l' => acc' <- body acc x ;; for_each l' acc' body
  end.

(** [I] holds after [m] whenever it held before and [m] returns. *)
Definition preserves {S A} (I : S -> Prop) (m : M S A) : Prop :=
  forall s a s', I s -> m s = Ret (a, s') -> I s'.

(** The outcome of a run seen through a change [f] of the final state. *)
Definition map_state {S A} (f : S -> S) (o : outcome (A * S))
  : outcome (A * S) :=
  match o with
  | Ret (a, s) => Ret (a, f s)
  | Raise e => Raise e
  | OutOfFuel => OutOfFuel
  end.

(** [m] does not look at what [f] changes: running it after [f] is
    running it before [f]. *)
Definition commutes {S A} (f : S -> S) (m : M S A) : Prop :=
  forall s, m (f s) = map_state f (m s).

(** [range(n)] for a Python integer [n]: empty when [n <= 0]. *)
Definition range (n : Z) : list nat := seq 0 (Z.to_nat n).

(** [math.log]: a [ValueError] outside the positive reals. *)
Definition math_log (x : R) : outcome R :=
  if Rle_dec x 0 then Raise ValueError else Ret (ln x).

(** [math.sqrt]: a [ValueError] on a negative argument. *)
Definition math_sqrt (x : R) : outcome R :=
  if Rlt_dec x 0 then Raise ValueError else Ret (sqrt x).

(** [x / n] for a float [x] and an integer [n]. *)
Definition truediv (x : R) (n : Z) : outcome R :=
  if n =? 0 then Raise ZeroDivisionError else Ret (x / IZR n)%R.

(** The sum and the arithmetic mean of real numbers, in exact
    arithmetic. *)
Definition sum (l : list R) : R := fold_right Rplus 0%R l.

Definition mean (l : list R) : R := (sum l / INR (length l))%R.

End Py.

(** ** The external collaborators

    The [stratega] game engine (state, forward model, heuristic, action
    constructors), numpy's random generator and mean, and the float
    addition of the platform are not part of the repository.  They are
    taken as a record of pure functions: [advance_gamestate] returns the
    advanced state instead of mutating it, and [deepcopy] is the
    identity. *)

Record Collaborators : Type := {
  GameState : Type;
  Action : Type;
  ActionType : Type;
  RandomState : Type;
  generate_actions : GameState -> Z -> list Action;
  advance_gamestate : GameState -> Action -> GameState;
  is_game_over : GameState -> bool;
  print_board : GameState -> string;
  evaluate_gamestate : GameState -> Z -> R;
  set_current_tbs_player : GameState -> Z -> GameState;
  get_action_type : Action -> ActionType;
  create_end_action : Z -> ActionType -> Action;
  validate : Action -> GameState -> bool;
  (** one draw of an index out of [n] candidates *)
  draw : RandomState -> nat -> nat * RandomState;
  (** the reading of a wall clock after so many forward-model calls *)
  clock_ms : Z -> Z;
  (** [x + y] on two floats: the binary64 sum *)
  float_add : R -> R -> R;
  (** numpy's mean of a non-empty array of floats *)
  numpy_mean : list R -> R
}.

(** [np.mean] of a Python list.  On an empty list numpy answers [nan]
    (with a warning, not an exception), and the code goes on with it. *)
Definition np_mean (E : Collaborators) (l : list R) : Py.outcome R :=
  match l with
  | [] => Py.Raise Py.NotANumber
  | _ :: _ => Py.Ret (numpy_mean E l)
  end.

(** [acc = x; for r in rs: acc += r] *)
Definition accumulate (E : Collaborators) (x : R) (rs : list R) : R :=
  fold_left (float_add E) rs x.


(** [stratega.ActionAssignment] *)
Inductive ActionAssignment (A : Type) : Type :=
| from_single_action (a : A)
| create_end_action_assignment (player : Z).

Arguments from_single_action {A} a.
Arguments create_end_action_assignment {A} player.

Inductive BudgetType : Set :=
| MAX_FM_CALLS
| MAX_ITERATIONS
| MAX_TIME_MS
| OTHER_BUDGET.

(** ** Walks along back-pointers

    Both agents propagate statistics by following [parent] references
    from a node until some stop condition holds.  [walk] describes the
    nodes such a loop meets, for any stop condition. *)

Module Chain.
Section Walk.

Context {N : Type} (stops : N -> bool) (next : N -> option nat).

(** [walk h a l]: starting at the object [a] of the arena [h] and
    following [next], [l] lists the objects met, the first one at which
    [stops] holds included. *)
Inductive walk (h : list N) : nat -> list nat -> Prop :=
| walk_stop a n :
    h !! a = Some n -> stops n = true -> walk h a [a]
| walk_step a n p l :
    h !! a = Some n -> stops n = false -> next n = Some p ->
    walk h p l -> walk h a (a :: l).

(** The same walk as a function, [None] when it leaves the arena, meets
    an object without successor, or runs longer than [fuel]. *)
Fixpoint walk_from (fuel : nat) (h : list N) (a : nat) : option (list nat) :=
  match fuel with
  | O => None
  | S fuel' =>
      match h !! a with
      | None => None
      | Some n =>
          if stops n then Some [a]
          else match next n with
               | None => None
               | Some p => cons a <$> walk_from fuel' h p
               end
      end
  end.

End Walk.

(** [f] applied in place to the objects at the positions [l]. *)
Definition alter_all {N : Type} (f : N -> N) (l : list nat) (h : list N)
  : list N :=
  fold_left (fun h a => alter f a h) l h.

End Chain.

(** ** The graph-search agent, [src/MCGSAgent.py] *)

Module MCGS.
Import Py.

Section Agent.

Context (E : Collaborators).

(** [class Node]: a node object; [parent] is a reference to another node
    object (its index in the arena) or [None]. *)
Record Node : Type := mkNode {
  id : string;
  parent : option nat;
  action : option (Action E);
  total_value : R;
  visits : Z;
  is_leaf : bool;
  chosen : bool;
  unreachable : bool
}.

(** [Node.__init__] *)
Definition Node_init (id : string) (parent : option nat) (is_leaf : bool)
    (action : option (Action E)) (reward : R) (visits : Z) : Node :=
  {| id := id; parent := parent; action := action; total_value := reward;
     visits := visits; is_leaf := is_leaf; chosen := false;
     unreachable := false |}.

Definition set_parent (p : option nat) (n : Node) : Node :=
  {| id := id n; parent := p; action := action n;
     total_value := total_value n; visits := visits n;
     is_leaf := is_leaf n; chosen := chosen n; unreachable := unreachable n |}.

Definition set_action (a : option (Action E)) (n : Node) : Node :=
  {| id := id n; parent := parent n; action := a;
     total_value := total_value n; visits := visits n;
     is_leaf := is_leaf n; chosen := chosen n; unreachable := unreachable n |}.

Definition set_is_leaf (b : bool) (n : Node) : Node :=
  {| id := id n; parent := parent n; action := action n;
     total_value := total_value n; visits := visits n;
     is_leaf := b; chosen := chosen n; unreachable := unreachable n |}.

Definition set_chosen (b : bool) (n : Node) : Node :=
  {| id := id n; parent := parent n; action := action n;
     total_value := total_value n; visits := visits n;
     is_leaf := is_leaf n; chosen := b; unreachable := unreachable n |}.

Definition set_unreachable (b : bool) (n : Node) : Node :=
  {| id := id n; parent := parent n; action := action n;
     total_value := total_value n; visits := visits n;
     is_leaf := is_leaf n; chosen := chosen n; unreachable := b |}.

(** [node.visits += 1; node.total_value += reward] *)
Definition bump (reward : R) (n : Node) : Node :=
  {| id := id n; parent := parent n; action := action n;
     total_value := float_add E (total_value n) reward;
     visits := visits n + 1;
     is_leaf := is_leaf n; chosen := chosen n; unreachable := unreachable n |}.

(** [Node.value] *)
Definition value (n : Node) : outcome R :=
  if visits n =? 0 then Ret 0%R else truediv (total_value n) (visits n).

(** [Node.uct_value]; [h] is the arena, through which [self.parent] is
    followed. *)
Definition uct_value (h : list Node) (n : Node) : outcome R :=
  let c := (1 / sqrt 2)%R in
  match parent n with
  | None => Raise AttributeError
  | Some p =>
      match h !! p with
      | None => Raise BadHandle
      | Some pn =>
          obind (math_log (IZR (visits pn + 1))) (fun lg =>
          obind (truediv lg (visits n)) (fun q =>
          obind (math_sqrt q) (fun s =>
          let ucb := (c * s)%R in
          obind (value n) (fun v => Ret (v + ucb)%R))))
      end
  end.

(** [class Edge] *)
Record Edge : Type := mkEdge {
  edge_id : Z;
  node_from : nat;
  node_to : nat;
  edge_action : Action E;
  edge_reward : R
}.

(** *** The graph store

    Modelled from the spec: [testGraph.Graph] is not among the sources.
    Section 4.1 of the specification lists its operations.  The store
    keeps the registered node objects in insertion order and looks them
    up by fingerprint; it does not deduplicate by itself, so that what
    the agent's own guards achieve can be stated. *)
Record Graph : Type := mkGraph {
  nodes : list nat;
  edges : list Edge;
  frontier : list nat;
  graph_root : option nat;
  graph_random : RandomState E
}.

Definition fingerprint_of (h : list Node) (a : nat) : option string :=
  id <$> h !! a.

Definition has_fingerprint (h : list Node) (o : string) (a : nat) : bool :=
  match h !! a with
  | Some n => String.eqb (id n) o
  | None => false
  end.

(** What is handed to [has_node]: a fingerprint, or (in [add_node]) a
    node object. *)
Inductive key : Type :=
| Fingerprint (o : string)
| NodeObject (a : nat).

(** Modelled from the spec: [has_node(fp)].  A node object is never equal
    to a fingerprint ([Node] defines [__hash__] only), so looking one up
    finds nothing. *)
Definition has_node (h : list Node) (g : Graph) (k : key) : bool :=
  match k with
  | Fingerprint o => existsb (has_fingerprint h o) (nodes g)
  | NodeObject _ => false
  end.

(** Modelled from the spec: [get_node(fp)], a [KeyError] when absent. *)
Definition get_node_info (h : list Node) (g : Graph) (o : string)
  : outcome nat :=
  match find (has_fingerprint h o) (nodes g) with
  | Some a => Ret a
  | None => Raise KeyError
  end.

Definition graph_add_node (g : Graph) (a : nat) : Graph :=
  {| nodes := nodes g ++ [a]; edges := edges g; frontier := frontier g;
     graph_root := graph_root g; graph_random := graph_random g |}.

Definition add_to_frontier (g : Graph) (a : nat) : Graph :=
  {| nodes := nodes g; edges := edges g;
     frontier := if existsb (Nat.eqb a) (frontier g) then frontier g
                 else frontier g ++ [a];
     graph_root := graph_root g; graph_random := graph_random g |}.

Definition remove_from_frontier (g : Graph) (a : nat) : Graph :=
  {| nodes := nodes g; edges := edges g;
     frontier := filter (fun b => negb (Nat.eqb a b)) (frontier g);
     graph_root := graph_root g; graph_random := graph_random g |}.

Definition has_edge_by_nodes (g : Graph) (a b : nat) : bool :=
  existsb (fun e => Nat.eqb (node_from e) a && Nat.eqb (node_to e) b)
          (edges g).

Definition has_edge (g : Graph) (e : Edge) : bool :=
  has_edge_by_nodes g (node_from e) (node_to e).

Definition graph_add_edge (g : Graph) (e : Edge) : Graph :=
  {| nodes := nodes g; edges := edges g ++ [e]; frontier := frontier g;
     graph_root := graph_root g; graph_random := graph_random g |}.

Definition get_edge_info (g : Graph) (a : option nat) (b : nat)
  : outcome Edge :=
  match a with
  | None => Raise KeyError
  | Some a =>
      match find (fun e => Nat.eqb (node_from e) a && Nat.eqb (node_to e) b)
                 (edges g) with
      | Some e => Ret e
      | None => Raise KeyError
      end
  end.

Definition graph_set_root_node (g : Graph) (a : nat) : Graph :=
  {| nodes := nodes g; edges := edges g; frontier := frontier g;
     graph_root := Some a; graph_random := graph_random g |}.

Definition graph_set_random (g : Graph) (r : RandomState E) : Graph :=
  {| nodes := nodes g; edges := edges g; frontier := frontier g;
     graph_root := graph_root g; graph_random := r |}.

(** The store's search and rerouting algorithms are not among the sources
    either and the specification does not fix them; they are parameters. *)
Record GraphAlgorithms : Type := {
  select_frontier_node : list Node -> Graph -> option nat * RandomState E;
  has_path : list Node -> Graph -> nat -> nat -> bool;
  get_path : list Node -> Graph -> nat -> nat
             -> outcome (list string * list (Action E));
  reroute_path : list Node -> Graph -> nat -> nat -> outcome (list Node);
  reroute_all : list Node -> Graph -> outcome (list Node);
  get_best_node : list Node -> Graph -> bool -> option nat;
  get_closest_done_node : list Node -> Graph -> bool -> option nat
}.

Context (G : GraphAlgorithms).

(** *** The agent *)

Record Agent : Type := mkAgent {
  random : RandomState E;
  graph : Graph;
  heap : list Node;
  budget_type : BudgetType;
  player_id : Z;
  node_counter : Z;
  edge_counter : Z;
  num_rollouts : Z;
  rollout_depth : Z;
  root_node : nat;
  num_simulations : Z;
  forward_model_calls : Z;
  max_forward_model_calls : Z;
  num_iterations : Z;
  max_iterations : Z;
  (** [Timer()]: the value of [fm_advances] when the timer was made; the
      elapsed time is [clock_ms] of the calls issued since *)
  timer : Z;
  max_time_ms : Z;
  (** instrumentation, not a field of the class: the number of
      [advance_gamestate] calls issued so far *)
  fm_advances : Z
}.

(** Field updates ([self.f = v]). *)

Definition with_random (v : RandomState E) (s : Agent) : Agent :=
  {| random := v; graph := graph s; heap := heap s;
     budget_type := budget_type s; player_id := player_id s;
     node_counter := node_counter s; edge_counter := edge_counter s;
     num_rollouts := num_rollouts s; rollout_depth := rollout_depth s;
     root_node := root_node s; num_simulations := num_simulations s;
     forward_model_calls := forward_model_calls s;
     max_forward_model_calls := max_forward_model_calls s;
     num_iterations := num_iterations s; max_iterations := max_iterations s;
     timer := timer s; max_time_ms := max_time_ms s;
     fm_advances := fm_advances s |}.

Definition with_graph (v : Graph) (s : Agent) : Agent :=
  {| random := random s; graph := v; heap := heap s;
     budget_type := budget_type s; player_id := player_id s;
     node_counter := node_counter s; edge_counter := edge_counter s;
     num_rollouts := num_rollouts s; rollout_depth := rollout_depth s;
     root_node := root_node s; num_simulations := num_simulations s;
     forward_model_calls := forward_model_calls s;
     max_forward_model_calls := max_forward_model_calls s;
     num_iterations := num_iterations s; max_iterations := max_iterations s;
     timer := timer s; max_time_ms := max_time_ms s;
     fm_advances := fm_advances s |}.

Definition with_heap (v : list Node) (s : Agent) : Agent :=
  {| random := random s; graph := graph s; heap := v;
     budget_type := budget_type s; player_id := player_id s;
     node_counter := node_counter s; edge_counter := edge_counter s;
     num_rollouts := num_rollouts s; rollout_depth := rollout_depth s;
     root_node := root_node s; num_simulations := num_simulations s;
     forward_model_calls := forward_model_calls s;
     max_forward_model_calls := max_forward_model_calls s;
     num_iterations := num_iterations s; max_iterations := max_iterations s;
     timer := timer s; max_time_ms := max_time_ms s;
     fm_advances := fm_advances s |}.

Definition with_node_counter (v : Z) (s : Agent) : Agent :=
  {| random := random s; graph := graph s; heap := heap s;
     budget_type := budget_type s; player_id := player_id s;
     node_counter := v; edge_counter := edge_counter s;
     num_rollouts := num_rollouts s; rollout_depth := rollout_depth s;
     root_node := root_node s; num_simulations := num_simulations s;
     forward_model_calls := forward_model_calls s;
     max_forward_model_calls := max_forward_model_calls s;
     num_iterations := num_iterations s; max_iterations := max_iterations s;
     timer := timer s; max_time_ms := max_time_ms s;
     fm_advances := fm_advances s |}.

Definition with_edge_counter (v : Z) (s : Agent) : Agent :=
  {| random := random s; graph := graph s; heap := heap s;
     budget_type := budget_type s; player_id := player_id s;
     node_counter := node_counter s; edge_counter := v;
     num_rollouts := num_rollouts s; rollout_depth := rollout_depth s;
     root_node := root_node s; num_simulations := num_simulations s;
     forward_model_calls := forward_model_calls s;
     max_forward_model_calls := max_forward_model_calls s;
     num_iterations := num_iterations s; max_iterations := max_iterations s;
     timer := timer s; max_time_ms := max_time_ms s;
     fm_advances := fm_advances s |}.

Definition with_root_node (v : nat) (s : Agent) : Agent :=
  {| random := random s; graph := graph s; heap := heap s;
     budget_type := budget_type s; player_id := player_id s;
     node_counter := node_counter s; edge_counter := edge_counter s;
     num_rollouts := num_rollouts s; rollout_depth := rollout_depth s;
     root_node := v; num_simulations := num_simulations s;
     forward_model_calls := forward_model_calls s;
     max_forward_model_calls := max_forward_model_calls s;
     num_iterations := num_iterations s; max_iterations := max_iterations s;
     timer := timer s; max_time_ms := max_time_ms s;
     fm_advances := fm_advances s |}.

Definition with_num_simulations (v : Z) (s : Agent) : Agent :=
  {| random := random s; graph := graph s; heap := heap s;
     budget_type := budget_type s; player_id := player_id s;
     node_counter := node_counter s; edge_counter := edge_counter s;
     num_rollouts := num_rollouts s; rollout_depth := rollout_depth s;
     root_node := root_node s; num_simulations := v;
     forward_model_calls := forward_model_calls s;
     max_forward_model_calls := max_forward_model_calls s;
     num_iterations := num_iterations s; max_iterations := max_iterations s;
     timer := timer s; max_time_ms := max_time_ms s;
     fm_advances := fm_advances s |}.

Definition with_forward_model_calls (v : Z) (s : Agent) : Agent :=
  {| random := random s; graph := graph s; heap := heap s;
     budget_type := budget_type s; player_id := player_id s;
     node_counter := node_counter s; edge_counter := edge_counter s;
     num_rollouts := num_rollouts s; rollout_depth := rollout_depth s;
     root_node := root_node s; num_simulations := num_simulations s;
     forward_model_calls := v;
     max_forward_model_calls := max_forward_model_calls s;
     num_iterations := num_iterations s; max_iterations := max_iterations s;
     timer := timer s; max_time_ms := max_time_ms s;
     fm_advances := fm_advances s |}.

Definition with_num_iterations (v : Z) (s : Agent) : Agent :=
  {| random := random s; graph := graph s; heap := heap s;
     budget_type := budget_type s; player_id := player_id s;
     node_counter := node_counter s; edge_counter := edge_counter s;
     num_rollouts := num_rollouts s; rollout_depth := rollout_depth s;
     root_node := root_node s; num_simulations := num_simulations s;
     forward_model_calls := forward_model_calls s;
     max_forward_model_calls := max_forward_model_calls s;
     num_iterations := v; max_iterations := max_iterations s;
     timer := timer s; max_time_ms := max_time_ms s;
     fm_advances := fm_advances s |}.

Definition with_timer (v : Z) (s : Agent) : Agent :=
  {| random := random s; graph := graph s; heap := heap s;
     budget_type := budget_type s; player_id := player_id s;
     node_counter := node_counter s; edge_counter := edge_counter s;
     num_rollouts := num_rollouts s; rollout_depth := rollout_depth s;
     root_node := root_node s; num_simulations := num_simulations s;
     forward_model_calls := forward_model_calls s;
     max_forward_model_calls := max_forward_model_calls s;
     num_iterations := num_iterations s; max_iterations := max_iterations s;
     timer := v; max_time_ms := max_time_ms s;
     fm_advances := fm_advances s |}.

Definition with_fm_advances (v : Z) (s : Agent) : Agent :=
  {| random := random s; graph := graph s; heap := heap s;
     budget_type := budget_type s; player_id := player_id s;
     node_counter := node_counter s; edge_counter := edge_counter s;
     num_rollouts := num_rollouts s; rollout_depth := rollout_depth s;
     root_node := root_node s; num_simulations := num_simulations s;
     forward_model_calls := forward_model_calls s;
     max_forward_model_calls := max_forward_model_calls s;
     num_iterations := num_iterations s; max_iterations := max_iterations s;
     timer := timer s; max_time_ms := max_time_ms s; fm_advances := v |}.

Definition deref (a : nat) : M Agent Node :=
  fun s => match heap s !! a with
           | Some n => Ret (n, s)
           | None => Raise BadHandle
           end.

(** An in-place update of the node object at [a]. *)
Definition update (a : nat) (f : Node -> Node) : M Agent unit :=
  n <- deref a ;;
  modify (fun s => with_heap (<[a := f n]> (heap s)) s).

(** A constructor call: the new object gets the next free index. *)
Definition new_object (n : Node) : M Agent nat :=
  fun s => Ret (length (heap s), with_heap (heap s ++ [n]) s).

(** [forward_model.advance_gamestate(env, action)] *)
Definition advance (env : GameState E) (a : Action E)
  : M Agent (GameState E) :=
  fun s => Ret (advance_gamestate E env a,
                with_fm_advances (fm_advances s + 1) s).

(** [self.forward_model_calls += 1] *)
Definition count_forward_model_call : M Agent unit :=
  modify (fun s => with_forward_model_calls (forward_model_calls s + 1) s).

Definition is_budget_over (s : Agent) : bool :=
  match budget_type s with
  | MAX_FM_CALLS => forward_model_calls s >=? max_forward_model_calls s
  | MAX_ITERATIONS => num_iterations s >=? max_iterations s
  | MAX_TIME_MS => clock_ms E (fm_advances s - timer s) >=? max_time_ms s
  | OTHER_BUDGET => false
  end.

(** The state [reset_budget] leaves: both counters at zero and a timer
    that starts now. *)
Definition budget_reset (s : Agent) : Agent :=
  with_timer (fm_advances s)
    (with_num_iterations 0 (with_forward_model_calls 0 s)).

Definition reset_budget : M Agent unit := modify budget_reset.

Definition evaluate_state (gs : GameState E) (player : Z) : R :=
  evaluate_gamestate E gs player.

Definition get_observation (gs : GameState E) : string := print_board E gs.

Definition add_node (node : nat) : M Agent unit :=
  s <- get ;;
  if negb (has_node (heap s) (graph s) (NodeObject node)) then
    modify (fun s => with_graph (graph_add_node (graph s) node) s) ;;;
    modify (fun s => with_graph (add_to_frontier (graph s) node) s) ;;;
    modify (fun s => with_node_counter (node_counter s + 1) s)
  else ret tt.

Definition add_edge (parent_node child_node : nat) (action : Action E)
    (reward : R) : M Agent Edge :=
  s <- get ;;
  let edge := mkEdge (edge_counter s) parent_node child_node action reward in
  (if negb (has_edge (graph s) edge) then
     modify (fun s => with_graph (graph_add_edge (graph s) edge) s) ;;;
     modify (fun s => with_edge_counter (edge_counter s + 1) s)
   else ret tt) ;;;
  child <- deref child_node ;;
  root <- gets root_node ;;
  (if unreachable child && negb (Nat.eqb child_node root) then
     update child_node (set_parent (Some parent_node)) ;;;
     update child_node (set_action (Some action)) ;;;
     update child_node (set_unreachable false)
   else ret tt) ;;;
  ret edge.

Definition add_new_observation (current_observation : string)
    (parent_node : nat) (action : Action E) (reward : R)
  : M Agent (nat * R) :=
  s <- get ;;
  child <- (if negb (has_node (heap s) (graph s)
                              (Fingerprint current_observation)) then
              child <- new_object (Node_init current_observation
                                     (Some parent_node) true (Some action)
                                     reward 0) ;;
              add_node child ;;;
              ret child
            else
              lift (get_node_info (heap s) (graph s) current_observation)) ;;
  _ <- add_edge parent_node child action reward ;;
  ret (child, reward).

Fixpoint back_propagation (fuel : nat) (node : option nat) (reward : R)
  : M Agent unit :=
  match node with
  | None => ret tt
  | Some a =>
      match fuel with
      | O => out_of_fuel
      | S fuel' =>
          update a (bump reward) ;;;
          n <- deref a ;;
          back_propagation fuel' (parent n) reward
      end
  end.

(** [self.random.choice(a)]: a [ValueError] on an empty sequence.  The
    drawn index is reduced modulo the length, so that any [draw] models
    a sampler. *)
Definition random_choice {A} (a : list A) : M Agent A :=
  match a with
  | [] => raise ValueError
  | d :: _ =>
      s <- get ;;
      let (i, r) := draw E (random s) (length a) in
      modify (with_random r) ;;;
      ret (nth (i mod length a)%nat a d)
  end.

(** [self.random.choice(a, size)] *)
Definition random_choice_many {A} (a : list A) (size : Z) : M Agent (list A) :=
  if size <? 0 then raise ValueError
  else if size =? 0 then ret []
  else for_each (range size) []
         (fun acc _ => x <- random_choice a ;; ret (acc ++ [x])).

(** The loop variables of [rollout]. *)
Record RolloutState : Type := mkRolloutState {
  rollout_env : GameState E;
  cum_reward : R;
  path : list (string * string * Action E * R);
  previous_observation : string
}.

Definition rollout_step (r : RolloutState) (action : Action E)
  : M Agent RolloutState :=
  player <- gets player_id ;;
  let end_action := create_end_action E player (get_action_type E action) in
  env <- advance (rollout_env r) end_action ;;
  let observation := get_observation env in
  count_forward_model_call ;;;
  let reward := evaluate_state env player in
  ret {| rollout_env := env;
         cum_reward := float_add E (cum_reward r) reward;
         path := path r ++ [(previous_observation r, observation, action, reward)];
         previous_observation := observation |}.

Definition rollout (action_to_node : Action E) (env : GameState E)
    (action_list : list (Action E))
  : M Agent (R * list (string * string * Action E * R)) :=
  env' <- advance env action_to_node ;;
  count_forward_model_call ;;;
  r <- for_each action_list
         {| rollout_env := env'; cum_reward := 0%R; path := [];
            previous_observation := get_observation env' |}
         rollout_step ;;
  ret (cum_reward r, path r).

(** The body of the loop of [sequential_simulation]: one rollout along
    freshly sampled actions, its result appended to the lists. *)
Definition simulation_round (action_to_node : Action E) (env : GameState E)
    (acc : list R * list (list (string * string * Action E * R))) (i : nat)
  : M Agent (list R * list (list (string * string * Action E * R))) :=
  player <- gets player_id ;;
  let possible_actions := generate_actions E env player in
  depth <- gets rollout_depth ;;
  action_list <- random_choice_many possible_actions depth ;;
  res <- rollout action_to_node env action_list ;;
  ret (fst acc ++ [fst res], snd acc ++ [snd res]).

Definition sequential_simulation (action_to_node : Action E)
    (env : GameState E)
  : M Agent (R * list (list (string * string * Action E * R))) :=
  n <- gets num_rollouts ;;
  acc <- for_each (range n) ([], []) (simulation_round action_to_node env) ;;
  average <- lift (np_mean E (fst acc)) ;;
  ret (average, snd acc).

Definition expansion (node : nat) (env : GameState E)
  : M Agent (list nat * list (Action E)) :=
  n <- deref node ;;
  (if is_leaf n then
     update node (set_is_leaf false) ;;;
     modify (fun s => with_graph (remove_from_frontier (graph s) node) s)
   else ret tt) ;;;
  player <- gets player_id ;;
  let actions := generate_actions E env player in
  for_each actions ([], [])
    (fun (acc : list nat * list (Action E)) action =>
       expansion_env <- advance env action ;;
       count_forward_model_call ;;;
       let reward := evaluate_state expansion_env player in
       let current_observation := get_observation expansion_env in
       res <- add_new_observation current_observation node action reward ;;
       ret (fst acc ++ [fst res], snd acc ++ [action])).

(** How the [for] loop of [go_to_node] ends: it runs through all the
    actions, or breaks because the observed state differs from the
    recorded one, or breaks at the destination. *)
Inductive replay : Type :=
| Replayed
| Diverged (node : nat)
| Reached.

Fixpoint follow_path (destination_node : nat) (observations : list string)
    (idx : nat) (actions : list (Action E)) (env : GameState E)
  : M Agent (replay * GameState E) :=
  match actions with
  | [] => ret (Replayed, env)
  | action :: rest =>
      let previous_observation := get_observation env in
      s <- get ;;
      parent_node <- lift (get_node_info (heap s) (graph s) previous_observation) ;;
      env <- advance env action ;;
      count_forward_model_call ;;;
      let current_observation := get_observation env in
      player <- gets player_id ;;
      let reward := evaluate_state env player in
      s <- get ;;
      (if negb (has_node (heap s) (graph s) (Fingerprint current_observation))
       then _ <- add_new_observation current_observation parent_node action reward ;;
            ret tt
       else ret tt) ;;;
      s <- get ;;
      child <- lift (get_node_info (heap s) (graph s) current_observation) ;;
      (if negb (has_edge_by_nodes (graph s) parent_node child)
       then _ <- add_edge parent_node child action reward ;; ret tt
       else ret tt) ;;;
      match observations !! (idx + 1)%nat with
      | None => raise IndexError
      | Some expected =>
          if negb (String.eqb expected current_observation) then
            s <- get ;;
            node <- lift (get_node_info (heap s) (graph s) current_observation) ;;
            ret (Diverged node, env)
          else
            destination <- deref destination_node ;;
            if String.eqb (id destination) (get_observation env) then
              ret (Reached, env)
            else follow_path destination_node observations (S idx) rest env
      end
  end.

Fixpoint go_to_node_loop (fuel : nat) (destination_node node : nat)
    (env : GameState E) : M Agent (GameState E) :=
  s <- get ;;
  if has_path G (heap s) (graph s) node destination_node then
    match fuel with
    | O => out_of_fuel
    | S fuel' =>
        p <- lift (get_path G (heap s) (graph s) node destination_node) ;;
        r <- follow_path destination_node (fst p) 0 (snd p) env ;;
        match fst r with
        | Reached => ret (snd r)
        | Diverged node' => go_to_node_loop fuel' destination_node node' (snd r)
        | Replayed => go_to_node_loop fuel' destination_node node (snd r)
        end
    end
  else ret env.

Definition go_to_node (fuel : nat) (destination_node : nat)
    (env : GameState E) : M Agent (nat * GameState E) :=
  s <- get ;;
  node <- lift (get_node_info (heap s) (graph s) (get_observation env)) ;;
  env <- go_to_node_loop fuel destination_node node env ;;
  s <- get ;;
  reached <- lift (get_node_info (heap s) (graph s) (get_observation env)) ;;
  ret (reached, env).

Definition selection (fuel : nat) (env : GameState E)
  : M Agent (nat * GameState E) :=
  root_node <- gets root_node ;;
  root <- deref root_node ;;
  if is_leaf root then ret (root_node, env)
  else
    s <- get ;;
    let (node, r) := select_frontier_node G (heap s) (graph s) in
    modify (fun s => with_graph (graph_set_random (graph s) r) s) ;;;
    match node with
    | None => ret (root_node, env)
    | Some node => go_to_node fuel node env
    end.

Definition set_root_node (gs : GameState E) : M Agent unit :=
  old_root_node <- gets root_node ;;
  let new_root_id := get_observation gs in
  s <- get ;;
  new_root <- lift (get_node_info (heap s) (graph s) new_root_id) ;;
  modify (with_root_node new_root) ;;;
  modify (fun s => with_graph (graph_set_root_node (graph s) new_root) s) ;;;
  root <- deref new_root ;;
  old_root <- deref old_root_node ;;
  if negb (String.eqb (id root) (id old_root)) then
    update new_root (set_chosen true) ;;;
    update new_root (set_parent None) ;;;
    s <- get ;;
    if has_path G (heap s) (graph s) new_root old_root_node then
      h <- lift (reroute_path G (heap s) (graph s) new_root old_root_node) ;;
      modify (with_heap h) ;;;
      old_root <- deref old_root_node ;;
      s <- get ;;
      e <- lift (get_edge_info (graph s) (parent old_root) old_root_node) ;;
      update old_root_node (set_action (Some (edge_action e)))
    else ret tt
  else ret tt.

(** [while best_node.parent != self.root_node: best_node = best_node.parent] *)
Fixpoint climb_to_root_child (fuel : nat) (best_node : nat) : M Agent nat :=
  n <- deref best_node ;;
  root <- gets root_node ;;
  match parent n with
  | Some p =>
      if Nat.eqb p root then ret best_node
      else match fuel with
           | O => out_of_fuel
           | S fuel' => climb_to_root_child fuel' p
           end
  | None => raise AttributeError
  end.

Definition select_best_step (fuel : nat) (node : nat) (closest : bool)
  : M Agent (nat * option (Action E)) :=
  s <- get ;;
  let best_node :=
    if closest then get_closest_done_node G (heap s) (graph s) true
    else None in
  let best_node :=
    match best_node with
    | None => get_best_node G (heap s) (graph s) true
    | Some b => Some b
    end in
  match best_node with
  | None => ret (root_node s, None)
  | Some b =>
      best <- climb_to_root_child fuel b ;;
      s <- get ;;
      edge <- lift (get_edge_info (graph s) (Some node) best) ;;
      ret (best, Some (edge_action edge))
  end.

(** One pass through the body of the [while] loop of [plan].  [selection]
    never answers [None], so the branch that simulates from the root
    with no action is not reached. *)
Definition plan_iteration (fuel : nat) (gs : GameState E) : M Agent unit :=
  let selection_env := gs in
  sel <- selection fuel selection_env ;;
  let node := fst sel in
  let selection_env := snd sel in
  exp <- expansion node selection_env ;;
  let children := fst exp in
  let actions_to_children := snd exp in
  for_each (seq 0 (length children)) tt
    (fun _ idx =>
       match actions_to_children !! idx, children !! idx with
       | Some action, Some child =>
           sim <- sequential_simulation action selection_env ;;
           modify (fun s => with_num_simulations (num_simulations s + 1) s) ;;;
           back_propagation fuel (Some child) (fst sim)
       | _, _ => raise IndexError
       end).

Fixpoint plan_loop (fuel : nat) (gs : GameState E) : M Agent unit :=
  s <- get ;;
  if is_budget_over s then ret tt
  else match fuel with
       | O => out_of_fuel
       | S fuel' => plan_iteration fuel gs ;;; plan_loop fuel' gs
       end.

Definition plan (fuel : nat) (gs : GameState E) : M Agent (option (Action E)) :=
  set_root_node gs ;;;
  s <- get ;;
  h <- lift (reroute_all G (heap s) (graph s)) ;;
  modify (with_heap h) ;;;
  plan_loop fuel gs ;;;
  root <- gets root_node ;;
  best <- select_best_step fuel root false ;;
  ret (snd best).

Definition compute_action (fuel : nat) (gs : GameState E)
  : M Agent (ActionAssignment (Action E)) :=
  reset_budget ;;;
  player <- gets player_id ;;
  let actions := generate_actions E gs player in
  action <- plan fuel gs ;;
  match action with
  | None => ret (create_end_action_assignment player)
  | Some a => ret (from_single_action a)
  end.

(** [MCGSAgent.__init__] followed by [MCGSAgent.init]. *)
Definition init (seed graph_seed : RandomState E) (budget : BudgetType)
    (player : Z) (gs : GameState E) : outcome (unit * Agent) :=
  let root := set_chosen true
                (Node_init (get_observation gs) None true None 0%R 0) in
  let s := {| random := seed;
              graph := {| nodes := []; edges := []; frontier := [];
                          graph_root := None; graph_random := graph_seed |};
              heap := [root];
              budget_type := budget;
              player_id := player;
              node_counter := 0 + 1;
              edge_counter := 0;
              num_rollouts := 8;
              rollout_depth := 10;
              root_node := 0%nat;
              num_simulations := 0;
              forward_model_calls := 0;
              max_forward_model_calls := 1000;
              num_iterations := 0;
              max_iterations := 1000;
              timer := 0;
              max_time_ms := 1000;
              fm_advances := 0 |} in
  add_node 0%nat s.


(** *** Node methods that follow or rewrite parent pointers

    [trajectory_from_root] and [reroute] touch node objects only, so
    they are functions of the arena. *)

Definition node_at (a : nat) : M (list Node) Node :=
  fun h => match h !! a with
           | Some n => Ret (n, h)
           | None => Raise BadHandle
           end.

Definition node_update (a : nat) (f : Node -> Node) : M (list Node) unit :=
  n <- node_at a ;;
  modify (fun h => <[a := f n]> h).

(** The loop of [Node.trajectory_from_root]:
    [while current_node.parent is not None:
       action_trajectory.insert(0, current_node.action);
       current_node = current_node.parent]. *)
Fixpoint trajectory_loop (fuel : nat) (h : list Node) (current_node : nat)
    (action_trajectory : list (option (Action E)))
  : outcome (list (option (Action E))) :=
  match h !! current_node with
  | None => Raise BadHandle
  | Some n =>
      match parent n with
      | None => Ret action_trajectory
      | Some p =>
          match fuel with
          | O => OutOfFuel
          | S fuel' =>
              trajectory_loop fuel' h p (action n :: action_trajectory)
          end
      end
  end.

(** [Node.trajectory_from_root] *)
Definition trajectory_from_root (fuel : nat) (h : list Node) (self : nat)
  : outcome (list (option (Action E))) :=
  trajectory_loop fuel h self [].

(** [node.parent != other]: node objects are compared by identity. *)
Definition parent_is_not (n : Node) (other : nat) : bool :=
  match parent n with
  | Some p => negb (Nat.eqb p other)
  | None => true
  end.

(** One pass through the loop of [Node.reroute]; [node] is the loop
    variable of that name, and its next value is answered. *)
Definition reroute_step (parent_order : list nat)
    (actions_order : list (Action E)) (node : nat) (i : nat)
  : M (list Node) nat :=
  match parent_order !! (i + 1)%nat with
  | None => raise IndexError
  | Some next =>
      n <- node_at node ;;
      (if parent_is_not n next then node_update node (set_parent (Some next))
       else ret tt) ;;;
      match actions_order !! i with
      | None => raise IndexError
      | Some a =>
          node_update node (set_action (Some a)) ;;;
          ret next
      end
  end.

(** [Node.reroute] *)
Definition reroute (self : nat) (path : list nat) (actions : list (Action E))
  : M (list Node) unit :=
  let parent_order := reverse path in
  let actions_order := reverse actions in
  for_each (seq 0 (length parent_order - 1)) self
    (reroute_step parent_order actions_order) ;;;
  ret tt.

(** The node [n] hung under the node [p] through the action [a]: what
    one pass of the loop of [reroute] makes of it. *)
Definition relinked (p : nat) (a : Action E) (n : Node) : Node :=
  set_action (Some a) (set_parent (Some p) n).

(** [MCGSAgent.get_optimal_action] *)
Definition get_optimal_action (fuel : nat) (node : nat)
  : M Agent (option (Action E)) :=
  best <- select_best_step fuel node false ;;
  let new_root_node := fst best in
  update new_root_node (set_chosen true) ;;;
  update new_root_node (set_parent None) ;;;
  s <- get ;;
  (if has_path G (heap s) (graph s) new_root_node (root_node s) then
     h <- lift (reroute_path G (heap s) (graph s) new_root_node (root_node s)) ;;
     modify (with_heap h) ;;;
     root <- deref (root_node s) ;;
     s' <- get ;;
     e <- lift (get_edge_info (graph s') (parent root) (root_node s)) ;;
     update (root_node s) (set_action (Some (edge_action e)))
   else ret tt) ;;;
  modify (with_root_node new_root_node) ;;;
  ret (snd best).

(** [node.parent == root]: the node hangs directly under [root]. *)
Definition is_child_of (root : nat) (n : Node) : bool :=
  match parent n with
  | Some p => Nat.eqb p root
  | None => false
  end.

(** The live-parent chain of a node up to the nearest node that hangs
    directly under [root]: what the loop of [select_best_step] walks. *)
Definition chain_to_child_of (root : nat)
  : list Node -> nat -> list nat -> Prop :=
  Chain.walk (is_child_of root) parent.

(** *** Notions used to state the properties of the graph-search agent *)

Definition no_parent (n : Node) : bool :=
  match parent n with
  | None => true
  | Some _ => false
  end.

(** The live-parent chain of a node up to the node with no parent. *)
Definition chain_to_root : list Node -> nat -> list nat -> Prop :=
  Chain.walk no_parent parent.

(** The live-parent chain of a node up to the nearest node flagged
    [chosen]. *)
Definition chain_to_chosen : list Node -> nat -> list nat -> Prop :=
  Chain.walk chosen parent.


(** The node objects of the store that carry the fingerprint [o]. *)
Definition nodes_with_fingerprint (s : Agent) (o : string) : list nat :=
  filter (fun a => has_fingerprint (heap s) o a) (nodes (graph s)).

(** Every node object ever constructed is registered in the store, and no
    two of them carry the same fingerprint. *)
Definition Dedup (s : Agent) : Prop :=
  nodes (graph s) = seq 0 (length (heap s)) /\ NoDup (id <$> heap s).

(** What the specification says of rerouting: it rewrites parent
    pointers, actions and reachability flags of existing nodes; it
    neither creates nor destroys nodes nor changes a fingerprint. *)
Definition keeps_ids : Prop :=
  (forall h g a b h', reroute_path G h g a b = Ret h' -> id <$> h' = id <$> h)
  /\ (forall h g h', reroute_all G h g = Ret h' -> id <$> h' = id <$> h).

(** One completed call of a method of the agent. *)
Inductive step : Agent -> Agent -> Prop :=
| step_compute_action fuel gs r s s' :
    compute_action fuel gs s = Ret (r, s') -> step s s'
| step_plan fuel gs r s s' :
    plan fuel gs s = Ret (r, s') -> step s s'
| step_set_root_node gs r s s' :
    set_root_node gs s = Ret (r, s') -> step s s'
| step_selection fuel env r s s' :
    selection fuel env s = Ret (r, s') -> step s s'
| step_go_to_node fuel node env r s s' :
    go_to_node fuel node env s = Ret (r, s') -> step s s'
| step_expansion node env r s s' :
    expansion node env s = Ret (r, s') -> step s s'
| step_sequential_simulation a env r s s' :
    sequential_simulation a env s = Ret (r, s') -> step s s'
| step_back_propagation fuel node v r s s' :
    back_propagation fuel node v s = Ret (r, s') -> step s s'
| step_add_new_observation o p a v r s s' :
    add_new_observation o p a v s = Ret (r, s') -> step s s'
| step_select_best_step fuel node closest r s s' :
    select_best_step fuel node closest s = Ret (r, s') -> step s s'.

(** The states the agent can be in: after [init], and after any further
    sequence of completed calls. *)
Inductive reachable : Agent -> Prop :=
| reachable_init seed graph_seed budget player gs s :
    init seed graph_seed budget player gs = Ret (tt, s) -> reachable s
| reachable_step s s' :
    reachable s -> step s s' -> reachable s'.

(** A predicate on agent states that survives each elementary state
    change the methods are made of; [heap_ok] says which rewritings of
    the arena it tolerates. *)
Record stable (I : Agent -> Prop) (heap_ok : list Node -> list Node -> Prop)
  : Prop := {
  stable_heap : forall s h', I s -> heap_ok (heap s) h' -> I (with_heap h' s);
  stable_graph : forall s g',
    I s -> nodes g' = nodes (graph s) -> I (with_graph g' s);
  stable_random : forall s v, I s -> I (with_random v s);
  stable_node_counter : forall s v, I s -> I (with_node_counter v s);
  stable_edge_counter : forall s v, I s -> I (with_edge_counter v s);
  stable_root_node : forall s v, I s -> I (with_root_node v s);
  stable_num_simulations : forall s v, I s -> I (with_num_simulations v s);
  stable_call : forall s,
    I s ->
    I (with_forward_model_calls (forward_model_calls s + 1)
         (with_fm_advances (fm_advances s + 1) s));
  stable_register : forall s n,
    I s ->
    has_node (heap s) (graph s) (Fingerprint (id n)) = false ->
    I (with_graph (graph_add_node (graph s) (length (heap s)))
         (with_heap (heap s ++ [n]) s));
  heap_ok_update : forall h a n f,
    h !! a = Some n -> id (f n) = id n -> heap_ok h (<[a := f n]> h)
}.

(** What [G] must satisfy for an invariant tolerating [heap_ok]. *)
Definition reroutes_within (heap_ok : list Node -> list Node -> Prop) : Prop :=
  (forall h g a b h', reroute_path G h g a b = Ret h' -> heap_ok h h')
  /\ (forall h g h', reroute_all G h g = Ret h' -> heap_ok h h').

(** The budget settings replaced, everything else kept. *)
Definition with_budget (bt : BudgetType) (max_calls max_iter max_ms : Z)
    (s : Agent) : Agent :=
  {| random := random s; graph := graph s; heap := heap s;
     budget_type := bt; player_id := player_id s;
     node_counter := node_counter s; edge_counter := edge_counter s;
     num_rollouts := num_rollouts s; rollout_depth := rollout_depth s;
     root_node := root_node s; num_simulations := num_simulations s;
     forward_model_calls := forward_model_calls s;
     max_forward_model_calls := max_calls;
     num_iterations := num_iterations s; max_iterations := max_iter;
     timer := timer s; max_time_ms := max_ms;
     fm_advances := fm_advances s |}.

(** The environments a rollout passes through: [env] advanced by the
    end-turn action built from each sampled action in turn. *)
Fixpoint rollout_states (player : Z) (env : GameState E)
    (action_list : list (Action E)) : list (GameState E) :=
  match action_list with
  | [] => []
  | action :: rest =>
      let env' := advance_gamestate E env
                    (create_end_action E player (get_action_type E action)) in
      env' :: rollout_states player env' rest
  end.

(** Under the budget settings [bt] and [B], the forward-model calls
    issued and the forward-model calls counted differ by [c]. *)
Definition calls_counted (bt : BudgetType) (B c : Z) (s : Agent) : Prop :=
  budget_type s = bt /\ max_forward_model_calls s = B
  /\ fm_advances s - forward_model_calls s = c.

(** The node objects present in [ids0], listed by fingerprint, are still
    there with the same fingerprints. *)
Definition nodes_persist (ids0 : list string) (s : Agent) : Prop :=
  ids0 `prefix_of` (id <$> heap s).

(** [k] more forward-model calls issued and counted. *)
Definition calls_added (k : Z) (s : Agent) : Agent :=
  with_forward_model_calls (forward_model_calls s + k)
    (with_fm_advances (fm_advances s + k) s).

(** The cumulative reward of a rollout that steps through the end-turn
    actions of [action_list] from the state [env]: the rewards of the
    states it passes, added to 0 one after the other. *)
Definition rollout_reward (player : Z) (env : GameState E)
    (action_list : list (Action E)) : R :=
  accumulate E 0
    (map (fun e => evaluate_state e player)
         (rollout_states player env action_list)).

(** What one rollout of a simulation yields: the cumulative reward of
    [rollout_depth] end-turn steps behind the action to the child. *)
Definition simulated (a : Action E) (env : GameState E) (s : Agent)
    (c : R) : Prop :=
  exists l,
    length l = Z.to_nat (rollout_depth s)
    /\ Forall (fun x => x ∈ generate_actions E env (player_id s)) l
    /\ c = rollout_reward (player_id s) (advance_gamestate E env a) l.


End Agent.

Arguments evaluate_state {E} gs player.
Arguments get_observation {E} gs.
Arguments rollout_states {E} player env action_list.
Arguments rollout_reward {E} player env action_list.
Arguments rollout_step {E} r action _.
Arguments count_forward_model_call {E} _.

End MCGS.

(** ** The tree-search agent, [src/MCTSAgent.py] *)

Module MCTS.
Import Py.

Section Agent.

Context (E : Collaborators).

(** [class Node] *)
Record Node : Type := mkNode {
  id : Z;
  observation : string;
  parent : option nat;
  value : R;
  visits : Z;
  is_leaf : bool;
  redundant : bool;
  chosen : bool;
  unreachable : bool
}.

(** [Node.__init__] *)
Definition Node_init (id : Z) (observation : string) (parent : option nat)
    (is_leaf : bool) (value : R) (visits : Z) (redundant : bool) : Node :=
  {| id := id; observation := observation; parent := parent; value := value;
     visits := visits; is_leaf := is_leaf; redundant := redundant;
     chosen := false; unreachable := false |}.

Definition set_is_leaf (b : bool) (n : Node) : Node :=
  {| id := id n; observation := observation n; parent := parent n;
     value := value n; visits := visits n; is_leaf := b;
     redundant := redundant n; chosen := chosen n;
     unreachable := unreachable n |}.

Definition set_chosen (b : bool) (n : Node) : Node :=
  {| id := id n; observation := observation n; parent := parent n;
     value := value n; visits := visits n; is_leaf := is_leaf n;
     redundant := redundant n; chosen := b; unreachable := unreachable n |}.

(** [node.visits += 1; node.value += value] *)
Definition bump (v : R) (n : Node) : Node :=
  {| id := id n; observation := observation n; parent := parent n;
     value := float_add E (value n) v; visits := visits n + 1;
     is_leaf := is_leaf n;
     redundant := redundant n; chosen := chosen n;
     unreachable := unreachable n |}.

(** [Node.uct_value].  In the source the argument of [math.log] is
    [self.parent.visits if self.parent is not None else 1 + 1]: the
    conditional expression binds weaker than [+], so [1 + 1] is the
    [else] branch alone. *)
Definition uct_value (h : list Node) (n : Node) : outcome R :=
  let c := (1 / sqrt 2)%R in
  obind (truediv (value n) (visits n)) (fun mean =>
  obind (match parent n with
         | Some p => match h !! p with
                     | Some pn => Ret (visits pn)
                     | None => Raise BadHandle
                     end
         | None => Ret (1 + 1)
         end) (fun x =>
  obind (math_log (IZR x)) (fun lg =>
  obind (truediv lg (visits n)) (fun q =>
  obind (math_sqrt q) (fun s =>
  let ucb := (c * s)%R in
  Ret (mean + ucb)%R))))).

(** [class Edge] *)
Record Edge : Type := mkEdge {
  edge_id : Z;
  node_from : nat;
  node_to : nat;
  edge_action : Action E;
  edge_reward : R
}.

(** *** The graph store

    Modelled from the spec: [MCTSGraph.Graph] is not among the sources.
    Of the operations of section 4.1 the tree-search agent uses
    [add_node] and [add_edge], and besides them [get_children],
    [get_edge_info] and [has_observation]; nodes and edges are kept in
    insertion order and node objects are told apart by identity. *)
Record Graph : Type := mkGraph {
  nodes : list nat;
  edges : list Edge
}.

Definition graph_add_node (g : Graph) (a : nat) : Graph :=
  {| nodes := nodes g ++ [a]; edges := edges g |}.

Definition graph_add_edge (g : Graph) (e : Edge) : Graph :=
  {| nodes := nodes g; edges := edges g ++ [e] |}.

Definition get_children (g : Graph) (a : nat) : list nat :=
  map node_to (filter (fun e => Nat.eqb (node_from e) a) (edges g)).

Definition get_edge_info (g : Graph) (a : option nat) (b : nat)
  : outcome Edge :=
  match a with
  | None => Raise KeyError
  | Some a =>
      match find (fun e => Nat.eqb (node_from e) a && Nat.eqb (node_to e) b)
                 (edges g) with
      | Some e => Ret e
      | None => Raise KeyError
      end
  end.

Definition has_observation (h : list Node) (g : Graph) (o : string) : bool :=
  existsb (fun a => match h !! a with
                    | Some n => String.eqb (observation n) o
                    | None => false
                    end) (nodes g).

(** *** The agent *)

Record Agent : Type := mkAgent {
  random : RandomState E;
  graph : Graph;
  heap : list Node;
  budget_type : BudgetType;
  player_id : Z;
  node_counter : Z;
  edge_counter : Z;
  num_rollouts : Z;
  use_opponent_model : bool;
  root_node : nat;
  num_simulations : Z;
  forward_model_calls : Z;
  max_forward_model_calls : Z;
  num_iterations : Z;
  max_iterations : Z;
  timer : Z;
  max_time_ms : Z;
  (** instrumentation, not a field of the class: the number of
      [advance_gamestate] calls issued so far *)
  fm_advances : Z
}.

(** Field updates ([self.f = v]). *)

Definition with_random (v : RandomState E) (s : Agent) : Agent :=
  {| random := v; graph := graph s; heap := heap s;
     budget_type := budget_type s; player_id := player_id s;
     node_counter := node_counter s; edge_counter := edge_counter s;
     num_rollouts := num_rollouts s;
     use_opponent_model := use_opponent_model s; root_node := root_node s;
     num_simulations := num_simulations s;
     forward_model_calls := forward_model_calls s;
     max_forward_model_calls := max_forward_model_calls s;
     num_iterations := num_iterations s; max_iterations := max_iterations s;
     timer := timer s; max_time_ms := max_time_ms s;
     fm_advances := fm_advances s |}.

Definition with_graph (v : Graph) (s : Agent) : Agent :=
  {| random := random s; graph := v; heap := heap s;
     budget_type := budget_type s; player_id := player_id s;
     node_counter := node_counter s; edge_counter := edge_counter s;
     num_rollouts := num_rollouts s;
     use_opponent_model := use_opponent_model s; root_node := root_node s;
     num_simulations := num_simulations s;
     forward_model_calls := forward_model_calls s;
     max_forward_model_calls := max_forward_model_calls s;
     num_iterations := num_iterations s; max_iterations := max_iterations s;
     timer := timer s; max_time_ms := max_time_ms s;
     fm_advances := fm_advances s |}.

Definition with_heap (v : list Node) (s : Agent) : Agent :=
  {| random := random s; graph := graph s; heap := v;
     budget_type := budget_type s; player_id := player_id s;
     node_counter := node_counter s; edge_counter := edge_counter s;
     num_rollouts := num_rollouts s;
     use_opponent_model := use_opponent_model s; root_node := root_node s;
     num_simulations := num_simulations s;
     forward_model_calls := forward_model_calls s;
     max_forward_model_calls := max_forward_model_calls s;
     num_iterations := num_iterations s; max_iterations := max_iterations s;
     timer := timer s; max_time_ms := max_time_ms s;
     fm_advances := fm_advances s |}.

Definition with_node_counter (v : Z) (s : Agent) : Agent :=
  {| random := random s; graph := graph s; heap := heap s;
     budget_type := budget_type s; player_id := player_id s;
     node_counter := v; edge_counter := edge_counter s;
     num_rollouts := num_rollouts s;
     use_opponent_model := use_opponent_model s; root_node := root_node s;
     num_simulations := num_simulations s;
     forward_model_calls := forward_model_calls s;
     max_forward_model_calls := max_forward_model_calls s;
     num_iterations := num_iterations s; max_iterations := max_iterations s;
     timer := timer s; max_time_ms := max_time_ms s;
     fm_advances := fm_advances s |}.

Definition with_edge_counter (v : Z) (s : Agent) : Agent :=
  {| random := random s; graph := graph s; heap := heap s;
     budget_type := budget_type s; player_id := player_id s;
     node_counter := node_counter s; edge_counter := v;
     num_rollouts := num_rollouts s;
     use_opponent_model := use_opponent_model s; root_node := root_node s;
     num_simulations := num_simulations s;
     forward_model_calls := forward_model_calls s;
     max_forward_model_calls := max_forward_model_calls s;
     num_iterations := num_iterations s; max_iterations := max_iterations s;
     timer := timer s; max_time_ms := max_time_ms s;
     fm_advances := fm_advances s |}.

Definition with_root_node (v : nat) (s : Agent) : Agent :=
  {| random := random s; graph := graph s; heap := heap s;
     budget_type := budget_type s; player_id := player_id s;
     node_counter := node_counter s; edge_counter := edge_counter s;
     num_rollouts := num_rollouts s;
     use_opponent_model := use_opponent_model s; root_node := v;
     num_simulations := num_simulations s;
     forward_model_calls := forward_model_calls s;
     max_forward_model_calls := max_forward_model_calls s;
     num_iterations := num_iterations s; max_iterations := max_iterations s;
     timer := timer s; max_time_ms := max_time_ms s;
     fm_advances := fm_advances s |}.

Definition with_forward_model_calls (v : Z) (s : Agent) : Agent :=
  {| random := random s; graph := graph s; heap := heap s;
     budget_type := budget_type s; player_id := player_id s;
     node_counter := node_counter s; edge_counter := edge_counter s;
     num_rollouts := num_rollouts s;
     use_opponent_model := use_opponent_model s; root_node := root_node s;
     num_simulations := num_simulations s; forward_model_calls := v;
     max_forward_model_calls := max_forward_model_calls s;
     num_iterations := num_iterations s; max_iterations := max_iterations s;
     timer := timer s; max_time_ms := max_time_ms s;
     fm_advances := fm_advances s |}.

Definition with_num_iterations (v : Z) (s : Agent) : Agent :=
  {| random := random s; graph := graph s; heap := heap s;
     budget_type := budget_type s; player_id := player_id s;
     node_counter := node_counter s; edge_counter := edge_counter s;
     num_rollouts := num_rollouts s;
     use_opponent_model := use_opponent_model s; root_node := root_node s;
     num_simulations := num_simulations s;
     forward_model_calls := forward_model_calls s;
     max_forward_model_calls := max_forward_model_calls s;
     num_iterations := v; max_iterations := max_iterations s;
     timer := timer s; max_time_ms := max_time_ms s;
     fm_advances := fm_advances s |}.

Definition with_timer (v : Z) (s : Agent) : Agent :=
  {| random := random s; graph := graph s; heap := heap s;
     budget_type := budget_type s; player_id := player_id s;
     node_counter := node_counter s; edge_counter := edge_counter s;
     num_rollouts := num_rollouts s;
     use_opponent_model := use_opponent_model s; root_node := root_node s;
     num_simulations := num_simulations s;
     forward_model_calls := forward_model_calls s;
     max_forward_model_calls := max_forward_model_calls s;
     num_iterations := num_iterations s; max_iterations := max_iterations s;
     timer := v; max_time_ms := max_time_ms s;
     fm_advances := fm_advances s |}.

Definition with_fm_advances (v : Z) (s : Agent) : Agent :=
  {| random := random s; graph := graph s; heap := heap s;
     budget_type := budget_type s; player_id := player_id s;
     node_counter := node_counter s; edge_counter := edge_counter s;
     num_rollouts := num_rollouts s;
     use_opponent_model := use_opponent_model s; root_node := root_node s;
     num_simulations := num_simulations s;
     forward_model_calls := forward_model_calls s;
     max_forward_model_calls := max_forward_model_calls s;
     num_iterations := num_iterations s; max_iterations := max_iterations s;
     timer := timer s; max_time_ms := max_time_ms s; fm_advances := v |}.

Definition deref (a : nat) : M Agent Node :=
  fun s => match heap s !! a with
           | Some n => Ret (n, s)
           | None => Raise BadHandle
           end.

Definition update (a : nat) (f : Node -> Node) : M Agent unit :=
  n <- deref a ;;
  modify (fun s => with_heap (<[a := f n]> (heap s)) s).

Definition new_object (n : Node) : M Agent nat :=
  fun s => Ret (length (heap s), with_heap (heap s ++ [n]) s).

(** [forward_model.advance_gamestate(env, action)] *)
Definition advance (env : GameState E) (a : Action E)
  : M Agent (GameState E) :=
  fun s => Ret (advance_gamestate E env a,
                with_fm_advances (fm_advances s + 1) s).

(** [self.forward_model_calls += 1] *)
Definition count_forward_model_call : M Agent unit :=
  modify (fun s => with_forward_model_calls (forward_model_calls s + 1) s).

Definition is_budget_over (s : Agent) : bool :=
  match budget_type s with
  | MAX_FM_CALLS => forward_model_calls s >=? max_forward_model_calls s
  | MAX_ITERATIONS => num_iterations s >=? max_iterations s
  | MAX_TIME_MS => clock_ms E (fm_advances s - timer s) >=? max_time_ms s
  | OTHER_BUDGET => false
  end.

(** The state [reset_budget] leaves: both counters at zero and a timer
    that starts now. *)
Definition budget_reset (s : Agent) : Agent :=
  with_timer (fm_advances s)
    (with_num_iterations 0 (with_forward_model_calls 0 s)).

Definition reset_budget : M Agent unit := modify budget_reset.

Definition evaluate_state (gs : GameState E) (player : Z) : R :=
  evaluate_gamestate E gs player.

Definition get_observation (gs : GameState E) : string := print_board E gs.

Definition get_opponent_id (s : Agent) : Z :=
  if player_id s =? 0 then 1 else 0.

Definition random_choice {A} (a : list A) : M Agent A :=
  match a with
  | [] => raise ValueError
  | d :: _ =>
      s <- get ;;
      let (i, r) := draw E (random s) (length a) in
      modify (with_random r) ;;;
      ret (nth (i mod length a)%nat a d)
  end.

Definition add_node (node : nat) : M Agent unit :=
  modify (fun s => with_graph (graph_add_node (graph s) node) s).

(** [child_values.index(max(child_values))]: the first position of the
    largest value; [max] of an empty list is a [ValueError]. *)
Fixpoint index_of (m : R) (l : list R) : nat :=
  match l with
  | [] => 0
  | x :: l' => if Req_dec_T x m then 0 else S (index_of m l')
  end.

Definition index_of_max (l : list R) : outcome nat :=
  match l with
  | [] => Raise ValueError
  | x :: l' => Ret (index_of (fold_left Rmax l' x) l)
  end.

(** [[f(x) for x in l]], stopping at the first exception. *)
Fixpoint map_outcome {A B} (f : A -> outcome B) (l : list A)
  : outcome (list B) :=
  match l with
  | [] => Ret []
  | x :: l' => obind (f x) (fun y =>
               obind (map_outcome f l') (fun ys => Ret (y :: ys)))
  end.

Definition select_child (node : nat) : M Agent (nat * Action E) :=
  s <- get ;;
  let children := get_children (graph s) node in
  _ <- lift (map_outcome (get_edge_info (graph s) (Some node)) children) ;;
  child_values <- lift (map_outcome
                          (fun c => match heap s !! c with
                                    | Some n => uct_value (heap s) n
                                    | None => Raise BadHandle
                                    end) children) ;;
  i <- lift (index_of_max child_values) ;;
  match children !! i with
  | None => raise IndexError
  | Some child =>
      edge <- lift (get_edge_info (graph s) (Some node) child) ;;
      ret (child, edge_action edge)
  end.

Fixpoint selection (fuel : nat) (node : nat) (env : GameState E)
  : M Agent (nat * GameState E) :=
  n <- deref node ;;
  if is_leaf n then ret (node, env)
  else match fuel with
       | O => out_of_fuel
       | S fuel' =>
           sel <- select_child node ;;
           env <- advance env (snd sel) ;;
           count_forward_model_call ;;;
           selection fuel' (fst sel) env
       end.

Definition expansion (node : nat) (env : GameState E) : M Agent (list nat) :=
  update node (set_is_leaf false) ;;;
  player <- gets player_id ;;
  let actions := generate_actions E env player in
  for_each actions []
    (fun children action =>
       expansion_env <- advance env action ;;
       count_forward_model_call ;;;
       let reward := evaluate_state env player in
       let observation := get_observation expansion_env in
       s <- get ;;
       child <- new_object (Node_init (node_counter s) observation (Some node)
                              true 0%R 0
                              (has_observation (heap s) (graph s) observation)) ;;
       let edge := mkEdge (edge_counter s) node child action reward in
       modify (fun s => with_node_counter (node_counter s + 1) s) ;;;
       modify (fun s => with_edge_counter (edge_counter s + 1) s) ;;;
       add_node child ;;;
       modify (fun s => with_graph (graph_add_edge (graph s) edge) s) ;;;
       ret (children ++ [child])).

(** The loop of [rollout]: [while True] with its three [break]s. *)
Fixpoint rollout_loop (fuel : nat) (rollout_env : GameState E)
    (cum_reward : R) : M Agent R :=
  s <- get ;;
  let actions := generate_actions E rollout_env (player_id s) in
  if Nat.eqb (length actions) 0 then ret cum_reward
  else if is_budget_over s then ret cum_reward
  else if is_game_over E rollout_env then ret cum_reward
  else
    match fuel with
    | O => out_of_fuel
    | S fuel' =>
        random_action <- random_choice actions ;;
        rollout_env <- advance rollout_env random_action ;;
        count_forward_model_call ;;;
        let reward := evaluate_state rollout_env (player_id s) in
        let cum_reward := float_add E cum_reward reward in
        if use_opponent_model s then
          let rollout_env :=
            set_current_tbs_player E rollout_env (get_opponent_id s) in
          let opponent_actions :=
            generate_actions E rollout_env (get_opponent_id s) in
          random_opponent_action <- random_choice opponent_actions ;;
          rollout_env <- advance rollout_env random_opponent_action ;;
          let rollout_env :=
            set_current_tbs_player E rollout_env (player_id s) in
          rollout_loop fuel' rollout_env cum_reward
        else rollout_loop fuel' rollout_env cum_reward
    end.

Definition rollout (fuel : nat) (env : GameState E) : M Agent R :=
  rollout_loop fuel env 0%R.

Definition simulation (fuel : nat) (node : nat) (env : GameState E)
  : M Agent R :=
  n <- deref node ;;
  s <- get ;;
  edge <- lift (get_edge_info (graph s) (parent n) node) ;;
  simulation_env <- advance env (edge_action edge) ;;
  n_rollouts <- gets num_rollouts ;;
  rewards <- for_each (range n_rollouts) []
               (fun rewards _ =>
                  average_reward <- rollout fuel simulation_env ;;
                  ret (rewards ++ [average_reward])) ;;
  lift (np_mean E rewards).

(** [while True: ...; if node.chosen: break; node = node.parent]; the
    next pass on [None] is an [AttributeError]. *)
Fixpoint back_propagation (fuel : nat) (node : option nat) (v : R)
  : M Agent unit :=
  match node with
  | None => raise AttributeError
  | Some a =>
      match fuel with
      | O => out_of_fuel
      | S fuel' =>
          update a (bump v) ;;;
          n <- deref a ;;
          if chosen n then ret tt
          else back_propagation fuel' (parent n) v
      end
  end.

Definition get_best_action (node : nat) : M Agent (Action E) :=
  sel <- select_child node ;;
  update (fst sel) (set_chosen true) ;;;
  modify (with_root_node (fst sel)) ;;;
  ret (snd sel).

Definition plan_iteration (fuel : nat) (gs : GameState E) : M Agent unit :=
  root <- gets root_node ;;
  sel <- selection fuel root gs ;;
  let node := fst sel in
  let selection_env := snd sel in
  children <- expansion node selection_env ;;
  for_each children tt
    (fun _ child =>
       v <- simulation fuel child selection_env ;;
       back_propagation fuel (Some child) v) ;;;
  modify (fun s => with_num_iterations (num_iterations s + 1) s).

Fixpoint plan_loop (fuel : nat) (gs : GameState E) : M Agent unit :=
  s <- get ;;
  if is_budget_over s then ret tt
  else match fuel with
       | O => out_of_fuel
       | S fuel' => plan_iteration fuel gs ;;; plan_loop fuel' gs
       end.

Definition plan (fuel : nat) (gs : GameState E) : M Agent (Action E) :=
  plan_loop fuel gs ;;;
  root <- gets root_node ;;
  get_best_action root.

Definition compute_action (fuel : nat) (gs : GameState E)
  : M Agent (ActionAssignment (Action E)) :=
  reset_budget ;;;
  player <- gets player_id ;;
  let possible_actions := generate_actions E gs player in
  match possible_actions with
  | [only] => ret (from_single_action only)
  | _ =>
      action <- plan fuel gs ;;
      action <- (if negb (validate E action gs) then
                   match last possible_actions with
                   | Some a => ret a
                   | None => raise IndexError
                   end
                 else ret action) ;;
      ret (from_single_action action)
  end.

(** [MCTSAgent.__init__] followed by [MCTSAgent.init]. *)
Definition init (seed : RandomState E) (budget : BudgetType) (player : Z)
    (gs : GameState E) : Agent :=
  let root := set_chosen true
                (Node_init 0 (get_observation gs) None true 0%R 0 false) in
  {| random := seed;
     graph := {| nodes := [0%nat]; edges := [] |};
     heap := [root];
     budget_type := budget;
     player_id := player;
     node_counter := 0;
     edge_counter := 0;
     num_rollouts := 8;
     use_opponent_model := true;
     root_node := 0%nat;
     num_simulations := 0;
     forward_model_calls := 0;
     max_forward_model_calls := 3000;
     num_iterations := 0;
     max_iterations := 100;
     timer := 0;
     max_time_ms := 1000;
     fm_advances := 0 |}.


(** *** Notions used to state the properties of the tree-search agent *)

Definition no_parent (n : Node) : bool :=
  match parent n with
  | None => true
  | Some _ => false
  end.

(** The live-parent chain of a node up to the node with no parent. *)
Definition chain_to_root : list Node -> nat -> list nat -> Prop :=
  Chain.walk no_parent parent.

(** The live-parent chain of a node up to the nearest node flagged
    [chosen]. *)
Definition chain_to_chosen : list Node -> nat -> list nat -> Prop :=
  Chain.walk chosen parent.

(** The budget settings replaced, everything else kept. *)
Definition with_budget (bt : BudgetType) (max_calls max_iter max_ms : Z)
    (s : Agent) : Agent :=
  {| random := random s; graph := graph s; heap := heap s;
     budget_type := bt; player_id := player_id s;
     node_counter := node_counter s; edge_counter := edge_counter s;
     num_rollouts := num_rollouts s;
     use_opponent_model := use_opponent_model s;
     root_node := root_node s; num_simulations := num_simulations s;
     forward_model_calls := forward_model_calls s;
     max_forward_model_calls := max_calls;
     num_iterations := num_iterations s; max_iterations := max_iter;
     timer := timer s; max_time_ms := max_ms;
     fm_advances := fm_advances s |}.

Definition observed_at (h : list Node) (o : string) (a : nat) : bool :=
  match h !! a with
  | Some n => String.eqb (observation n) o
  | None => false
  end.

(** The node objects of the store whose observation is [o]. *)
Definition nodes_with_observation (s : Agent) (o : string) : list nat :=
  filter (fun a => observed_at (heap s) o a) (nodes (graph s)).

(** The agent after one step of a rollout: [issued] forward-model calls
    more, one of them counted, and the random generator left at [rng]. *)
Definition stepped (rng : RandomState E) (issued : Z) (s : Agent) : Agent :=
  with_random rng
    (with_forward_model_calls (forward_model_calls s + 1)
       (with_fm_advances (fm_advances s + issued) s)).

(** [rewards] are the results of rollouts from [env] run one after the
    other, the first from the state [s], the last leaving [s']. *)
Fixpoint rollouts_yield (fuel : nat) (env : GameState E) (rewards : list R)
    (s s' : Agent) : Prop :=
  match rewards with
  | [] => s' = s
  | c :: rest =>
      exists s1,
        rollout fuel env s = Ret (c, s1)
        /\ rollouts_yield fuel env rest s1 s'
  end.

(** [k] more forward-model calls issued and counted. *)
Definition calls_added (k : Z) (s : Agent) : Agent :=
  with_forward_model_calls (forward_model_calls s + k)
    (with_fm_advances (fm_advances s + k) s).

(** The way [selection] takes from [node] in the tree of [s]: at every
    node that is not a leaf, the edge to the child that [select_child]
    answers, down to the first leaf. *)
Fixpoint descends (s : Agent) (node : nat) (steps : list (nat * Action E))
    (leaf : nat) : Prop :=
  match steps with
  | [] => leaf = node /\ exists n, heap s !! node = Some n /\ is_leaf n = true
  | step :: rest =>
      (exists n, heap s !! node = Some n /\ is_leaf n = false)
      /\ select_child node s = Ret (step, s)
      /\ descends s (fst step) rest leaf
  end.

(** A predicate on agent states that survives each elementary state
    change of the methods below [plan]: a node or the store rewritten,
    a counter of nodes or edges moved, the root moved, a forward-model
    call issued alone, or issued and counted. *)
Record stable (I : Agent -> Prop) : Prop := {
  stable_heap : forall s h', I s -> I (with_heap h' s);
  stable_graph : forall s g', I s -> I (with_graph g' s);
  stable_random : forall s v, I s -> I (with_random v s);
  stable_node_counter : forall s v, I s -> I (with_node_counter v s);
  stable_edge_counter : forall s v, I s -> I (with_edge_counter v s);
  stable_root_node : forall s v, I s -> I (with_root_node v s);
  stable_advance : forall s,
    I s -> I (with_fm_advances (fm_advances s + 1) s);
  stable_call : forall s,
    I s ->
    I (with_forward_model_calls (forward_model_calls s + 1)
         (with_fm_advances (fm_advances s + 1) s))
}.

(** [k] passes through the body of the loop of [plan], one after the
    other, lead from the first state to the second. *)
Inductive iterated (gs : GameState E) : nat -> Agent -> Agent -> Prop :=
| iterated_O s : iterated gs O s s
| iterated_S fuel k s s1 s2 :
    plan_iteration fuel gs s = Ret (tt, s1) -> iterated gs k s1 s2 ->
    iterated gs (S k) s s2.

(** The UCT score of the node object at [c], as [select_child] computes
    it for each child. *)
Definition uct_at (h : list Node) (c : nat) : outcome R :=
  match h !! c with
  | Some n => uct_value h n
  | None => Raise BadHandle
  end.

(** One completed call of a method of the agent. *)
Inductive step : Agent -> Agent -> Prop :=
| step_compute_action fuel gs r s s' :
    compute_action fuel gs s = Ret (r, s') -> step s s'
| step_plan fuel gs r s s' :
    plan fuel gs s = Ret (r, s') -> step s s'
| step_selection fuel node env r s s' :
    selection fuel node env s = Ret (r, s') -> step s s'
| step_expansion node env r s s' :
    expansion node env s = Ret (r, s') -> step s s'
| step_simulation fuel node env r s s' :
    simulation fuel node env s = Ret (r, s') -> step s s'
| step_back_propagation fuel node v r s s' :
    back_propagation fuel node v s = Ret (r, s') -> step s s'
| step_get_best_action node r s s' :
    get_best_action node s = Ret (r, s') -> step s s'.

(** The states the agent can be in: after [init], and after any further
    sequence of completed calls. *)
Inductive reachable : Agent -> Prop :=
| reachable_init seed budget player gs :
    reachable (init seed budget player gs)
| reachable_step s s' :
    reachable s -> step s s' -> reachable s'.

(** Every node object of the arena has a parent chain that meets a node
    flagged [chosen]. *)
Definition anchored (h : list Node) : Prop :=
  forall a, (a < length h)%nat -> exists l, chain_to_chosen h a l.

End Agent.

Arguments evaluate_state {E} gs player.
Arguments get_observation {E} gs.
Arguments count_forward_model_call {E} _.

End MCTS.

(** ** The rollout as the specification words it

    Section 4.4: from the child's state, repeatedly sample a legal
    action and advance the environment, one forward-model call each,
    adding up the heuristic reward of each step, until the depth is
    exhausted, the environment is terminal, or no legal action remains.
    The answer is the cumulative reward, the number of forward-model
    calls, and the state of the sampler. *)

Module Spec.
Section Rollout.

Context (E : Collaborators).

Fixpoint rollout (depth : nat) (player : Z) (env : GameState E)
    (rng : RandomState E) : R * Z * RandomState E :=
  match depth with
  | O => (0%R, 0, rng)
  | S depth' =>
      match generate_actions E env player with
      | [] => (0%R, 0, rng)
      | d :: _ as actions =>
          if is_game_over E env then (0%R, 0, rng)
          else
            let (i, rng') := draw E rng (length actions) in
            let env' := advance_gamestate E env
                          (nth (i mod length actions)%nat actions d) in
            let '(reward, calls, rng'') := rollout depth' player env' rng' in
            ((evaluate_gamestate E env' player + reward)%R, 1 + calls, rng'')
      end
  end.

End Rollout.
End Spec.

(** ** A small world to run the agents in

    States are counters, the only legal action adds one, every step is
    worth one, and the game is over from three on.  The rewards being
    whole numbers, the float sums and means of the runs below are
    exact. *)

Module Examples.

Definition unary (n : nat) : string :=
  string_of_list_ascii (repeat "a"%char n).

Definition toy : Collaborators :=
  {| GameState := nat;
     Action := nat;
     ActionType := unit;
     RandomState := unit;
     generate_actions := fun _ _ => [0%nat];
     advance_gamestate := fun gs _ => S gs;
     is_game_over := fun gs => Nat.leb 3 gs;
     print_board := unary;
     evaluate_gamestate := fun _ _ => 1%R;
     set_current_tbs_player := fun gs _ => gs;
     get_action_type := fun _ => tt;
     create_end_action := fun _ _ => 0%nat;
     validate := fun _ _ => true;
     draw := fun r _ => (0%nat, r);
     clock_ms := fun n => n;
     float_add := Rplus;
     numpy_mean := Py.mean |}.

(** A store with no paths and no best node; rerouting changes nothing. *)
Definition toy_graph : MCGS.GraphAlgorithms toy :=
  {| MCGS.select_frontier_node := fun _ g => (None, MCGS.graph_random g);
     MCGS.has_path := fun _ _ _ _ => false;
     MCGS.get_path := fun _ _ _ _ => Py.Raise Py.KeyError;
     MCGS.reroute_path := fun h _ _ _ => Py.Ret h;
     MCGS.reroute_all := fun h _ => Py.Ret h;
     MCGS.get_best_node := fun _ _ _ => None;
     MCGS.get_closest_done_node := fun _ _ _ => None |}.

(** The graph-search agent after [init] on the state [0]. *)
Definition mcgs_start : MCGS.Agent toy :=
  @MCGS.mkAgent toy
    tt                                     (* random *)
    (@MCGS.mkGraph toy [0%nat] [] [0%nat] None tt)
    [MCGS.set_chosen true (MCGS.Node_init toy "" None true None 0%R 0)]
    MAX_FM_CALLS                           (* budget_type *)
    0                                      (* player_id *)
    2 0                                    (* node_counter, edge_counter *)
    8 10                                   (* num_rollouts, rollout_depth *)
    0%nat                                  (* root_node *)
    0                                      (* num_simulations *)
    0 1000                                 (* forward_model_calls, max *)
    0 1000                                 (* num_iterations, max *)
    0 1000                                 (* timer, max_time_ms *)
    0.                                     (* fm_advances *)

(** The tree-search agent after [init] on the state [0]. *)
Definition mcts_start : MCTS.Agent toy :=
  MCTS.init toy tt MAX_FM_CALLS 0 0%nat.

(** Three graph-search nodes in a line: [0] is the root, [1] its child
    and flagged [chosen], [2] the child of [1]. *)
Definition mcgs_line : list (MCGS.Node toy) :=
  [ MCGS.set_chosen true (MCGS.Node_init toy "" None false None 0%R 0);
    MCGS.set_chosen true
      (MCGS.Node_init toy "a" (Some 0%nat) false (Some 0%nat) 0%R 0);
    MCGS.Node_init toy "aa" (Some 1%nat) true (Some 0%nat) 0%R 0 ].

(** The same line in the tree-search agent. *)
Definition mcts_line : list MCTS.Node :=
  [ MCTS.set_chosen true (MCTS.Node_init 0 "" None false 0%R 0 false);
    MCTS.set_chosen true
      (MCTS.Node_init 1 "a" (Some 0%nat) false 0%R 0 false);
    MCTS.Node_init 2 "aa" (Some 1%nat) true 0%R 0 false ].

(** The graph-search agent with a budget of one forward-model call. *)
Definition mcgs_tight : MCGS.Agent toy :=
  MCGS.with_budget MAX_FM_CALLS 1 1000 1000 mcgs_start.

(** The state a run leaves, [d] when it does not return. *)
Definition final_state {A S} (o : Py.outcome (A * S)) (d : S) : S :=
  match o with
  | Py.Ret (_, s) => s
  | _ => d
  end.

(** [mcgs_tight] after [set_root_node], and after the whole of [plan]. *)
Definition mcgs_tight_rooted : MCGS.Agent toy :=
  final_state (MCGS.set_root_node toy_graph 0%nat mcgs_tight) mcgs_tight.

Definition mcgs_tight_end : MCGS.Agent toy :=
  final_state (MCGS.plan toy_graph 5 0%nat mcgs_tight) mcgs_tight.

(** [mcgs_start] after [plan] under the budget of a thousand calls that
    [init] sets. *)
Definition mcgs_end : MCGS.Agent toy :=
  final_state (MCGS.plan toy_graph 20 0%nat mcgs_start) mcgs_start.

(** The two agents holding the lines of nodes. *)
Definition mcgs_on_line : MCGS.Agent toy := MCGS.with_heap mcgs_line mcgs_start.

Definition mcts_on_line : MCTS.Agent toy := MCTS.with_heap mcts_line mcts_start.

(** A visited tree-search node under a parent visited once. *)
Definition mcts_pair : list MCTS.Node :=
  [ MCTS.mkNode 0 "" None 0%R 1 false false true false;
    MCTS.mkNode 1 "a" (Some 0%nat) 0%R 1 true false false false ].

Definition mcts_pair_child : MCTS.Node :=
  MCTS.mkNode 1 "a" (Some 0%nat) 0%R 1 true false false false.

(** The unvisited leaves of the two lines. *)
Definition mcgs_leaf : MCGS.Node toy :=
  MCGS.Node_init toy "aa" (Some 1%nat) true (Some 0%nat) 0%R 0.

Definition mcts_leaf : MCTS.Node :=
  MCTS.Node_init 2 "aa" (Some 1%nat) true 0%R 0 false.

(** The graph-search agent after the root has been expanded: node 1 is
    the child, constructed with the heuristic value 1 of its state. *)
Definition mcgs_expanded : MCGS.Agent toy :=
  final_state (@MCGS.expansion toy 0%nat 0%nat mcgs_start) mcgs_start.

Definition mcgs_child : MCGS.Node toy :=
  MCGS.Node_init toy "a" (Some 0%nat) true (Some 0%nat) 1%R 0.


(** The value a run answers. *)
Definition result {A S} (o : Py.outcome (A * S)) : option A :=
  match o with
  | Py.Ret (a, _) => Some a
  | _ => None
  end.

(** The tree-search agent with a budget of one forward-model call, and
    with none. *)
Definition mcts_tight : MCTS.Agent toy :=
  MCTS.with_budget MAX_FM_CALLS 1 100 1000 mcts_start.

Definition mcts_spent : MCTS.Agent toy :=
  MCTS.with_budget MAX_FM_CALLS 0 100 1000 mcts_start.

(** *** A second world

    Two actions while the game lasts and none once it is over: action 0
    adds one, action 1 passes and leaves the board as it is.  Only
    action 0 validates. *)
Definition duel : Collaborators :=
  {| GameState := nat;
     Action := nat;
     ActionType := unit;
     RandomState := unit;
     generate_actions := fun gs _ =>
       if Nat.leb 3 gs then [] else [0%nat; 1%nat];
     advance_gamestate := fun gs a => if Nat.eqb a 0 then S gs else gs;
     is_game_over := fun gs => Nat.leb 3 gs;
     print_board := unary;
     evaluate_gamestate := fun _ _ => 1%R;
     set_current_tbs_player := fun gs _ => gs;
     get_action_type := fun _ => tt;
     create_end_action := fun _ _ => 0%nat;
     validate := fun a _ => Nat.eqb a 0;
     draw := fun r _ => (0%nat, r);
     clock_ms := fun n => n;
     float_add := Rplus;
     numpy_mean := Py.mean |}.

(** The two agents after [init] on the state [0] of this world. *)
Definition mcgs_duel_start : MCGS.Agent duel :=
  @MCGS.mkAgent duel
    tt
    (@MCGS.mkGraph duel [0%nat] [] [0%nat] None tt)
    [MCGS.set_chosen true (MCGS.Node_init duel "" None true None 0%R 0)]
    MAX_FM_CALLS 0 2 0 8 10 0%nat 0 0 1000 0 1000 0 1000 0.

Definition mcts_duel_start : MCTS.Agent duel :=
  MCTS.init duel tt MAX_FM_CALLS 0 0%nat.

(** Three graph-search nodes in a star: [1] and [2] are children of the
    root [0]. *)
Definition mcgs_star : list (MCGS.Node toy) :=
  [ MCGS.Node_init toy "" None false None 0%R 0;
    MCGS.Node_init toy "a" (Some 0%nat) true (Some 0%nat) 0%R 0;
    MCGS.Node_init toy "b" (Some 0%nat) true (Some 1%nat) 0%R 0 ].

(** A tree-search root visited twice with two children visited once
    each and valued alike; the edge to the first child carries an
    action that is not legal, the edge to the second the action 0.  The
    budget of forward-model calls is zero. *)
Definition mcts_twins : MCTS.Agent duel :=
  MCTS.with_budget MAX_FM_CALLS 0 100 1000
    (MCTS.with_graph
       (@MCTS.mkGraph duel [0; 1; 2]%nat
          [ @MCTS.mkEdge duel 0 0%nat 1%nat 7%nat 1%R;
            @MCTS.mkEdge duel 1 0%nat 2%nat 0%nat 1%R ])
       (MCTS.with_heap
          [ MCTS.mkNode 0 "" None 0%R 2 false false true false;
            MCTS.mkNode 0 "a" (Some 0%nat) 0%R 1 true false false false;
            MCTS.mkNode 1 "a" (Some 0%nat) 0%R 1 true false false false ]
          mcts_duel_start)).

(** The graph-search agent under a budget of iterations. *)
Definition mcgs_counting : MCGS.Agent toy :=
  MCGS.with_budget MAX_ITERATIONS 1000 1000 1000 mcgs_start.

(** The tree-search agent under a budget of one iteration, and what the
    planning loop makes of it. *)
Definition mcts_once : MCTS.Agent toy :=
  MCTS.with_budget MAX_ITERATIONS 3000 1 1000 mcts_start.

Definition mcts_once_end : MCTS.Agent toy :=
  final_state (@MCTS.plan_loop toy 5 0%nat mcts_once) mcts_once.

(** [mcts_tight] after a rollout from the state [1]. *)
Definition mcts_tight_rolled : MCTS.Agent toy :=
  final_state (@MCTS.rollout toy 5 1%nat mcts_tight) mcts_tight.

(** [mcgs_duel_start] after the root has been expanded. *)
Definition mcgs_duel_expanded : MCGS.Agent duel :=
  final_state (@MCGS.expansion duel 0%nat 0%nat mcgs_duel_start)
    mcgs_duel_start.

(** The tree-search agent after the root has been expanded, the value
    a simulation of the child then answers, and the state it leaves. *)
Definition mcts_expanded : MCTS.Agent toy :=
  final_state (@MCTS.expansion toy 0%nat 0%nat mcts_start) mcts_start.

Definition mcts_simulated_value : R :=
  match @MCTS.simulation toy 5 1%nat 0%nat mcts_expanded with
  | Py.Ret (v, _) => v
  | _ => 0%R
  end.

Definition mcts_simulated : MCTS.Agent toy :=
  final_state (@MCTS.simulation toy 5 1%nat 0%nat mcts_expanded)
    mcts_expanded.

(** The tree-search agent with a budget type it does not know. *)
Definition mcts_unbounded : MCTS.Agent toy :=
  MCTS.with_budget OTHER_BUDGET 3000 100 1000 mcts_start.

(** A store whose best node is always the newest node object; it has no
    paths and rerouting changes nothing. *)
Definition newest_first : MCGS.GraphAlgorithms toy :=
  {| MCGS.select_frontier_node := fun _ g => (None, MCGS.graph_random g);
     MCGS.has_path := fun _ _ _ _ => false;
     MCGS.get_path := fun _ _ _ _ => Py.Raise Py.KeyError;
     MCGS.reroute_path := fun h _ _ _ => Py.Ret h;
     MCGS.reroute_all := fun h _ => Py.Ret h;
     MCGS.get_best_node := fun h _ _ => Some (length h - 1)%nat;
     MCGS.get_closest_done_node := fun _ _ _ => None |}.

(** [mcgs_expanded] after [get_optimal_action] on its root, with this
    store: the child is the best node and becomes the root. *)
Definition mcgs_rerooted : MCGS.Agent toy :=
  final_state (MCGS.get_optimal_action newest_first 5 0%nat mcgs_expanded)
    mcgs_expanded.

(** A store that finds a path from every node to itself, with no action
    on it. *)
Definition self_paths : MCGS.GraphAlgorithms toy :=
  {| MCGS.select_frontier_node := fun _ g => (None, MCGS.graph_random g);
     MCGS.has_path := fun _ _ a b => Nat.eqb a b;
     MCGS.get_path := fun _ _ _ _ => Py.Ret ([EmptyString], []);
     MCGS.reroute_path := fun h _ _ _ => Py.Ret h;
     MCGS.reroute_all := fun h _ => Py.Ret h;
     MCGS.get_best_node := fun _ _ _ => None;
     MCGS.get_closest_done_node := fun _ _ _ => None |}.

(** [mcgs_expanded] told to plan from the state [1]. *)
Definition mcgs_moved : MCGS.Agent toy :=
  final_state (MCGS.set_root_node toy_graph 1%nat mcgs_expanded)
    mcgs_expanded.

End Examples.

(** * Properties *)

(** ** The monad *)

Module PyFacts.
Import Py.

Lemma bind_Ret {S A B} (m : M S A) (k : A -> M S B) s b s' :
  bind m k s = Ret (b, s') ->
  exists a s1, m s = Ret (a, s1) /\ k a s1 = Ret (b, s').
Proof.
  unfold bind. destruct (m s) as [[a s1]| |]; try discriminate.
  intros H. exists a, s1. split; [reflexivity | exact H].
Qed.

Lemma bind_eq {S A B} (m : M S A) (k : A -> M S B) s a s1 :
  m s = Ret (a, s1) -> bind m k s = k a s1.
Proof. unfold bind. intros ->. reflexivity. Qed.

Lemma lift_Ret {S A} (o : outcome A) (s : S) a s' :
  lift o s = Ret (a, s') -> o = Ret a /\ s' = s.
Proof.
  unfold lift. destruct o; try discriminate.
  intros H. injection H as -> ->. split; reflexivity.
Qed.

Lemma preserves_ret {S A} (I : S -> Prop) (a : A) : preserves I (ret a).
Proof. intros s b s' HI H. injection H as _ <-. exact HI. Qed.

Lemma preserves_raise {S A} (I : S -> Prop) e : preserves I (@raise S A e).
Proof. intros s b s' _ H. discriminate H. Qed.

Lemma preserves_out_of_fuel {S A} (I : S -> Prop) :
  preserves I (@out_of_fuel S A).
Proof. intros s b s' _ H. discriminate H. Qed.

Lemma preserves_get {S} (I : S -> Prop) : preserves I get.
Proof. intros s b s' HI H. injection H as _ <-. exact HI. Qed.

Lemma preserves_gets {S A} (I : S -> Prop) (f : S -> A) :
  preserves I (gets f).
Proof. intros s b s' HI H. injection H as _ <-. exact HI. Qed.

Lemma preserves_lift {S A} (I : S -> Prop) (o : outcome A) :
  preserves I (lift o).
Proof. intros s b s' HI H. apply lift_Ret in H as [_ ->]. exact HI. Qed.

Lemma preserves_modify {S} (I : S -> Prop) (f : S -> S) :
  (forall s, I s -> I (f s)) -> preserves I (modify f).
Proof. intros Hf s b s' HI H. injection H as _ <-. auto. Qed.

Lemma preserves_bind {S A B} (I : S -> Prop) (m : M S A) (k : A -> M S B) :
  preserves I m -> (forall a, preserves I (k a)) -> preserves I (bind m k).
Proof.
  intros Hm Hk s b s' HI H.
  apply bind_Ret in H as (a & s1 & H1 & H2).
  eapply Hk; [ eapply Hm; eassumption | eassumption ].
Qed.

Lemma preserves_for_each {S A B} (I : S -> Prop) (l : list A)
    (body : B -> A -> M S B) :
  (forall acc x, preserves I (body acc x)) ->
  forall acc, preserves I (for_each l acc body).
Proof.
  intros Hbody. induction l as [|x l IH]; intros acc; simpl.
  - apply preserves_ret.
  - apply preserves_bind; [apply Hbody | intros acc'; apply IH].
Qed.

(** A run of [for_each] that returns, taken apart at its first pass. *)
Lemma for_each_cons_Ret {S A B} (x : A) (l : list A) (acc : B)
    (body : B -> A -> M S B) s b s' :
  for_each (x :: l) acc body s = Ret (b, s') ->
  exists acc1 s1, body acc x s = Ret (acc1, s1)
                  /\ for_each l acc1 body s1 = Ret (b, s').
Proof. simpl. apply bind_Ret. Qed.

Lemma map_state_Ret {S A} (f : S -> S) (o : outcome (A * S)) a s :
  o = Ret (a, s) -> map_state f o = Ret (a, f s).
Proof. intros ->. reflexivity. Qed.

Lemma commutes_ret {S A} (f : S -> S) (a : A) : commutes f (ret a).
Proof. intros s. reflexivity. Qed.

Lemma commutes_raise {S A} (f : S -> S) e : commutes f (@raise S A e).
Proof. intros s. reflexivity. Qed.

Lemma commutes_out_of_fuel {S A} (f : S -> S) :
  commutes f (@out_of_fuel S A).
Proof. intros s. reflexivity. Qed.

Lemma commutes_lift {S A} (f : S -> S) (o : outcome A) : commutes f (lift o).
Proof. intros s. destruct o; reflexivity. Qed.

Lemma commutes_gets {S A} (f : S -> S) (g : S -> A) :
  (forall s, g (f s) = g s) -> commutes f (gets g).
Proof. intros Hg s. unfold gets. rewrite Hg. reflexivity. Qed.

Lemma commutes_modify {S} (f g : S -> S) :
  (forall s, g (f s) = f (g s)) -> commutes f (modify g).
Proof. intros Hg s. unfold modify. rewrite Hg. reflexivity. Qed.

Lemma commutes_bind {S A B} (f : S -> S) (m : M S A) (k : A -> M S B) :
  commutes f m -> (forall a, commutes f (k a)) -> commutes f (bind m k).
Proof.
  intros Hm Hk s. unfold bind. rewrite Hm.
  destruct (m s) as [[a s1]| |]; simpl; [apply Hk | reflexivity | reflexivity].
Qed.

(** A continuation that reads the state it is handed only through what
    [f] keeps. *)
Lemma commutes_get_bind {S B} (f : S -> S) (k : S -> M S B) :
  (forall s0, k (f s0) = k s0) -> (forall s0, commutes f (k s0)) ->
  commutes f (bind get k).
Proof.
  intros Hk Hc s. unfold bind, get. rewrite Hk. apply Hc.
Qed.

Lemma commutes_for_each {S A B} (f : S -> S) (l : list A)
    (body : B -> A -> M S B) :
  (forall acc x, commutes f (body acc x)) ->
  forall acc, commutes f (for_each l acc body).
Proof.
  intros Hbody. induction l as [|x l IH]; intros acc; simpl.
  - apply commutes_ret.
  - apply commutes_bind; [apply Hbody | intros acc'; apply IH].
Qed.

Lemma math_log_pos x : (0 < x)%R -> math_log x = Ret (ln x).
Proof.
  intros H. unfold math_log. destruct (Rle_dec x 0); [lra | reflexivity].
Qed.

Lemma math_sqrt_nonneg x : (0 <= x)%R -> math_sqrt x = Ret (sqrt x).
Proof.
  intros H. unfold math_sqrt. destruct (Rlt_dec x 0); [lra | reflexivity].
Qed.

Lemma truediv_nonzero x n : n <> 0 -> truediv x n = Ret (x / IZR n)%R.
Proof.
  intros H. unfold truediv.
  destruct (Z.eqb_spec n 0); [contradiction | reflexivity].
Qed.

Lemma ln_IZR_nonneg z : 1 <= z -> (0 <= ln (IZR z))%R.
Proof.
  intros H. apply IZR_le in H.
  destruct (Req_dec (IZR z) 1) as [-> | Hne].
  - rewrite ln_1. lra.
  - left. rewrite <- ln_1. apply ln_increasing; lra.
Qed.

Lemma div_IZR_nonneg x z : (0 <= x)%R -> 0 < z -> (0 <= x / IZR z)%R.
Proof.
  intros Hx Hz. apply IZR_lt in Hz.
  apply Rmult_le_pos; [exact Hx|]. left. apply Rinv_0_lt_compat. exact Hz.
Qed.

Lemma insert_alter {A} (f : A -> A) (l : list A) a x :
  l !! a = Some x -> <[a := f x]> l = alter f a l.
Proof.
  intros H. apply list_eq. intros i.
  destruct (decide (a = i)) as [<- | Hne].
  - rewrite list_lookup_alter_eq, H.
    apply list_lookup_insert_eq. eapply lookup_lt_Some. exact H.
  - rewrite list_lookup_insert_ne, list_lookup_alter_ne by exact Hne.
    reflexivity.
Qed.

(** *** Float accumulators *)


Lemma accumulate_snoc (E : Collaborators) x rs r :
  accumulate E x (rs ++ [r]) = float_add E (accumulate E x rs) r.
Proof. unfold accumulate. rewrite fold_left_app. reflexivity. Qed.


End PyFacts.

Create HintDb pres discriminated.

#[export] Hint Resolve PyFacts.preserves_ret PyFacts.preserves_raise
  PyFacts.preserves_out_of_fuel PyFacts.preserves_get PyFacts.preserves_gets
  PyFacts.preserves_lift : pres.

(** Takes a goal [preserves I m] apart along the structure of [m]. *)
Ltac pres_step :=
  match goal with
  | |- Py.preserves _ (Py.bind _ _) => apply PyFacts.preserves_bind
  | |- Py.preserves _ (Py.for_each _ _ _) => apply PyFacts.preserves_for_each
  | |- Py.preserves _ (if ?b then _ else _) => destruct b
  | |- Py.preserves _ (match ?x with _ => _ end) => destruct x
  | |- Py.preserves _ _ => solve [eauto with pres]
  | |- forall _, _ => intro
  end.

Ltac pres := repeat pres_step.

(** ** Walks along back-pointers *)

Module ChainFacts.
Section Walk.

Context {N : Type} (stops : N -> bool) (next : N -> option nat).

Local Abbreviation walk := (Chain.walk stops next).

Lemma walk_head h a l : walk h a l -> exists l', l = a :: l'.
Proof. destruct 1; eauto. Qed.

(** A walk is determined by its starting point. *)
Lemma walk_fun h a l1 : walk h a l1 -> forall l2, walk h a l2 -> l1 = l2.
Proof.
  induction 1 as [a n Ha Hs | a n p l Ha Hs Hn Hw IH]; intros l2 H2.
  - inversion H2; subst; [reflexivity | congruence].
  - inversion H2 as [a' n' Ha' Hs' | a' n' p' l' Ha' Hs' Hn' Hw']; subst.
    + congruence.
    + assert (n' = n) by congruence. subst n'.
      assert (p' = p) by congruence. subst p'.
      f_equal. apply IH. exact Hw'.
Qed.

(** From each object a walk meets, the rest of the walk is a walk. *)
Lemma walk_suffix h a l :
  walk h a l ->
  forall b, b ∈ l -> exists l', walk h b l' /\ (length l' <= length l)%nat.
Proof.
  induction 1 as [a n Ha Hs | a n p l Ha Hs Hn Hw IH]; intros b Hb.
  - apply list_elem_of_singleton in Hb. subst b.
    exists [a]. split; [econstructor; eassumption | reflexivity].
  - apply elem_of_cons in Hb as [-> | Hb].
    + exists (a :: l). split; [econstructor; eassumption | reflexivity].
    + destruct (IH b Hb) as (l' & Hl' & Hlen).
      exists l'. split; [exact Hl' | simpl; lia].
Qed.

(** A walk that ends meets no object twice. *)
Lemma walk_NoDup h a l : walk h a l -> NoDup l.
Proof.
  induction 1 as [a n Ha Hs | a n p l Ha Hs Hn Hw IH].
  - apply NoDup_singleton.
  - apply NoDup_cons. split; [| exact IH].
    intros Hin.
    destruct (walk_suffix Hw Hin) as (l' & Hl' & Hlen).
    assert (l' = a :: l) as ->.
    { eapply walk_fun; [exact Hl' | econstructor; eassumption]. }
    simpl in Hlen. lia.
Qed.

Lemma walk_lookup h a l :
  walk h a l -> forall b, b ∈ l -> is_Some (h !! b).
Proof.
  induction 1 as [a n Ha Hs | a n p l Ha Hs Hn Hw IH]; intros b Hb.
  - apply list_elem_of_singleton in Hb. subst b. eauto.
  - apply elem_of_cons in Hb as [-> | Hb]; eauto.
Qed.

(** A walk only depends on what [stops] and [next] see. *)
Lemma walk_ext h h' :
  (forall b n, h !! b = Some n ->
     exists n', h' !! b = Some n' /\ stops n' = stops n /\ next n' = next n) ->
  forall a l, walk h a l -> walk h' a l.
Proof.
  intros Hext a l. induction 1 as [a n Ha Hs | a n p l Ha Hs Hn Hw IH].
  - destruct (Hext _ _ Ha) as (n' & Ha' & Hs' & _).
    eapply Chain.walk_stop; [exact Ha' | congruence].
  - destruct (Hext _ _ Ha) as (n' & Ha' & Hs' & Hn').
    eapply Chain.walk_step; [exact Ha' | congruence | rewrite Hn'; exact Hn | exact IH].
Qed.

Lemma walk_from_sound fuel h :
  forall a l, Chain.walk_from stops next fuel h a = Some l ->
              walk h a l /\ (length l <= fuel)%nat.
Proof.
  induction fuel as [|fuel IH]; intros a l; simpl; [discriminate|].
  destruct (h !! a) as [n|] eqn:Ha; [|discriminate].
  destruct (stops n) eqn:Hs.
  - intros [= <-]. split; [econstructor; eassumption | simpl; lia].
  - destruct (next n) as [p|] eqn:Hn; [|discriminate].
    destruct (Chain.walk_from stops next fuel h p) as [l'|] eqn:Hl';
      [|discriminate].
    intros [= <-]. destruct (IH _ _ Hl') as [Hw Hlen].
    split; [econstructor; eassumption | simpl; lia].
Qed.

Lemma walk_from_complete h a l :
  walk h a l ->
  forall fuel, (length l <= fuel)%nat ->
               Chain.walk_from stops next fuel h a = Some l.
Proof.
  induction 1 as [a n Ha Hs | a n p l Ha Hs Hn Hw IH]; intros fuel Hlen;
    (destruct fuel as [|fuel]; simpl in Hlen; [lia|]); simpl;
    rewrite Ha, Hs; [reflexivity|].
  rewrite Hn, IH by lia. reflexivity.
Qed.

End Walk.

Lemma alter_all_length {N} (f : N -> N) l :
  forall h, length (Chain.alter_all f l h) = length h.
Proof.
  induction l as [|a l IH]; intros h; simpl; [reflexivity|].
  unfold Chain.alter_all in *. simpl. rewrite IH. apply length_alter.
Qed.

Lemma alter_all_cons {N} (f : N -> N) a l h :
  Chain.alter_all f (a :: l) h = Chain.alter_all f l (alter f a h).
Proof. reflexivity. Qed.

(** Off the positions [l] nothing changes. *)
Lemma alter_all_lookup_notin {N} (f : N -> N) l :
  forall h b, b ∉ l -> Chain.alter_all f l h !! b = h !! b.
Proof.
  induction l as [|a l IH]; intros h b Hb; [reflexivity|].
  rewrite alter_all_cons.
  apply not_elem_of_cons in Hb as [Hne Hb].
  rewrite IH by exact Hb. apply list_lookup_alter_ne. congruence.
Qed.

(** At a position of [l], [f] has been applied once. *)
Lemma alter_all_lookup_in {N} (f : N -> N) l :
  NoDup l ->
  forall h b, b ∈ l -> Chain.alter_all f l h !! b = f <$> h !! b.
Proof.
  induction 1 as [|a l Ha Hnd IH]; intros h b Hb.
  - apply elem_of_nil in Hb. contradiction.
  - rewrite alter_all_cons.
    apply elem_of_cons in Hb as [-> | Hb].
    + rewrite alter_all_lookup_notin by exact Ha.
      apply list_lookup_alter_eq.
    + rewrite IH by exact Hb.
      rewrite list_lookup_alter_ne; [reflexivity|].
      intros ->. contradiction.
Qed.

Lemma alter_all_lookup {N} (f : N -> N) l h b :
  NoDup l ->
  Chain.alter_all f l h !! b
  = if bool_decide (b ∈ l) then f <$> h !! b else h !! b.
Proof.
  intros Hnd. case_bool_decide as Hb.
  - apply alter_all_lookup_in; assumption.
  - apply alter_all_lookup_notin; assumption.
Qed.

End ChainFacts.

(** ** The graph-search agent *)

Module MCGSFacts.
Import Py PyFacts MCGS.

Section Facts.

Context (E : Collaborators) (G : GraphAlgorithms E).

(** *** Node statistics *)

Lemma value_unvisited (n : Node E) : visits n = 0 -> value n = Ret 0%R.
Proof. intros H. unfold value. rewrite H. reflexivity. Qed.

Lemma value_visited (n : Node E) :
  visits n <> 0 -> value n = Ret (total_value n / IZR (visits n))%R.
Proof.
  intros H. unfold value, truediv.
  destruct (Z.eqb_spec (visits n) 0); [contradiction | reflexivity].
Qed.

Lemma value_total (n : Node E) :
  value n = Ret (if visits n =? 0 then 0 else total_value n / IZR (visits n))%R.
Proof.
  unfold value, truediv. destruct (visits n =? 0); reflexivity.
Qed.

(** The UCT score of the graph-search node. *)
Lemma uct_value_formula (h : list (Node E)) (n pn : Node E) (p : nat) :
  parent n = Some p -> h !! p = Some pn ->
  0 < visits n -> 0 <= visits pn ->
  uct_value h n =
  Ret (total_value n / IZR (visits n)
       + 1 / sqrt 2 * sqrt (ln (IZR (visits pn + 1)) / IZR (visits n)))%R.
Proof.
  intros Hp Hpn Hv Hpv. unfold uct_value. rewrite Hp, Hpn.
  rewrite math_log_pos by (apply IZR_lt; lia). simpl.
  rewrite truediv_nonzero by lia. simpl.
  rewrite math_sqrt_nonneg
    by (apply div_IZR_nonneg; [apply ln_IZR_nonneg; lia | exact Hv]).
  simpl. rewrite value_visited by lia. reflexivity.
Qed.

Lemma uct_value_no_zero_division (h : list (Node E)) (n : Node E) :
  visits n <> 0 -> uct_value h n <> Raise ZeroDivisionError.
Proof.
  intros Hv. unfold uct_value.
  destruct (parent n) as [p|]; [|discriminate].
  destruct (h !! p) as [pn|]; [|discriminate].
  unfold math_log. destruct (Rle_dec _ _); [discriminate|]. simpl.
  rewrite truediv_nonzero by exact Hv. simpl.
  unfold math_sqrt. destruct (Rlt_dec _ _); [discriminate|]. simpl.
  rewrite value_visited by exact Hv. discriminate.
Qed.

(** *** Back-propagation *)

Lemma deref_eq (s : Agent E) a n : heap s !! a = Some n -> deref a s = Ret (n, s).
Proof. unfold deref. intros ->. reflexivity. Qed.

Lemma update_eq (s : Agent E) a n f :
  heap s !! a = Some n ->
  update a f s = Ret (tt, with_heap (alter f a (heap s)) s).
Proof.
  intros H. unfold update. erewrite bind_eq by (eapply deref_eq; exact H).
  unfold modify. rewrite (insert_alter f _ _ H). reflexivity.
Qed.

Lemma with_heap_with_heap (s : Agent E) h1 h2 :
  with_heap h2 (with_heap h1 s) = with_heap h2 s.
Proof. reflexivity. Qed.

Lemma chain_to_root_bump (h : list (Node E)) r c a l :
  chain_to_root h a l -> chain_to_root (alter (bump r) c h) a l.
Proof.
  apply ChainFacts.walk_ext. intros b n Hb.
  destruct (decide (c = b)) as [<- | Hne].
  - exists (bump r n). rewrite list_lookup_alter_eq, Hb. auto.
  - exists n. rewrite list_lookup_alter_ne by exact Hne. auto.
Qed.

Lemma back_propagation_None fuel r (s : Agent E) :
  back_propagation fuel None r s = Ret (tt, s).
Proof. destruct fuel; reflexivity. Qed.

(** [back_propagation] updates the nodes of the chain up to the node
    with no parent, each of them once, and nothing else. *)
Lemma back_propagation_along_chain fuel :
  forall (s : Agent E) a l r,
    chain_to_root (heap s) a l -> (length l <= fuel)%nat ->
    back_propagation fuel (Some a) r s
    = Ret (tt, with_heap (Chain.alter_all (bump r) l (heap s)) s).
Proof.
  induction fuel as [|fuel IH]; intros s a l r Hw Hlen.
  - destruct (ChainFacts.walk_head Hw) as [l' ->]. simpl in Hlen. lia.
  - inversion Hw as [a' n Ha Hs | a' n p l' Ha Hs Hn Hw']; subst.
    + simpl. erewrite bind_eq by (eapply update_eq; exact Ha).
      erewrite bind_eq
        by (eapply deref_eq; simpl; rewrite list_lookup_alter_eq, Ha; reflexivity).
      unfold no_parent in Hs. simpl.
      destruct (parent n); [discriminate|]. apply back_propagation_None.
    + simpl. erewrite bind_eq by (eapply update_eq; exact Ha).
      erewrite bind_eq
        by (eapply deref_eq; simpl; rewrite list_lookup_alter_eq, Ha; reflexivity).
      simpl. rewrite Hn.
      rewrite (IH _ p l' r); [reflexivity | | simpl in Hlen; lia].
      simpl. apply chain_to_root_bump. exact Hw'.
Qed.

End Facts.

(** *** Invariants that survive every method

    One pass over the methods serves every predicate that is [stable]. *)

Section Stable.

Context (E : Collaborators) (G : GraphAlgorithms E).
Context (I : Agent E -> Prop) (heap_ok : list (Node E) -> list (Node E) -> Prop).
Context (HI : stable I heap_ok) (HG : reroutes_within G heap_ok).

Lemma pres_deref a : preserves I (@deref E a).
Proof.
  intros s n s' Hs H. unfold deref in H.
  destruct (heap s !! a); [|discriminate]. injection H as _ <-. exact Hs.
Qed.

Lemma pres_update a (f : Node E -> Node E) :
  (forall n, id (f n) = id n) -> preserves I (update a f).
Proof.
  intros Hf s u s' Hs H. unfold update in H.
  apply bind_Ret in H as (n & s1 & H1 & H2).
  unfold deref in H1. destruct (heap s !! a) as [n'|] eqn:Ha; [|discriminate].
  injection H1 as <- <-. injection H2 as _ <-.
  apply (stable_heap HI); [exact Hs|].
  apply (heap_ok_update HI); [exact Ha | apply Hf].
Qed.

Lemma pres_new_object (n : Node E) :
  (forall s, I s -> I (with_heap (heap s ++ [n]) s)) ->
  preserves I (new_object n).
Proof. intros Hn s a s' Hs H. injection H as _ <-. auto. Qed.

(** A forward-model call together with its count. *)
Lemma pres_call {A} (env : GameState E) a (k : GameState E -> M (Agent E) A) :
  (forall env', preserves I (k env')) ->
  preserves I (bind (advance env a)
                 (fun env' => bind (@count_forward_model_call E)
                                (fun _ => k env'))).
Proof.
  intros Hk s b s' Hs H.
  apply bind_Ret in H as (env' & s1 & H1 & H).
  apply bind_Ret in H as (u & s2 & H2 & H).
  injection H1 as <- <-. injection H2 as _ <-.
  eapply Hk; [|exact H].
  apply (stable_call HI). exact Hs.
Qed.

Lemma pres_random_choice {A} (l : list A) : preserves I (random_choice l).
Proof.
  unfold random_choice. destruct l as [|d l]; [apply preserves_raise|].
  apply preserves_bind; [apply preserves_get|]. intros s.
  destruct (draw E (random s) (length (d :: l))) as [i r].
  apply preserves_bind; [|intros; apply preserves_ret].
  apply preserves_modify. intros s0. apply (stable_random HI).
Qed.

Lemma pres_random_choice_many {A} (l : list A) n :
  preserves I (random_choice_many l n).
Proof.
  unfold random_choice_many.
  destruct (n <? 0); [apply preserves_raise|].
  destruct (n =? 0); [apply preserves_ret|].
  apply preserves_for_each. intros acc x.
  apply preserves_bind; [apply pres_random_choice|].
  intros; apply preserves_ret.
Qed.

Ltac stable_solve :=
  first [ apply (stable_graph HI); [assumption | reflexivity]
        | apply (stable_random HI); assumption
        | apply (stable_node_counter HI); assumption
        | apply (stable_edge_counter HI); assumption
        | apply (stable_root_node HI); assumption
        | apply (stable_num_simulations HI); assumption ].

Ltac agent_pres_step :=
  match goal with
  | |- preserves _ (let _ := _ in _) => cbv zeta
  | |- preserves _ (bind (advance _ _) _) => apply pres_call
  | |- preserves _ (update _ _) => apply pres_update; intros; reflexivity
  | |- preserves _ (deref _) => apply pres_deref
  | |- preserves _ (random_choice_many _ _) => apply pres_random_choice_many
  | |- preserves _ (modify _) => apply preserves_modify; intros; stable_solve
  | _ => pres_step
  end.

Ltac agent_pres := repeat agent_pres_step.

Lemma pres_rollout_step r action : preserves I (@rollout_step E r action).
Proof. unfold rollout_step. agent_pres. Qed.

Lemma pres_rollout a env l : preserves I (@rollout E a env l).
Proof.
  unfold rollout. agent_pres. apply pres_rollout_step.
Qed.

Lemma pres_sequential_simulation a env :
  preserves I (@sequential_simulation E a env).
Proof.
  unfold sequential_simulation. agent_pres.
  unfold simulation_round. agent_pres. apply pres_rollout.
Qed.

Lemma pres_back_propagation fuel :
  forall node r, preserves I (@back_propagation E fuel node r).
Proof.
  induction fuel as [|fuel IH]; intros [a|] r; simpl; agent_pres.
Qed.

Lemma pres_add_edge p c a r : preserves I (@add_edge E p c a r).
Proof. unfold add_edge. agent_pres. Qed.

(** A node is constructed and registered only for a fingerprint the
    store does not know. *)
Lemma pres_register o p a r (s : Agent E) c s' :
  I s -> has_node (heap s) (graph s) (Fingerprint o) = false ->
  bind (new_object (Node_init E o (Some p) true (Some a) r 0))
       (fun child => bind (add_node child) (fun _ => ret child)) s
  = Ret (c, s') ->
  I s'.
Proof.
  intros Hs Hnew H.
  apply bind_Ret in H as (child & s1 & H1 & H).
  injection H1 as <- <-.
  apply bind_Ret in H as (u & s2 & H2 & H).
  injection H as _ <-.
  unfold add_node in H2. apply bind_Ret in H2 as (s0 & s3 & H0 & H2).
  injection H0 as <- <-. simpl in H2.
  apply bind_Ret in H2 as (u1 & s4 & H3 & H2). injection H3 as _ <-.
  apply bind_Ret in H2 as (u2 & s5 & H4 & H2). injection H4 as _ <-.
  injection H2 as _ <-.
  apply (stable_node_counter HI).
  apply (stable_graph HI); [|reflexivity].
  apply (stable_register HI _ (Node_init E o (Some p) true (Some a) r 0));
    [exact Hs | exact Hnew].
Qed.

Lemma pres_add_new_observation o p a r :
  preserves I (@add_new_observation E o p a r).
Proof.
  intros s res s' Hs H. unfold add_new_observation in H.
  apply bind_Ret in H as (s0 & s1 & H0 & H). injection H0 as <- <-.
  apply bind_Ret in H as (child & s1 & H1 & H).
  apply bind_Ret in H as (e & s2 & H2 & H). injection H as _ <-.
  eapply pres_add_edge; [|exact H2].
  destruct (has_node (heap s) (graph s) (Fingerprint o)) eqn:Hnew; simpl in H1.
  - apply lift_Ret in H1 as [_ ->]. exact Hs.
  - eapply pres_register; eassumption.
Qed.

Lemma pres_expansion node env : preserves I (@expansion E node env).
Proof.
  unfold expansion. agent_pres. apply pres_add_new_observation.
Qed.

Lemma pres_follow_path dest obs actions :
  forall idx env, preserves I (@follow_path E dest obs idx actions env).
Proof.
  induction actions as [|action rest IH]; intros idx env; simpl.
  - apply preserves_ret.
  - agent_pres; try apply pres_add_new_observation; try apply pres_add_edge.
Qed.

Lemma pres_go_to_node_loop fuel :
  forall dest node env, preserves I (go_to_node_loop G fuel dest node env).
Proof.
  induction fuel as [|fuel IH]; intros dest node env; simpl;
    agent_pres; try apply pres_follow_path.
Qed.

Lemma pres_go_to_node fuel dest env : preserves I (go_to_node G fuel dest env).
Proof. unfold go_to_node. agent_pres. apply pres_go_to_node_loop. Qed.

Lemma pres_selection fuel env : preserves I (selection G fuel env).
Proof. unfold selection. agent_pres. apply pres_go_to_node. Qed.

(** The heap handed back by a rerouting is one the invariant tolerates. *)
Lemma pres_reroute_path a b (k : M (Agent E) unit) :
  preserves I k ->
  preserves I (bind get (fun s =>
    bind (lift (reroute_path G (heap s) (graph s) a b)) (fun h =>
    bind (modify (with_heap h)) (fun _ => k)))).
Proof.
  intros Hk s u s' Hs H.
  apply bind_Ret in H as (s0 & s1 & H0 & H). injection H0 as <- <-.
  apply bind_Ret in H as (h & s1 & H1 & H). apply lift_Ret in H1 as [H1 ->].
  apply bind_Ret in H as (u1 & s2 & H2 & H). injection H2 as _ <-.
  eapply Hk; [|exact H].
  apply (stable_heap HI); [exact Hs|]. eapply (proj1 HG). exact H1.
Qed.

Lemma pres_reroute_all {A} (k : M (Agent E) A) :
  preserves I k ->
  preserves I (bind get (fun s =>
    bind (lift (reroute_all G (heap s) (graph s))) (fun h =>
    bind (modify (with_heap h)) (fun _ => k)))).
Proof.
  intros Hk s u s' Hs H.
  apply bind_Ret in H as (s0 & s1 & H0 & H). injection H0 as <- <-.
  apply bind_Ret in H as (h & s1 & H1 & H). apply lift_Ret in H1 as [H1 ->].
  apply bind_Ret in H as (u1 & s2 & H2 & H). injection H2 as _ <-.
  eapply Hk; [|exact H].
  apply (stable_heap HI); [exact Hs|]. eapply (proj2 HG). exact H1.
Qed.

Lemma pres_if_reroute_path (c : Agent E -> bool) a b (k : M (Agent E) unit) :
  preserves I k ->
  preserves I (bind get (fun s =>
    if c s then
      bind (lift (reroute_path G (heap s) (graph s) a b)) (fun h =>
      bind (modify (with_heap h)) (fun _ => k))
    else ret tt)).
Proof.
  intros Hk s u s' Hs H.
  destruct (c s) eqn:Hc.
  - eapply (pres_reroute_path a b Hk); [exact Hs|].
    unfold bind, get in *. rewrite Hc in H. exact H.
  - unfold bind, get in H. rewrite Hc in H. injection H as _ <-. exact Hs.
Qed.

Lemma pres_set_root_node gs : preserves I (set_root_node G gs).
Proof.
  unfold set_root_node.
  repeat first [ apply pres_if_reroute_path | agent_pres_step ].
Qed.

Lemma pres_climb_to_root_child fuel :
  forall b, preserves I (@climb_to_root_child E fuel b).
Proof.
  induction fuel as [|fuel IH]; intros b; simpl; agent_pres.
Qed.

Lemma pres_select_best_step fuel node closest :
  preserves I (select_best_step G fuel node closest).
Proof.
  unfold select_best_step. agent_pres;
    apply pres_climb_to_root_child.
Qed.

Lemma pres_plan_iteration fuel gs : preserves I (plan_iteration G fuel gs).
Proof.
  unfold plan_iteration. agent_pres;
    first [ apply pres_selection | apply pres_expansion
          | apply pres_sequential_simulation | apply pres_back_propagation ].
Qed.

Lemma pres_plan_loop fuel : forall gs, preserves I (plan_loop G fuel gs).
Proof.
  induction fuel as [|fuel IH]; intros gs; simpl; agent_pres;
    apply pres_plan_iteration.
Qed.

Lemma pres_plan fuel gs : preserves I (plan G fuel gs).
Proof.
  unfold plan.
  apply preserves_bind; [apply pres_set_root_node | intros _].
  apply pres_reroute_all.
  agent_pres; first [ apply pres_plan_loop | apply pres_select_best_step ].
Qed.

End Stable.

(** *** The three invariants *)

Section Invariants.

Context (E : Collaborators) (G : GraphAlgorithms E).

Lemma stable_calls_counted bt B c :
  stable (@calls_counted E bt B c) (fun _ _ => True).
Proof.
  split; unfold calls_counted; simpl; intros; try tauto.
  destruct H as (? & ? & ?). repeat split; try assumption. lia.
Qed.

Lemma reroutes_within_True : reroutes_within G (fun _ _ => True).
Proof. split; intros; exact Logic.I. Qed.

Lemma pres_deref_any (I : Agent E -> Prop) a : preserves I (@deref E a).
Proof.
  intros s n s' Hs H. unfold deref in H.
  destruct (heap s !! a); [|discriminate]. injection H as _ <-. exact Hs.
Qed.

Lemma ids_insert (h : list (Node E)) a n (f : Node E -> Node E) :
  h !! a = Some n -> id (f n) = id n -> @id E <$> <[a := f n]> h = @id E <$> h.
Proof.
  intros Ha Hf. rewrite list_fmap_insert, Hf.
  apply list_insert_id. rewrite list_lookup_fmap, Ha. reflexivity.
Qed.

(** With every node object registered, [has_node] says whether some
    node object carries the fingerprint. *)
Lemma has_node_false (h : list (Node E)) (g : Graph E) o :
  nodes g = seq 0 (length h) ->
  has_node h g (Fingerprint o) = false -> o ∉ @id E <$> h.
Proof.
  intros Hn Hf Hin. simpl in Hf.
  apply list_elem_of_fmap in Hin as (n & -> & Hin).
  apply list_elem_of_lookup in Hin as (a & Ha).
  assert (existsb (has_fingerprint h (id n)) (nodes g) = true) as Ht;
    [|congruence].
  apply existsb_exists. exists a. split.
  - rewrite Hn. apply in_seq. apply lookup_lt_Some in Ha. lia.
  - unfold has_fingerprint. rewrite Ha. apply String.eqb_refl.
Qed.

Lemma stable_Dedup :
  stable (@Dedup E) (fun h h' => @id E <$> h' = @id E <$> h).
Proof.
  split; unfold Dedup; simpl; try tauto.
  - intros s h' [Hn Hd] Hids. split.
    + rewrite Hn. f_equal.
      rewrite <- (length_fmap (@id E) h'), Hids. symmetry. apply length_fmap.
    + rewrite Hids. exact Hd.
  - intros s g' [Hn Hd] Hg. split; [congruence | exact Hd].
  - intros s n [Hn Hd] Hnew. split.
    + rewrite length_app. simpl. rewrite Nat.add_1_r, seq_S, Hn. reflexivity.
    + rewrite fmap_app. simpl. apply NoDup_app. split; [exact Hd|].
      split; [|apply NoDup_singleton].
      intros o Ho Ho'. apply list_elem_of_singleton in Ho'. subst o.
      eapply has_node_false; eassumption.
  - intros h a n f Ha Hf. apply ids_insert; assumption.
Qed.

Lemma stable_nodes_persist ids0 :
  stable (@nodes_persist E ids0) (fun h h' => @id E <$> h' = @id E <$> h).
Proof.
  split; unfold nodes_persist; simpl; try tauto.
  - intros s h' Hp Hids. rewrite Hids. exact Hp.
  - intros s n Hp _. rewrite fmap_app.
    etransitivity; [exact Hp | apply prefix_app_r; reflexivity].
  - intros h a n f Ha Hf. apply ids_insert; assumption.
Qed.

Lemma init_Dedup seed graph_seed budget player gs (s : Agent E) :
  init E seed graph_seed budget player gs = Ret (tt, s) -> Dedup s.
Proof.
  unfold init, add_node, bind, get, modify. simpl.
  intros H. injection H as <-. split; simpl; [reflexivity|].
  apply NoDup_singleton.
Qed.

Lemma pres_compute_action (I : Agent E -> Prop) heap_ok fuel gs :
  stable I heap_ok -> reroutes_within G heap_ok ->
  (forall s, I s -> I (budget_reset s)) ->
  preserves I (compute_action G fuel gs).
Proof.
  intros HI HG Hreset. unfold compute_action, reset_budget.
  apply preserves_bind; [apply preserves_modify; exact Hreset | intros _].
  apply preserves_bind; [apply preserves_gets | intros player].
  apply preserves_bind; [eapply pres_plan; eassumption | intros [a|]];
    apply preserves_ret.
Qed.

(** Each completed call keeps an invariant that is stable and indifferent
    to the budget counters. *)
Lemma step_preserves (I : Agent E -> Prop) heap_ok :
  stable I heap_ok -> reroutes_within G heap_ok ->
  (forall s, I s -> I (budget_reset s)) ->
  forall s s', step G s s' -> I s -> I s'.
Proof.
  intros HI HG Hreset s s' Hstep Hs.
  destruct Hstep as
    [fuel gs r s s' H | fuel gs r s s' H | gs r s s' H | fuel env r s s' H
    | fuel node env r s s' H | node env r s s' H | a env r s s' H
    | fuel node v r s s' H | o p a v r s s' H | fuel node closest r s s' H].
  - eapply pres_compute_action; eassumption.
  - eapply pres_plan; eassumption.
  - eapply pres_set_root_node; eassumption.
  - eapply pres_selection; eassumption.
  - eapply pres_go_to_node; eassumption.
  - eapply pres_expansion; eassumption.
  - eapply pres_sequential_simulation; eassumption.
  - eapply pres_back_propagation; eassumption.
  - eapply pres_add_new_observation; eassumption.
  - eapply pres_select_best_step; eassumption.
Qed.

Lemma reachable_Dedup (s : Agent E) : keeps_ids G -> reachable G s -> Dedup s.
Proof.
  intros HG. induction 1 as [seed gseed b p gs s H | s s' Hr IH Hstep].
  - eapply init_Dedup. exact H.
  - eapply (step_preserves stable_Dedup); try eassumption.
    intros s0 Hs0. exact Hs0.
Qed.

(** Node objects are never destroyed: the fingerprints held before a
    completed method call are held, at the same handles, after it. *)
Lemma step_nodes_persist (s s' : Agent E) :
  keeps_ids G -> step G s s' ->
  (@id E <$> heap s) `prefix_of` (@id E <$> heap s').
Proof.
  intros HG Hstep.
  refine (step_preserves (stable_nodes_persist (@id E <$> heap s)) _ _
            Hstep _).
  - exact HG.
  - intros s0 Hs0. exact Hs0.
  - unfold nodes_persist. reflexivity.
Qed.

(** *** One node object per fingerprint *)

Lemma filter_only {A} (P : A -> Prop) `{!forall x, Decision (P x)} c :
  forall l, NoDup l -> c ∈ l -> P c ->
            (forall x, x ∈ l -> P x -> x = c) -> filter P l = [c].
Proof.
  induction 1 as [|x l Hx Hnd IH]; intros Hc HP Huniq.
  - apply elem_of_nil in Hc. contradiction.
  - apply elem_of_cons in Hc as [<- | Hc].
    + rewrite filter_cons_True by exact HP. f_equal.
      destruct (filter P l) as [|y l'] eqn:Hf; [reflexivity|].
      assert (y ∈ filter P l) as Hy by (rewrite Hf; left).
      apply list_elem_of_filter in Hy as [HPy Hy].
      assert (y = c) as -> by (apply Huniq; [right|]; assumption).
      contradiction.
    + assert (~ P x) as Hnx.
      { intros HPx. assert (x = c) as -> by (apply Huniq; [left|exact HPx]).
        contradiction. }
      rewrite filter_cons_False by exact Hnx.
      apply IH; [exact Hc | exact HP |].
      intros y Hy. apply Huniq. right. exact Hy.
Qed.

Lemma has_fingerprint_true (h : list (Node E)) o a :
  has_fingerprint h o a = true <-> (@id E <$> h) !! a = Some o.
Proof.
  unfold has_fingerprint. rewrite list_lookup_fmap.
  destruct (h !! a) as [n|]; simpl.
  - rewrite String.eqb_eq. split; congruence.
  - split; discriminate.
Qed.

Lemma Dedup_only (s : Agent E) c o :
  Dedup s -> (@id E <$> heap s) !! c = Some o ->
  nodes_with_fingerprint s o = [c].
Proof.
  intros [Hn Hd] Hc. unfold nodes_with_fingerprint. rewrite Hn.
  apply filter_only.
  - apply NoDup_seq.
  - apply elem_of_seq. apply lookup_lt_Some in Hc.
    rewrite length_fmap in Hc. lia.
  - apply Is_true_true, has_fingerprint_true. exact Hc.
  - intros x _ Hx. apply Is_true_true, has_fingerprint_true in Hx.
    eapply NoDup_lookup; eassumption.
Qed.

Lemma Dedup_at_most_one (s : Agent E) o :
  Dedup s -> (length (nodes_with_fingerprint s o) <= 1)%nat.
Proof.
  intros Hs.
  destruct (nodes_with_fingerprint s o) as [|x l] eqn:Hf; [simpl; lia|].
  assert (x ∈ nodes_with_fingerprint s o) as Hx by (rewrite Hf; left).
  unfold nodes_with_fingerprint in Hx.
  apply list_elem_of_filter in Hx as [Hx _].
  apply Is_true_true, has_fingerprint_true in Hx.
  rewrite <- Hf, (Dedup_only _ Hs Hx). reflexivity.
Qed.

Lemma update_keeps_ids ids0 a (f : Node E -> Node E) :
  (forall n, id (f n) = id n) ->
  preserves (fun s => @id E <$> heap s = ids0) (update a f).
Proof.
  intros Hf s u s' Hs H. unfold update in H.
  apply bind_Ret in H as (n & s1 & H1 & H2).
  unfold deref in H1. destruct (heap s !! a) as [n'|] eqn:Ha; [|discriminate].
  injection H1 as <- <-. injection H2 as _ <-. simpl.
  rewrite ids_insert; auto.
Qed.

Lemma add_edge_keeps_ids ids0 p c a r :
  preserves (fun s => @id E <$> heap s = ids0) (@add_edge E p c a r).
Proof.
  unfold add_edge.
  repeat first
    [ apply update_keeps_ids; intros; reflexivity
    | apply preserves_modify; intros; simpl; assumption
    | apply pres_deref_any
    | pres_step ].
Qed.

(** [add_new_observation] constructs a node object exactly when the
    store does not know the fingerprint; either way the node it answers
    carries the fingerprint. *)
Lemma add_new_observation_creates_or_fetches o p a r (s : Agent E) c v s' :
  add_new_observation o p a r s = Ret ((c, v), s') ->
  (@id E <$> heap s') !! c = Some o
  /\ if has_node (heap s) (graph s) (Fingerprint o)
     then get_node_info (heap s) (graph s) o = Ret c
          /\ length (heap s') = length (heap s)
     else c = length (heap s)
          /\ length (heap s') = S (length (heap s)).
Proof.
  intros H. unfold add_new_observation in H.
  apply bind_Ret in H as (s0 & s1 & H0 & H). injection H0 as <- <-.
  apply bind_Ret in H as (child & s1 & H1 & H).
  apply bind_Ret in H as (e & s2 & H2 & H). injection H as <- _ <-.
  assert (@id E <$> heap s2 = @id E <$> heap s1) as Hids.
  { eapply (@add_edge_keeps_ids (@id E <$> heap s1));
      [reflexivity | exact H2]. }
  assert (length (heap s2) = length (heap s1)) as Hlen.
  { rewrite <- (length_fmap (@id E) (heap s2)), Hids. apply length_fmap. }
  destruct (has_node (heap s) (graph s) (Fingerprint o)) eqn:Hnew; simpl in H1.
  - apply lift_Ret in H1 as [H1 ->]. split; [|split; assumption].
    rewrite Hids. apply has_fingerprint_true.
    unfold get_node_info in H1.
    destruct (find (has_fingerprint (heap s) o) (nodes (graph s))) as [x|] eqn:Hf;
      [|discriminate].
    injection H1 as <-. apply find_some in Hf as [_ Hf]. exact Hf.
  - apply bind_Ret in H1 as (c0 & s3 & H3 & H1). injection H3 as <- <-.
    apply bind_Ret in H1 as (u & s4 & H4 & H1). injection H1 as <- <-.
    assert (heap s4 = heap s ++ [Node_init E o (Some p) true (Some a) r 0])
      as Hh.
    { unfold add_node, bind, get, modify in H4. simpl in H4.
      injection H4; intros; subst; reflexivity. }
    rewrite Hids, Hlen, Hh, fmap_app, length_app. simpl.
    split; [|split; [reflexivity | lia]].
    rewrite lookup_app_r by (rewrite length_fmap; lia).
    rewrite length_fmap, Nat.sub_diag. reflexivity.
Qed.

End Invariants.

(** C1.  In every state the graph-search agent can reach, the store holds
    at most one node object per fingerprint; [add_new_observation]
    constructs a node only when [has_node] answers false and fetches the
    existing node otherwise, and after it exactly one node object
    carries the observed fingerprint. *)
Theorem dedup_invariant (E : Collaborators) (G : GraphAlgorithms E)
    (s : Agent E) (o : string) :
  keeps_ids G -> reachable G s ->
  (length (nodes_with_fingerprint s o) <= 1)%nat
  /\ forall p a r c v s',
       add_new_observation o p a r s = Ret ((c, v), s') ->
       nodes_with_fingerprint s' o = [c]
       /\ if has_node (heap s) (graph s) (Fingerprint o)
          then get_node_info (heap s) (graph s) o = Ret c
               /\ length (heap s') = length (heap s)
          else c = length (heap s)
               /\ length (heap s') = S (length (heap s)).
Proof.
  intros HG Hr. split.
  - apply Dedup_at_most_one. eapply reachable_Dedup; eassumption.
  - intros p a r c v s' H.
    destruct (add_new_observation_creates_or_fetches _ _ _ _ _ H) as [Hc Hcase].
    split; [|exact Hcase].
    apply Dedup_only; [|exact Hc].
    eapply reachable_Dedup; [exact HG|].
    eapply reachable_step; [exact Hr|].
    eapply step_add_new_observation. exact H.
Qed.

(** *** The planning loop and the budget *)

Section Budget.

Context (E : Collaborators) (G : GraphAlgorithms E).

Lemma climb_to_root_child_pure (s0 : Agent E) fuel :
  forall b, preserves (fun s => s = s0) (@climb_to_root_child E fuel b).
Proof.
  induction fuel as [|fuel IH]; intros b; simpl;
    repeat first [ apply pres_deref_any | pres_step ].
Qed.

(** [select_best_step] reads the state and leaves it as it is. *)
Lemma select_best_step_pure fuel node closest (s : Agent E) r s' :
  select_best_step G fuel node closest s = Ret (r, s') -> s' = s.
Proof.
  intros H.
  assert (preserves (fun x => x = s) (select_best_step G fuel node closest))
    as Hp.
  { unfold select_best_step.
    repeat first [ apply climb_to_root_child_pure | pres_step ]. }
  eapply Hp; [reflexivity | exact H].
Qed.

Lemma select_best_step_none fuel node closest (s : Agent E) :
  get_best_node G (heap s) (graph s) true = None ->
  (closest = true -> get_closest_done_node G (heap s) (graph s) true = None) ->
  select_best_step G fuel node closest s = Ret ((root_node s, None), s).
Proof.
  intros Hbest Hclosest. unfold select_best_step, bind, get.
  destruct closest.
  - rewrite Hclosest by reflexivity. rewrite Hbest. reflexivity.
  - rewrite Hbest. reflexivity.
Qed.

Lemma pres_update_any (I : Agent E -> Prop) a (f : Node E -> Node E) :
  (forall s h, I s -> I (with_heap h s)) -> preserves I (update a f).
Proof.
  intros HI s u s' Hs H. unfold update in H.
  apply bind_Ret in H as (n & s1 & H1 & H2).
  unfold deref in H1. destruct (heap s !! a); [|discriminate].
  injection H1 as <- <-. injection H2 as _ <-. apply HI. exact Hs.
Qed.


Lemma plan_loop_counted fuel gs bt B c (s : Agent E) u s' :
  calls_counted bt B c s -> plan_loop G fuel gs s = Ret (u, s') ->
  calls_counted bt B c s'.
Proof.
  intros Hs H.
  exact (pres_plan_loop G (stable_calls_counted E bt B c) fuel gs s Hs H).
Qed.



End Budget.


(** C8.  When the search for the best reachable node finds none after
    the loop of [plan], [select_best_step] answers the root with no
    action, [plan] answers no action, and [compute_action] answers the
    end-turn assignment; none of them raises. *)
Theorem no_reachable_node_fallback (E : Collaborators)
    (G : GraphAlgorithms E) (fuel : nat) (gs : GameState E)
    (s s1 s2 : Agent E) (h : list (Node E)) :
  set_root_node G gs (budget_reset s) = Ret (tt, s1) ->
  reroute_all G (heap s1) (graph s1) = Ret h ->
  plan_loop G fuel gs (with_heap h s1) = Ret (tt, s2) ->
  get_best_node G (heap s2) (graph s2) true = None ->
  (forall closest,
     (closest = true ->
      get_closest_done_node G (heap s2) (graph s2) true = None) ->
     select_best_step G fuel (root_node s2) closest s2
     = Ret ((root_node s2, None), s2))
  /\ plan G fuel gs (budget_reset s) = Ret (None, s2)
  /\ compute_action G fuel gs s
     = Ret (create_end_action_assignment (player_id s), s2).
Proof.
  intros H1 H2 H3 Hbest.
  assert (plan G fuel gs (budget_reset s) = Ret (None, s2)) as Hplan.
  { unfold plan. erewrite bind_eq by exact H1.
    unfold bind at 1, get. unfold bind at 1. rewrite H2. simpl.
    unfold bind at 1, modify. unfold bind at 1. rewrite H3.
    unfold bind at 1, gets.
    erewrite bind_eq
      by (apply select_best_step_none; [exact Hbest | discriminate]).
    reflexivity. }
  split; [|split].
  - intros closest Hc. apply select_best_step_none; assumption.
  - exact Hplan.
  - unfold compute_action, reset_budget.
    unfold bind at 1, modify. unfold bind at 1, gets.
    erewrite bind_eq by exact Hplan. reflexivity.
Qed.
(** *** Statistics after several back-propagations *)

Section Statistics.

Context (E : Collaborators).



End Statistics.


(** *** Rollouts and simulation *)

Section Rollouts.

Context (E : Collaborators).

Lemma agent_eta (s : Agent E) :
  s = mkAgent (random s) (graph s) (heap s) (budget_type s) (player_id s)
        (node_counter s) (edge_counter s) (num_rollouts s) (rollout_depth s)
        (root_node s) (num_simulations s) (forward_model_calls s)
        (max_forward_model_calls s) (num_iterations s) (max_iterations s)
        (timer s) (max_time_ms s) (fm_advances s).
Proof. destruct s; reflexivity. Qed.

Lemma calls_added_0 (s : Agent E) : calls_added 0 s = s.
Proof.
  destruct s. unfold calls_added, with_forward_model_calls,
    with_fm_advances. simpl. rewrite !Z.add_0_r. reflexivity.
Qed.

Lemma calls_added_add j k (s : Agent E) :
  calls_added k (calls_added j s) = calls_added (j + k) s.
Proof.
  unfold calls_added, with_forward_model_calls, with_fm_advances. simpl.
  rewrite !Z.add_assoc. reflexivity.
Qed.

Lemma with_random_calls_added rng rng' j k (s : Agent E) :
  with_random rng' (calls_added k (with_random rng (calls_added j s)))
  = with_random rng' (calls_added (j + k) s).
Proof.
  destruct s.
  cbv [calls_added with_forward_model_calls with_fm_advances with_random
       random graph heap budget_type player_id node_counter edge_counter
       num_rollouts rollout_depth root_node num_simulations
       forward_model_calls max_forward_model_calls num_iterations
       max_iterations timer max_time_ms fm_advances].
  rewrite !Z.add_assoc. reflexivity.
Qed.

Lemma with_random_same (s : Agent E) : with_random (random s) s = s.
Proof. destruct s; reflexivity. Qed.

Lemma rollout_step_eq (r : RolloutState E) action (s : Agent E) :
  let env' := advance_gamestate E (rollout_env r)
                (create_end_action E (player_id s) (get_action_type E action)) in
  let reward := evaluate_state env' (player_id s) in
  rollout_step r action s
  = Ret (@mkRolloutState E env' (float_add E (cum_reward r) reward)
           (path r ++ [(previous_observation r, get_observation env',
                        action, reward)])
           (get_observation env'),
         calls_added 1 s).
Proof. reflexivity. Qed.

(** The loop of [rollout] takes every step of the action list, whatever
    the environment says. *)
Lemma rollout_steps action_list :
  forall (r : RolloutState E) (s : Agent E),
  exists r',
    for_each action_list r rollout_step s
    = Ret (r', calls_added (Z.of_nat (length action_list)) s)
    /\ cum_reward r'
       = accumulate E (cum_reward r)
           (map (fun e => evaluate_state e (player_id s))
                (rollout_states (player_id s) (rollout_env r) action_list))
    /\ length (path r') = (length (path r) + length action_list)%nat.
Proof.
  induction action_list as [|action rest IH]; intros r s.
  - exists r. simpl. rewrite calls_added_0.
    repeat split; lia.
  - cbn [for_each]. erewrite bind_eq by apply rollout_step_eq.
    match goal with
    | |- context [for_each rest ?r1 _ ?s1] =>
        destruct (IH r1 s1) as (r' & Hrun & Hcum & Hlen)
    end.
    exists r'. rewrite Hrun, calls_added_add. split; [|split].
    + replace (Z.of_nat (length (action :: rest)))
        with (1 + Z.of_nat (length rest)) by (simpl length; lia).
      reflexivity.
    + rewrite Hcum. reflexivity.
    + rewrite Hlen. simpl. rewrite length_app. simpl. lia.
Qed.

Lemma rollout_eq a (env : GameState E) action_list (s : Agent E) :
  exists p,
    rollout a env action_list s
    = Ret ((rollout_reward (player_id s) (advance_gamestate E env a)
              action_list, p),
           calls_added (1 + Z.of_nat (length action_list)) s)
    /\ length p = length action_list.
Proof.
  unfold rollout.
  destruct (rollout_steps action_list
              (@mkRolloutState E (advance_gamestate E env a) 0%R []
                 (get_observation (advance_gamestate E env a)))
              (calls_added 1 s)) as (r' & Hrun & Hcum & Hlen).
  exists (path r').
  unfold bind at 1, advance. unfold bind at 1, count_forward_model_call, modify.
  change (with_forward_model_calls _ _) with (calls_added 1 s).
  erewrite bind_eq by exact Hrun.
  unfold ret. rewrite calls_added_add. simpl in Hcum, Hlen.
  rewrite Hcum. split; [reflexivity | exact Hlen].
Qed.

Lemma random_choice_eq {A} (d : A) (a : list A) (s : Agent E) :
  exists x rng,
    random_choice (d :: a) s = Ret (x, with_random rng s) /\ x ∈ d :: a.
Proof.
  unfold random_choice, bind, get.
  destruct (draw E (random s) (length (d :: a))) as [i rng].
  exists (nth (i mod length (d :: a))%nat (d :: a) d), rng.
  split; [reflexivity|].
  apply list_elem_of_In, nth_In, Nat.mod_upper_bound. discriminate.
Qed.

Lemma random_choices {A} (d : A) (a : list A) (idxs : list nat) :
  forall (acc : list A) (s : Agent E),
  exists l rng,
    for_each idxs acc
      (fun acc _ => bind (random_choice (d :: a)) (fun x => ret (acc ++ [x]))) s
    = Ret (acc ++ l, with_random rng s)
    /\ length l = length idxs /\ Forall (fun x => x ∈ d :: a) l.
Proof.
  induction idxs as [|i idxs IH]; intros acc s.
  - exists [], (random s). simpl. rewrite app_nil_r, with_random_same.
    repeat split. constructor.
  - destruct (random_choice_eq d a s) as (x & rng & Hx & Hin).
    cbn [for_each]. unfold bind at 1. unfold bind at 1. rewrite Hx.
    unfold ret at 1.
    destruct (IH (acc ++ [x]) (with_random rng s)) as (l & rng' & Hl & Hlen & Hall).
    exists (x :: l), rng'. rewrite Hl, <- app_assoc. simpl.
    repeat split; [lia | constructor; assumption].
Qed.

Lemma random_choice_many_eq {A} (a : list A) (size : Z) (s : Agent E) :
  a <> [] -> 0 <= size ->
  exists l rng,
    random_choice_many a size s = Ret (l, with_random rng s)
    /\ length l = Z.to_nat size /\ Forall (fun x => x ∈ a) l.
Proof.
  intros Ha Hsize. unfold random_choice_many.
  destruct (Z.ltb_spec size 0) as [|_]; [lia|].
  destruct (Z.eqb_spec size 0) as [-> | Hnz].
  - exists [], (random s). rewrite with_random_same.
    repeat split. constructor.
  - destruct a as [|d a]; [contradiction|].
    destruct (random_choices d a (range size) [] s) as (l & rng & Hl & Hlen & Hall).
    exists l, rng. split; [exact Hl|]. split; [|exact Hall].
    rewrite Hlen. unfold range. apply length_seq.
Qed.

Lemma simulation_round_eq a (env : GameState E) acc i (s : Agent E) :
  generate_actions E env (player_id s) <> [] -> 0 <= rollout_depth s ->
  exists c p rng,
    simulation_round a env acc i s
    = Ret ((fst acc ++ [c], snd acc ++ [p]),
           with_random rng (calls_added (1 + rollout_depth s) s))
    /\ simulated a env s c /\ length p = Z.to_nat (rollout_depth s).
Proof.
  intros Ha Hd.
  destruct (random_choice_many_eq s Ha Hd) as (l & rng & Hl & Hlen & Hall).
  destruct (rollout_eq a env l (with_random rng s)) as (p & Hp & Hplen).
  exists (rollout_reward (player_id s) (advance_gamestate E env a) l), p, rng.
  split; [|split].
  - unfold simulation_round.
    erewrite bind_eq by reflexivity. cbv zeta.
    erewrite bind_eq by reflexivity.
    erewrite bind_eq by exact Hl.
    erewrite bind_eq by exact Hp.
    unfold ret. cbn [fst snd]. rewrite Hlen, Z2Nat.id by exact Hd.
    reflexivity.
  - exists l. repeat split; assumption.
  - rewrite Hplen. exact Hlen.
Qed.

Lemma simulation_rounds a (env : GameState E) (idxs : list nat) :
  forall (acc : list R * list (list (string * string * Action E * R)))
         (s : Agent E),
    generate_actions E env (player_id s) <> [] -> 0 <= rollout_depth s ->
    exists rewards paths rng,
      for_each idxs acc (simulation_round a env) s
      = Ret ((fst acc ++ rewards, snd acc ++ paths),
             with_random rng
               (calls_added (Z.of_nat (length idxs) * (1 + rollout_depth s)) s))
      /\ length rewards = length idxs
      /\ length paths = length idxs
      /\ Forall (simulated a env s) rewards
      /\ Forall (fun p => length p = Z.to_nat (rollout_depth s)) paths.
Proof.
  induction idxs as [|i idxs IH]; intros acc s Ha Hd.
  - exists [], [], (random s). simpl.
    rewrite !app_nil_r, calls_added_0, with_random_same.
    destruct acc. repeat split; constructor.
  - destruct (simulation_round_eq a env acc i s Ha Hd)
      as (c & p & rng & Hround & Hc & Hp).
    cbn [for_each]. erewrite bind_eq by exact Hround.
    destruct (IH (fst acc ++ [c], snd acc ++ [p])
                (with_random rng (calls_added (1 + rollout_depth s) s)))
      as (rs & ps & rng' & Hrun & Hrl & Hpl & Hrs & Hps);
      [exact Ha | exact Hd |].
    exists (c :: rs), (p :: ps), rng'.
    rewrite Hrun. cbn [fst snd]. rewrite <- !app_assoc. simpl.
    split; [|repeat split].
    + change (rollout_depth (with_random rng (calls_added _ s)))
        with (rollout_depth s).
      rewrite with_random_calls_added.
      replace (Z.of_nat (S (length idxs)) * (1 + rollout_depth s))
        with ((1 + rollout_depth s)
              + Z.of_nat (length idxs) * (1 + rollout_depth s)) by lia.
      reflexivity.
    + lia.
    + lia.
    + constructor; assumption.
    + constructor; assumption.
Qed.

(** [sequential_simulation] answers numpy's mean of [num_rollouts] such
    cumulative rewards. *)
Lemma sequential_simulation_eq a (env : GameState E) (s : Agent E) :
  generate_actions E env (player_id s) <> [] -> 0 <= rollout_depth s ->
  0 < num_rollouts s ->
  exists rewards paths rng,
    sequential_simulation a env s
    = Ret ((numpy_mean E rewards, paths),
           with_random rng
             (calls_added
                (Z.of_nat (Z.to_nat (num_rollouts s)) * (1 + rollout_depth s))
                s))
    /\ length rewards = Z.to_nat (num_rollouts s)
    /\ length paths = Z.to_nat (num_rollouts s)
    /\ Forall (simulated a env s) rewards
    /\ Forall (fun p => length p = Z.to_nat (rollout_depth s)) paths.
Proof.
  intros Ha Hd Hn. unfold sequential_simulation.
  unfold bind at 1, gets.
  destruct (simulation_rounds a env (range (num_rollouts s)) ([], []) s Ha Hd)
    as (rs & ps & rng & Hrun & Hrl & Hpl & Hrs & Hps).
  exists rs, ps, rng.
  change (for_each (range (num_rollouts s)) ([], []) _)
    with (for_each (range (num_rollouts s)) ([], []) (simulation_round a env)).
  erewrite bind_eq by exact Hrun. cbn [fst snd app].
  unfold range in *. rewrite length_seq in *.
  destruct rs as [|c rs]; [simpl in Hrl; lia|].
  repeat split; assumption.
Qed.

(** With no rollout to average, numpy's mean of the empty list is not a
    number. *)
Lemma sequential_simulation_nan a (env : GameState E) (s : Agent E) :
  num_rollouts s <= 0 ->
  sequential_simulation a env s = Raise NotANumber.
Proof.
  intros Hn. unfold sequential_simulation, bind at 1, gets, range.
  replace (Z.to_nat (num_rollouts s)) with 0%nat by lia. reflexivity.
Qed.

End Rollouts.

(** *** The budget settings are not looked at inside an iteration *)

Section BudgetBlind.

Context (E : Collaborators) (G : GraphAlgorithms E).
Context (bt : BudgetType) (B mi mt : Z).

Local Abbreviation f := (@with_budget E bt B mi mt).

Ltac blind_step :=
  match goal with
  | |- commutes _ (let _ := _ in _) => cbv zeta
  | |- commutes _ (ret _) => apply commutes_ret
  | |- commutes _ (raise _) => apply commutes_raise
  | |- commutes _ out_of_fuel => apply commutes_out_of_fuel
  | |- commutes _ (lift _) => apply commutes_lift
  | |- commutes _ (gets _) => apply commutes_gets; intros; reflexivity
  | |- commutes _ (modify _) => apply commutes_modify; intros; reflexivity
  | |- commutes _ (bind get _) =>
      apply commutes_get_bind; [intros; reflexivity | intros]
  | |- commutes _ (bind _ _) => apply commutes_bind
  | |- commutes _ (for_each _ _ _) => apply commutes_for_each
  | |- commutes _ (if ?b then _ else _) => destruct b
  | |- commutes _ (match ?x with _ => _ end) => destruct x
  | |- forall _, _ => intro
  end.

Lemma blind_deref a : commutes f (@deref E a).
Proof.
  intros s. unfold deref. change (heap (f s)) with (heap s).
  destruct (heap s !! a); reflexivity.
Qed.

Lemma blind_update a (g : Node E -> Node E) : commutes f (update a g).
Proof.
  unfold update. apply commutes_bind; [apply blind_deref | intros n].
  apply commutes_modify. intros s. reflexivity.
Qed.

Lemma blind_new_object (n : Node E) : commutes f (new_object n).
Proof. intros s. reflexivity. Qed.

Lemma blind_advance (env : GameState E) a : commutes f (advance env a).
Proof. intros s. reflexivity. Qed.

Lemma blind_count : commutes f (@count_forward_model_call E).
Proof. intros s. reflexivity. Qed.

Ltac blind :=
  repeat first
    [ apply blind_deref | apply blind_update | apply blind_new_object
    | apply blind_advance | apply blind_count | blind_step ].

Lemma blind_random_choice {A} (l : list A) : commutes f (random_choice l).
Proof. unfold random_choice. blind. Qed.

Lemma blind_random_choice_many {A} (l : list A) n :
  commutes f (random_choice_many l n).
Proof. unfold random_choice_many. blind. apply blind_random_choice. Qed.

Lemma blind_rollout_step r action : commutes f (@rollout_step E r action).
Proof. unfold rollout_step. blind. Qed.

Lemma blind_rollout a env l : commutes f (@rollout E a env l).
Proof. unfold rollout. blind. apply blind_rollout_step. Qed.

Lemma blind_sequential_simulation a env :
  commutes f (@sequential_simulation E a env).
Proof.
  unfold sequential_simulation. blind. unfold simulation_round. blind.
  - apply blind_random_choice_many.
  - apply blind_rollout.
Qed.

Lemma blind_back_propagation fuel :
  forall node r, commutes f (@back_propagation E fuel node r).
Proof.
  induction fuel as [|fuel IH]; intros [a|] r; simpl; blind. apply IH.
Qed.

Lemma blind_add_node a : commutes f (@add_node E a).
Proof. unfold add_node. blind. Qed.

Lemma blind_add_edge p c a r : commutes f (@add_edge E p c a r).
Proof. unfold add_edge. blind. Qed.

Lemma blind_add_new_observation o p a r :
  commutes f (@add_new_observation E o p a r).
Proof.
  unfold add_new_observation. blind;
    first [apply blind_add_node | apply blind_add_edge].
Qed.

Lemma blind_expansion node env : commutes f (@expansion E node env).
Proof. unfold expansion. blind. apply blind_add_new_observation. Qed.

Lemma blind_follow_path dest obs actions :
  forall idx env, commutes f (@follow_path E dest obs idx actions env).
Proof.
  induction actions as [|action rest IH]; intros idx env; simpl; blind;
    first [apply blind_add_new_observation | apply blind_add_edge | apply IH].
Qed.

Lemma blind_go_to_node_loop fuel :
  forall dest node env, commutes f (go_to_node_loop G fuel dest node env).
Proof.
  induction fuel as [|fuel IH]; intros dest node env; simpl; blind;
    first [apply blind_follow_path | apply IH].
Qed.

Lemma blind_go_to_node fuel dest env : commutes f (go_to_node G fuel dest env).
Proof. unfold go_to_node. blind. apply blind_go_to_node_loop. Qed.

Lemma blind_selection fuel env : commutes f (selection G fuel env).
Proof. unfold selection. blind. apply blind_go_to_node. Qed.

Lemma blind_plan_iteration fuel gs : commutes f (plan_iteration G fuel gs).
Proof.
  unfold plan_iteration. blind;
    first [ apply blind_selection | apply blind_expansion
          | apply blind_sequential_simulation | apply blind_back_propagation ].
Qed.

End BudgetBlind.

End MCGSFacts.

(** ** The tree-search agent *)

Module MCTSFacts.
Import Py PyFacts MCTS.

Section Facts.

Context (E : Collaborators).

(** The UCT score of the tree-search node: the logarithm is taken of the
    parent's visits, not of the parent's visits plus one. *)
Lemma uct_value_tree_formula (h : list Node) (n pn : Node) (p : nat) :
  parent n = Some p -> h !! p = Some pn ->
  0 < visits n -> 1 <= visits pn ->
  uct_value h n =
  Ret (value n / IZR (visits n)
       + 1 / sqrt 2 * sqrt (ln (IZR (visits pn)) / IZR (visits n)))%R.
Proof.
  intros Hp Hpn Hv Hpv. unfold uct_value.
  rewrite truediv_nonzero by lia. simpl. rewrite Hp, Hpn. simpl.
  rewrite math_log_pos by (apply IZR_lt; lia). simpl.
  rewrite truediv_nonzero by lia. simpl.
  rewrite math_sqrt_nonneg
    by (apply div_IZR_nonneg; [apply ln_IZR_nonneg; lia | exact Hv]).
  reflexivity.
Qed.

Lemma uct_value_tree_no_zero_division (h : list Node) (n : Node) :
  visits n <> 0 -> uct_value h n <> Raise ZeroDivisionError.
Proof.
  intros Hv. unfold uct_value.
  rewrite truediv_nonzero by exact Hv. simpl.
  destruct (parent n) as [p|]; simpl.
  - destruct (h !! p) as [pn|]; simpl; [|discriminate].
    unfold math_log. destruct (Rle_dec _ _); [discriminate|]. simpl.
    rewrite truediv_nonzero by exact Hv. simpl.
    unfold math_sqrt. destruct (Rlt_dec _ _); discriminate.
  - unfold math_log. destruct (Rle_dec _ _); [discriminate|]. simpl.
    rewrite truediv_nonzero by exact Hv. simpl.
    unfold math_sqrt. destruct (Rlt_dec _ _); discriminate.
Qed.

Lemma uct_value_tree_unvisited (h : list Node) (n : Node) :
  visits n = 0 -> uct_value h n = Raise ZeroDivisionError.
Proof. intros Hv. unfold uct_value, truediv. rewrite Hv. reflexivity. Qed.

(** *** Back-propagation *)

Lemma tree_deref_eq (s : Agent E) a n : heap s !! a = Some n -> deref a s = Ret (n, s).
Proof. unfold deref. intros ->. reflexivity. Qed.

Lemma tree_update_eq (s : Agent E) a n f :
  heap s !! a = Some n ->
  update a f s = Ret (tt, with_heap (alter f a (heap s)) s).
Proof.
  intros H. unfold update. erewrite bind_eq by (eapply tree_deref_eq; exact H).
  unfold modify. rewrite (insert_alter f _ _ H). reflexivity.
Qed.

Lemma chain_to_chosen_bump (h : list Node) v c a l :
  chain_to_chosen h a l -> chain_to_chosen (alter (bump E v) c h) a l.
Proof.
  apply ChainFacts.walk_ext. intros b n Hb.
  destruct (decide (c = b)) as [<- | Hne].
  - exists (bump E v n). rewrite list_lookup_alter_eq, Hb. auto.
  - exists n. rewrite list_lookup_alter_ne by exact Hne. auto.
Qed.

(** [back_propagation] updates the nodes of the chain up to the nearest
    node flagged [chosen], each of them once, and nothing else. *)
Lemma back_propagation_along_chosen_chain fuel :
  forall (s : Agent E) a l v,
    chain_to_chosen (heap s) a l -> (length l <= fuel)%nat ->
    back_propagation fuel (Some a) v s
    = Ret (tt, with_heap (Chain.alter_all (bump E v) l (heap s)) s).
Proof.
  induction fuel as [|fuel IH]; intros s a l v Hw Hlen.
  - destruct (ChainFacts.walk_head Hw) as [l' ->]. simpl in Hlen. lia.
  - inversion Hw as [a' n Ha Hs | a' n p l' Ha Hs Hn Hw']; subst.
    + simpl. erewrite bind_eq by (eapply tree_update_eq; exact Ha).
      erewrite bind_eq
        by (eapply tree_deref_eq; simpl; rewrite list_lookup_alter_eq, Ha; reflexivity).
      simpl. rewrite Hs. reflexivity.
    + simpl. erewrite bind_eq by (eapply tree_update_eq; exact Ha).
      erewrite bind_eq
        by (eapply tree_deref_eq; simpl; rewrite list_lookup_alter_eq, Ha; reflexivity).
      simpl. rewrite Hs, Hn.
      rewrite (IH _ p l' v); [reflexivity | | simpl in Hlen; lia].
      simpl. apply chain_to_chosen_bump. exact Hw'.
Qed.

(** *** Rollouts and simulation *)

Lemma tree_random_choice_eq {A} (d : A) (a : list A) (s : Agent E) :
  exists x rng,
    random_choice (d :: a) s = Ret (x, with_random rng s) /\ x ∈ d :: a.
Proof.
  unfold random_choice, bind, get.
  destruct (draw E (random s) (length (d :: a))) as [i rng].
  exists (nth (i mod length (d :: a))%nat (d :: a) d), rng.
  split; [reflexivity|].
  apply list_elem_of_In, nth_In, Nat.mod_upper_bound. discriminate.
Qed.

(** The three [break]s of [rollout]. *)
Lemma rollout_loop_stops fuel (env : GameState E) cum (s : Agent E) :
  generate_actions E env (player_id s) = []
  \/ is_budget_over s = true
  \/ is_game_over E env = true ->
  rollout_loop fuel env cum s = Ret (cum, s).
Proof.
  intros H.
  destruct fuel; cbn [rollout_loop]; unfold bind at 1, get; cbv zeta;
    (destruct H as [H | [H | H]];
     [ rewrite H; reflexivity
     | destruct (Nat.eqb _ 0); [reflexivity | rewrite H; reflexivity]
     | destruct (Nat.eqb _ 0); [reflexivity|];
       destruct (is_budget_over s); [reflexivity|];
       rewrite H; reflexivity ]).
Qed.

(** When none of them applies, the rollout takes one step: it advances
    the environment by a legal action, counts one forward-model call and
    adds the reward of the state reached (and lets the opponent answer,
    uncounted, when the opponent model is on). *)
Lemma rollout_loop_steps fuel (env : GameState E) cum (s : Agent E) :
  generate_actions E env (player_id s) <> [] ->
  is_budget_over s = false -> is_game_over E env = false ->
  rollout_loop (S fuel) env cum s = Raise ValueError
  \/ exists a env' s',
       a ∈ generate_actions E env (player_id s)
       /\ rollout_loop (S fuel) env cum s
          = rollout_loop fuel env'
              (float_add E cum
                 (evaluate_state (advance_gamestate E env a) (player_id s)))
              s'
       /\ budget_type s' = budget_type s
       /\ max_forward_model_calls s' = max_forward_model_calls s
       /\ player_id s' = player_id s
       /\ num_rollouts s' = num_rollouts s
       /\ forward_model_calls s' = forward_model_calls s + 1
       /\ fm_advances s'
          = fm_advances s + (if use_opponent_model s then 2 else 1).
Proof.
  intros Ha Hb Hg.
  destruct (generate_actions E env (player_id s)) as [|d acts] eqn:Hacts;
    [contradiction|].
  destruct (tree_random_choice_eq d acts s) as (a & rng & Hchoice & Hin).
  assert (rollout_loop (S fuel) env cum s
          = bind (advance env a)
                (fun env1 => bind count_forward_model_call (fun _ =>
                   if use_opponent_model s then
                     bind (random_choice
                             (generate_actions E
                                (set_current_tbs_player E env1 (get_opponent_id s))
                                (get_opponent_id s)))
                       (fun b =>
                          bind (advance
                                  (set_current_tbs_player E env1
                                     (get_opponent_id s)) b)
                            (fun env2 =>
                               rollout_loop fuel
                                 (set_current_tbs_player E env2 (player_id s))
                                 (float_add E cum
                                    (evaluate_state env1 (player_id s)))))
                   else rollout_loop fuel env1
                          (float_add E cum
                             (evaluate_state env1 (player_id s)))))
                (with_random rng s)) as Hstep.
  { cbn [rollout_loop]. erewrite bind_eq by reflexivity.
    cbv beta zeta. rewrite Hacts. cbn [length Nat.eqb]. rewrite Hb, Hg.
    erewrite bind_eq by exact Hchoice. reflexivity. }
  rewrite Hstep. clear Hstep.
  erewrite bind_eq by reflexivity. erewrite bind_eq by reflexivity.
  destruct (use_opponent_model s) eqn:Hopp.
  - destruct (generate_actions E
                (set_current_tbs_player E (advance_gamestate E env a)
                   (get_opponent_id s)) (get_opponent_id s))
      as [|d' opp] eqn:Hopp_acts.
    + left. reflexivity.
    + match goal with
      | |- context [bind (random_choice (d' :: opp)) _ ?s1] =>
          destruct (tree_random_choice_eq d' opp s1) as (b & rng' & Hopp_choice & _)
      end.
      right. eexists a, _, _. split; [exact Hin|]. split.
      * erewrite bind_eq by exact Hopp_choice.
        erewrite bind_eq by reflexivity. reflexivity.
      * repeat split; try reflexivity.
        lazy [fm_advances with_fm_advances with_random
              with_forward_model_calls]. lia.
  - right. eexists a, _, _. split; [exact Hin|]. split; [reflexivity|].
    repeat split.
Qed.

(** Under [MAX_FM_CALLS] the budget bounds the length of a rollout: fuel
    for the calls that are left is all it needs. *)
Lemma rollout_loop_within_budget fuel :
  forall (env : GameState E) cum (s : Agent E),
    budget_type s = MAX_FM_CALLS ->
    (Z.to_nat (max_forward_model_calls s - forward_model_calls s) <= fuel)%nat ->
    rollout_loop fuel env cum s <> OutOfFuel.
Proof.
  induction fuel as [|fuel IH]; intros env cum s Hbt Hfuel.
  - rewrite rollout_loop_stops; [discriminate|].
    right. left. unfold is_budget_over. rewrite Hbt. lia.
  - destruct (generate_actions E env (player_id s)) as [|d acts] eqn:Hacts.
    { rewrite rollout_loop_stops; [discriminate | left; exact Hacts]. }
    destruct (is_budget_over s) eqn:Hb.
    { rewrite rollout_loop_stops; [discriminate | right; left; exact Hb]. }
    destruct (is_game_over E env) eqn:Hg.
    { rewrite rollout_loop_stops; [discriminate | right; right; exact Hg]. }
    destruct (rollout_loop_steps fuel env cum s) as
      [Hraise | (a & env' & s' & _ & Hrun & Hbt' & Hmax & _ & _ & Hcalls & _)];
      try assumption; [rewrite Hacts; discriminate | |].
    + rewrite Hraise. discriminate.
    + rewrite Hrun. apply IH; [congruence|].
      unfold is_budget_over in Hb. rewrite Hbt in Hb. lia.
Qed.

(** One step of the rollout, in full.  The action is a legal one.  With
    the opponent model off the rollout goes on from the state reached.
    With it on, the opponent answers from that state with one of its own
    legal actions, in a call that is issued but not counted; when it has
    none, [random.choice] raises [ValueError]. *)
Lemma rollout_loop_step fuel (env : GameState E) cum (s : Agent E) :
  generate_actions E env (player_id s) <> [] ->
  is_budget_over s = false -> is_game_over E env = false ->
  exists a rng,
    a ∈ generate_actions E env (player_id s)
    /\ let env1 := advance_gamestate E env a in
       let opp_env := set_current_tbs_player E env1 (get_opponent_id s) in
       let cum1 := float_add E cum (evaluate_state env1 (player_id s)) in
       (use_opponent_model s = false ->
        rollout_loop (S fuel) env cum s
        = rollout_loop fuel env1 cum1 (stepped rng 1 s))
       /\ (use_opponent_model s = true ->
           generate_actions E opp_env (get_opponent_id s) = [] ->
           rollout_loop (S fuel) env cum s = Raise ValueError)
       /\ (use_opponent_model s = true ->
           generate_actions E opp_env (get_opponent_id s) <> [] ->
           exists b rng',
             b ∈ generate_actions E opp_env (get_opponent_id s)
             /\ rollout_loop (S fuel) env cum s
                = rollout_loop fuel
                    (set_current_tbs_player E (advance_gamestate E opp_env b)
                       (player_id s))
                    cum1 (stepped rng' 2 s)).
Proof.
  intros Ha Hb Hg.
  destruct (generate_actions E env (player_id s)) as [|d acts] eqn:Hacts;
    [contradiction|].
  destruct (tree_random_choice_eq d acts s) as (a & rng & Hchoice & Hin).
  exists a, rng. split; [exact Hin|]. cbv zeta.
  assert (rollout_loop (S fuel) env cum s
          = bind (advance env a)
                (fun env1 => bind count_forward_model_call (fun _ =>
                   if use_opponent_model s then
                     bind (random_choice
                             (generate_actions E
                                (set_current_tbs_player E env1 (get_opponent_id s))
                                (get_opponent_id s)))
                       (fun b =>
                          bind (advance
                                  (set_current_tbs_player E env1
                                     (get_opponent_id s)) b)
                            (fun env2 =>
                               rollout_loop fuel
                                 (set_current_tbs_player E env2 (player_id s))
                                 (float_add E cum
                                    (evaluate_state env1 (player_id s)))))
                   else rollout_loop fuel env1
                          (float_add E cum
                             (evaluate_state env1 (player_id s)))))
                (with_random rng s)) as Hstep.
  { cbn [rollout_loop]. erewrite bind_eq by reflexivity.
    cbv beta zeta. rewrite Hacts. cbn [length Nat.eqb]. rewrite Hb, Hg.
    erewrite bind_eq by exact Hchoice. reflexivity. }
  rewrite Hstep. clear Hstep.
  erewrite bind_eq by reflexivity. erewrite bind_eq by reflexivity.
  split; [|split].
  - intros Hopp. rewrite Hopp. reflexivity.
  - intros Hopp Hnone. rewrite Hopp, Hnone. reflexivity.
  - intros Hopp Hsome. rewrite Hopp.
    destruct (generate_actions E
                (set_current_tbs_player E (advance_gamestate E env a)
                   (get_opponent_id s)) (get_opponent_id s))
      as [|d' opp] eqn:Hopp_acts; [contradiction|].
    match goal with
    | |- context [bind (random_choice (d' :: opp)) _ ?s1] =>
        destruct (tree_random_choice_eq d' opp s1) as (b & rng' & Hopp_choice & Hb')
    end.
    exists b, rng'. split; [exact Hb'|].
    erewrite bind_eq by exact Hopp_choice.
    erewrite bind_eq by reflexivity. f_equal.
    destruct s.
    cbv [stepped fm_advances forward_model_calls with_random with_fm_advances
         with_forward_model_calls random graph heap budget_type player_id
         node_counter edge_counter num_rollouts use_opponent_model
         root_node num_simulations max_forward_model_calls num_iterations
         max_iterations timer max_time_ms].
    f_equal. lia.
Qed.

(** Under [MAX_FM_CALLS], with fuel for the calls that are left, a
    rollout returns whenever the opponent, if modelled, always has a
    legal action. *)
Lemma rollout_loop_returns fuel :
  forall (env : GameState E) cum (s : Agent E),
    budget_type s = MAX_FM_CALLS ->
    (Z.to_nat (max_forward_model_calls s - forward_model_calls s) <= fuel)%nat ->
    (use_opponent_model s = true ->
     forall e, generate_actions E e (get_opponent_id s) <> []) ->
    exists c s', rollout_loop fuel env cum s = Ret (c, s').
Proof.
  induction fuel as [|fuel IH]; intros env cum s Hbt Hfuel Hopp.
  - exists cum, s. apply rollout_loop_stops.
    right. left. unfold is_budget_over. rewrite Hbt. lia.
  - destruct (generate_actions E env (player_id s)) as [|d acts] eqn:Hacts.
    { exists cum, s. apply rollout_loop_stops. left. exact Hacts. }
    destruct (is_budget_over s) eqn:Hb.
    { exists cum, s. apply rollout_loop_stops. right. left. exact Hb. }
    destruct (is_game_over E env) eqn:Hg.
    { exists cum, s. apply rollout_loop_stops. right. right. exact Hg. }
    destruct (rollout_loop_step fuel env cum s)
      as (a & rng & _ & Hoff & _ & Hon);
      try assumption; [rewrite Hacts; discriminate|].
    unfold is_budget_over in Hb. rewrite Hbt in Hb.
    destruct (use_opponent_model s) eqn:Hmodel.
    + destruct (Hon eq_refl (Hopp eq_refl _)) as (b & rng' & _ & Hrun).
      rewrite Hrun. apply IH.
      * exact Hbt.
      * cbn [stepped max_forward_model_calls forward_model_calls with_random
             with_forward_model_calls with_fm_advances]. lia.
      * intros _. exact (Hopp eq_refl).
    + rewrite (Hoff eq_refl). apply IH.
      * exact Hbt.
      * cbn [stepped max_forward_model_calls forward_model_calls with_random
             with_forward_model_calls with_fm_advances]. lia.
      * cbn [stepped use_opponent_model with_random with_forward_model_calls
             with_fm_advances]. rewrite Hmodel. discriminate.
Qed.

Lemma rollouts_collected fuel (env : GameState E) (idxs : list nat) :
  forall (acc : list R) (s : Agent E) rewards s',
    for_each idxs acc
      (fun rewards _ => bind (rollout fuel env)
                          (fun average_reward => ret (rewards ++ [average_reward])))
      s = Ret (rewards, s')
    <-> exists l,
          rewards = acc ++ l /\ length l = length idxs
          /\ rollouts_yield fuel env l s s'.
Proof.
  induction idxs as [|i idxs IH]; intros acc s rewards s'.
  - split.
    + intros H. injection H as <- <-. exists []. rewrite app_nil_r.
      repeat split.
    + intros (l & -> & Hlen & Hy). destruct l; [|discriminate].
      simpl in Hy. subst s'. rewrite app_nil_r. reflexivity.
  - split.
    + intros H. apply for_each_cons_Ret in H as (acc1 & s1 & H1 & H).
      apply bind_Ret in H1 as (c & s2 & Hc & H1). injection H1 as <- <-.
      apply IH in H as (l & -> & Hlen & Hy).
      exists (c :: l). rewrite <- app_assoc. split; [reflexivity|].
      split; [simpl; lia|]. exists s2. split; assumption.
    + intros (l & -> & Hlen & Hy). destruct l as [|c l]; [discriminate|].
      destruct Hy as (s1 & Hc & Hy). cbn [for_each].
      erewrite bind_eq by (erewrite bind_eq by exact Hc; reflexivity).
      apply IH. exists l. rewrite <- app_assoc. split; [reflexivity|].
      split; [simpl in Hlen; lia | exact Hy].
Qed.

(** [simulation] steps to the child along the edge from its parent,
    runs [num_rollouts] rollouts from there one after the other, and
    answers numpy's mean of their cumulative rewards. *)
Lemma simulation_rollouts fuel node (env : GameState E) (s : Agent E) v s' :
  simulation fuel node env s = Ret (v, s')
  <-> exists n edge rewards,
        heap s !! node = Some n
        /\ get_edge_info (graph s) (parent n) node = Ret edge
        /\ rollouts_yield fuel (advance_gamestate E env (edge_action edge))
             rewards (with_fm_advances (fm_advances s + 1) s) s'
        /\ length rewards = Z.to_nat (num_rollouts s)
        /\ np_mean E rewards = Ret v.
Proof.
  unfold simulation. split.
  - intros H.
    apply bind_Ret in H as (n & s1 & H1 & H).
    unfold deref in H1. destruct (heap s !! node) as [n0|] eqn:Hn;
      [|discriminate].
    injection H1 as <- <-.
    apply bind_Ret in H as (s0 & s1 & H0 & H). injection H0 as <- <-.
    apply bind_Ret in H as (e & s1 & H1 & H). apply lift_Ret in H1 as [He ->].
    apply bind_Ret in H as (env1 & s1 & H1 & H). injection H1 as <- <-.
    apply bind_Ret in H as (k & s2 & H2 & H). injection H2 as <- <-.
    apply bind_Ret in H as (rewards & s3 & H3 & H).
    apply lift_Ret in H as [Hmean ->].
    apply rollouts_collected in H3 as (l & -> & Hlen & Hy).
    exists n0, e, l. split; [reflexivity|]. split; [exact He|].
    split; [exact Hy|]. split; [|exact Hmean].
    rewrite Hlen. apply length_seq.
  - intros (n & e & l & Hn & He & Hy & Hlen & Hmean).
    unfold bind at 1, deref. rewrite Hn.
    unfold bind at 1, get. unfold bind at 1, lift. rewrite He.
    unfold bind at 1, advance. unfold bind at 1, gets.
    cbn [num_rollouts with_fm_advances].
    erewrite bind_eq.
    2: { apply rollouts_collected. exists l. split; [reflexivity|].
         split; [|exact Hy]. rewrite Hlen. unfold range.
         symmetry. apply length_seq. }
    cbn [app]. unfold lift. rewrite Hmean. reflexivity.
Qed.

(** [simulation] answers numpy's mean of the cumulative rewards of
    [num_rollouts] rollouts. *)
Lemma simulation_mean fuel node (env : GameState E) (s : Agent E) v s' :
  simulation fuel node env s = Ret (v, s') ->
  exists rewards,
    np_mean E rewards = Ret v /\ length rewards = Z.to_nat (num_rollouts s).
Proof.
  intros H. apply simulation_rollouts in H
    as (n & e & l & _ & _ & _ & Hlen & Hmean).
  exists l. split; assumption.
Qed.

End Facts.

(** C10.  When exactly one action is legal, [compute_action] answers it
    at once: the budget counters are reset and nothing else changes, so
    no node or edge is added, no statistic moves and no forward-model
    call is issued. *)
Theorem single_legal_action_shortcut (E : Collaborators) (fuel : nat)
    (gs : GameState E) (s : Agent E) (only : Action E) :
  generate_actions E gs (player_id s) = [only] ->
  compute_action fuel gs s = Ret (from_single_action only, budget_reset s)
  /\ graph (budget_reset s) = graph s
  /\ heap (budget_reset s) = heap s
  /\ node_counter (budget_reset s) = node_counter s
  /\ edge_counter (budget_reset s) = edge_counter s
  /\ root_node (budget_reset s) = root_node s
  /\ fm_advances (budget_reset s) = fm_advances s.
Proof.
  intros H. split; [|repeat split; reflexivity].
  unfold compute_action, reset_budget.
  unfold bind at 1, modify. unfold bind at 1, gets.
  change (player_id (budget_reset s)) with (player_id s).
  rewrite H. reflexivity.
Qed.

End MCTSFacts.

(** ** The two variants side by side *)

Module Variants.
Import Py PyFacts.

(** C3, as the code has it.  The tree-search [back_propagation] updates
    the live-parent chain of the node up to the nearest node flagged
    [chosen]; the graph-search one updates the chain up to the node with
    no parent.  Each node of the chain gets one more visit and the
    reward added once, and every other node is left alone. *)
Theorem back_propagation_stop_conditions (E : Collaborators) (fuel : nat)
    (st : MCTS.Agent E) (sg : MCGS.Agent E) (a b : nat)
    (lt lg : list nat) (v : R) :
  MCTS.chain_to_chosen (MCTS.heap st) a lt -> (length lt <= fuel)%nat ->
  MCGS.chain_to_root (MCGS.heap sg) b lg -> (length lg <= fuel)%nat ->
  (MCTS.back_propagation fuel (Some a) v st
   = Ret (tt, MCTS.with_heap
                (Chain.alter_all (MCTS.bump E v) lt (MCTS.heap st)) st)
   /\ forall c,
        Chain.alter_all (MCTS.bump E v) lt (MCTS.heap st) !! c
        = if bool_decide (c ∈ lt) then MCTS.bump E v <$> MCTS.heap st !! c
          else MCTS.heap st !! c)
  /\ (MCGS.back_propagation fuel (Some b) v sg
      = Ret (tt, MCGS.with_heap
                   (Chain.alter_all (MCGS.bump v) lg (MCGS.heap sg)) sg)
      /\ forall c,
           Chain.alter_all (MCGS.bump v) lg (MCGS.heap sg) !! c
           = if bool_decide (c ∈ lg) then MCGS.bump v <$> MCGS.heap sg !! c
             else MCGS.heap sg !! c).
Proof.
  intros Ht Hlt Hg Hlg. split; split.
  - apply MCTSFacts.back_propagation_along_chosen_chain; assumption.
  - intros c. apply ChainFacts.alter_all_lookup.
    eapply ChainFacts.walk_NoDup. exact Ht.
  - apply MCGSFacts.back_propagation_along_chain; assumption.
  - intros c. apply ChainFacts.alter_all_lookup.
    eapply ChainFacts.walk_NoDup. exact Hg.
Qed.

(** C6, as the code has it.  [value] of the graph-search node is 0 at
    zero visits and [total_value / visits] otherwise, and never divides
    by zero; the UCT score of either variant does not divide by zero
    at a node with visits. *)
Theorem zero_visit_value_guard (E : Collaborators)
    (hg : list (MCGS.Node E)) (n : MCGS.Node E)
    (ht : list MCTS.Node) (m : MCTS.Node) :
  MCGS.value n
  = Ret (if MCGS.visits n =? 0 then 0
         else MCGS.total_value n / IZR (MCGS.visits n))%R
  /\ (MCGS.visits n <> 0 -> MCGS.uct_value hg n <> Raise ZeroDivisionError)
  /\ (MCTS.visits m <> 0 -> MCTS.uct_value ht m <> Raise ZeroDivisionError).
Proof.
  split; [apply MCGSFacts.value_total|]. split.
  - apply MCGSFacts.uct_value_no_zero_division.
  - apply MCTSFacts.uct_value_tree_no_zero_division.
Qed.

(** C7, as the code has it.  A graph-search rollout applies the action
    to the child and then one end-turn action per sampled action, one
    counted forward-model call each, and adds the rewards of these
    steps one after the other to 0; it takes all of them, whatever the
    environment says of terminal states or legal actions.
    [sequential_simulation] samples [rollout_depth] actions per rollout
    and answers numpy's mean of the cumulative rewards of [num_rollouts]
    rollouts.  A tree-search rollout stops as soon as no legal action
    remains, the budget is over or the environment is terminal.
    Otherwise it takes a step with a legal action, which is counted, and
    adds the reward of the state reached; with the opponent model on,
    the opponent then answers with a legal action of its own, in a call
    that is not counted, and the rollout raises [ValueError] when the
    opponent has none.  It has no depth limit: under [MAX_FM_CALLS] the
    calls left in the budget bound its length, and it returns whenever
    the opponent can always move.  [simulation] returns exactly when the
    node and the edge from its parent exist, [num_rollouts] rollouts
    from the state behind that edge return one after the other and
    there is at least one of them; it answers numpy's mean of their
    results. *)
Theorem rollout_procedure (E : Collaborators)
    (sg : MCGS.Agent E) (st st' : MCTS.Agent E) (a : Action E)
    (env : GameState E) (action_list : list (Action E))
    (fuel : nat) (cum : R) (node : nat) (v : R) :
  generate_actions E env (MCGS.player_id sg) <> [] ->
  0 <= MCGS.rollout_depth sg ->
  0 < MCGS.num_rollouts sg ->
  MCTS.budget_type st = MAX_FM_CALLS ->
  (Z.to_nat (MCTS.max_forward_model_calls st - MCTS.forward_model_calls st)
   <= fuel)%nat ->
  (exists p,
     MCGS.rollout a env action_list sg
     = Ret ((MCGS.rollout_reward (MCGS.player_id sg)
               (advance_gamestate E env a) action_list, p),
            MCGS.calls_added (1 + Z.of_nat (length action_list)) sg)
     /\ length p = length action_list)
  /\ (exists rewards paths rng,
        MCGS.sequential_simulation a env sg
        = Ret ((numpy_mean E rewards, paths),
               MCGS.with_random rng
                 (MCGS.calls_added
                    (Z.of_nat (Z.to_nat (MCGS.num_rollouts sg))
                     * (1 + MCGS.rollout_depth sg)) sg))
        /\ length rewards = Z.to_nat (MCGS.num_rollouts sg)
        /\ length paths = Z.to_nat (MCGS.num_rollouts sg)
        /\ Forall (MCGS.simulated a env sg) rewards
        /\ Forall (fun p => length p = Z.to_nat (MCGS.rollout_depth sg)) paths)
  /\ (forall env0 cum0,
        generate_actions E env0 (MCTS.player_id st) = []
        \/ MCTS.is_budget_over st = true
        \/ is_game_over E env0 = true ->
        MCTS.rollout_loop fuel env0 cum0 st = Ret (cum0, st))
  /\ (generate_actions E env (MCTS.player_id st) <> [] ->
      MCTS.is_budget_over st = false -> is_game_over E env = false ->
      exists b rng,
        b ∈ generate_actions E env (MCTS.player_id st)
        /\ let env1 := advance_gamestate E env b in
           let opp_env :=
             set_current_tbs_player E env1 (MCTS.get_opponent_id st) in
           let cum1 :=
             float_add E cum (MCTS.evaluate_state env1 (MCTS.player_id st)) in
           (MCTS.use_opponent_model st = false ->
            MCTS.rollout_loop (S fuel) env cum st
            = MCTS.rollout_loop fuel env1 cum1 (MCTS.stepped rng 1 st))
           /\ (MCTS.use_opponent_model st = true ->
               generate_actions E opp_env (MCTS.get_opponent_id st) = [] ->
               MCTS.rollout_loop (S fuel) env cum st = Raise ValueError)
           /\ (MCTS.use_opponent_model st = true ->
               generate_actions E opp_env (MCTS.get_opponent_id st) <> [] ->
               exists c rng',
                 c ∈ generate_actions E opp_env (MCTS.get_opponent_id st)
                 /\ MCTS.rollout_loop (S fuel) env cum st
                    = MCTS.rollout_loop fuel
                        (set_current_tbs_player E
                           (advance_gamestate E opp_env c)
                           (MCTS.player_id st))
                        cum1 (MCTS.stepped rng' 2 st)))
  /\ MCTS.rollout_loop fuel env cum st <> OutOfFuel
  /\ ((MCTS.use_opponent_model st = true ->
       forall e, generate_actions E e (MCTS.get_opponent_id st) <> []) ->
      exists c st1, MCTS.rollout_loop fuel env cum st = Ret (c, st1))
  /\ (MCTS.simulation fuel node env st = Ret (v, st')
      <-> exists n edge rewards,
            MCTS.heap st !! node = Some n
            /\ MCTS.get_edge_info (MCTS.graph st) (MCTS.parent n) node
               = Ret edge
            /\ MCTS.rollouts_yield fuel
                 (advance_gamestate E env (MCTS.edge_action edge)) rewards
                 (MCTS.with_fm_advances (MCTS.fm_advances st + 1) st) st'
            /\ length rewards = Z.to_nat (MCTS.num_rollouts st)
            /\ np_mean E rewards = Ret v).
Proof.
  intros Ha Hd Hn Hbt Hfuel.
  split; [apply MCGSFacts.rollout_eq|].
  split; [apply MCGSFacts.sequential_simulation_eq; assumption|].
  split; [intros env0 cum0; apply MCTSFacts.rollout_loop_stops|].
  split; [apply MCTSFacts.rollout_loop_step|].
  split; [apply MCTSFacts.rollout_loop_within_budget; assumption|].
  split; [apply MCTSFacts.rollout_loop_returns; assumption|].
  apply MCTSFacts.simulation_rollouts.
Qed.

(** C9, as the code has it.  In the graph search nothing inside an
    iteration of the planning loop looks at the budget: a rollout, a
    simulation and a whole iteration run the same whatever the budget
    settings are.  The tree-search rollout consults the budget before
    every step and stops when it is over. *)
Theorem budget_consulted_between_iterations (E : Collaborators)
    (G : MCGS.GraphAlgorithms E) (sg : MCGS.Agent E) (st : MCTS.Agent E)
    (bt : BudgetType) (B mi mt : Z) (a : Action E) (env : GameState E)
    (action_list : list (Action E)) (fuel : nat) (cum : R) :
  MCGS.rollout a env action_list (MCGS.with_budget bt B mi mt sg)
  = map_state (MCGS.with_budget bt B mi mt)
      (MCGS.rollout a env action_list sg)
  /\ MCGS.sequential_simulation a env (MCGS.with_budget bt B mi mt sg)
     = map_state (MCGS.with_budget bt B mi mt)
         (MCGS.sequential_simulation a env sg)
  /\ MCGS.plan_iteration G fuel env (MCGS.with_budget bt B mi mt sg)
     = map_state (MCGS.with_budget bt B mi mt)
         (MCGS.plan_iteration G fuel env sg)
  /\ (MCTS.is_budget_over st = true ->
      MCTS.rollout_loop fuel env cum st = Ret (cum, st)).
Proof.
  split; [apply MCGSFacts.blind_rollout|].
  split; [apply MCGSFacts.blind_sequential_simulation|].
  split; [apply MCGSFacts.blind_plan_iteration|].
  intros H. apply MCTSFacts.rollout_loop_stops. right. left. exact H.
Qed.

End Variants.
(** ** Parent pointers: trajectories, rerouting and the chains that
    back-propagation follows *)

Module NodeFacts.
Import Py PyFacts MCGS MCGSFacts.

Section Facts.


Context (E : Collaborators).

Implicit Types (h : list (Node E)) (m : Node E).

Lemma node_at_eq h a (n : Node E) : h !! a = Some n -> node_at a h = Ret (n, h).
Proof. unfold node_at. intros ->. reflexivity. Qed.

Lemma node_update_eq h a (n : Node E) (f : Node E -> Node E) :
  h !! a = Some n -> node_update a f h = Ret (tt, <[a := f n]> h).
Proof.
  intros H. unfold node_update.
  erewrite bind_eq by (apply node_at_eq; exact H). reflexivity.
Qed.

Lemma set_parent_same (n : Node E) p : parent n = Some p -> set_parent (Some p) n = n.
Proof. destruct n. simpl. intros ->. reflexivity. Qed.

(** One pass of the loop of [reroute] hangs [node] under the next node of
    the reversed path. *)
Lemma reroute_step_eq po (ao : list (Action E)) node i next a (n : Node E) h :
  po !! (i + 1)%nat = Some next -> ao !! i = Some a -> h !! node = Some n ->
  reroute_step po ao node i h = Ret (next, <[node := relinked next a n]> h).
Proof.
  intros Hnext Ha Hn. unfold reroute_step. rewrite Hnext, Ha.
  erewrite bind_eq by (apply node_at_eq; exact Hn).
  assert (node < length h)%nat as Hlt by (eapply lookup_lt_Some; exact Hn).
  destruct (parent_is_not n next) eqn:Hp.
  - erewrite bind_eq by (apply node_update_eq; exact Hn).
    erewrite bind_eq
      by (apply node_update_eq; apply list_lookup_insert_eq; exact Hlt).
    rewrite list_insert_insert_eq. reflexivity.
  - erewrite bind_eq by reflexivity.
    erewrite bind_eq by (apply node_update_eq; exact Hn).
    unfold relinked. rewrite set_parent_same; [reflexivity|].
    unfold parent_is_not in Hp. destruct (parent n) as [p|]; [|discriminate].
    apply negb_false_iff, Nat.eqb_eq in Hp. subst. reflexivity.
Qed.

(** The loop of [reroute] from position [lo] of the reversed path, [n]
    passes long. *)
Lemma reroute_loop po (ao : list (Action E)) :
  NoDup po ->
  forall n lo node h,
    po !! lo = Some node ->
    (lo + n < length po)%nat -> (lo + n <= length ao)%nat ->
    (forall c, c ∈ po -> is_Some (h !! c)) ->
    exists last h',
      for_each (seq lo n) node (reroute_step po ao) h = Ret (last, h')
      /\ po !! (lo + n)%nat = Some last
      /\ length h' = length h
      /\ (forall i c p a m,
            (lo <= i < lo + n)%nat ->
            po !! i = Some c -> po !! S i = Some p -> ao !! i = Some a ->
            h !! c = Some m -> h' !! c = Some (relinked p a m))
      /\ (forall b,
            (forall i, (lo <= i < lo + n)%nat -> po !! i <> Some b) ->
            h' !! b = h !! b).
Proof.
  intros Hnd. induction n as [|n IH]; intros lo node h Hlo Hpo Hao Hval.
  - exists node, h. rewrite Nat.add_0_r. repeat split; try assumption.
    intros i c p a m Hi. lia.
  - destruct (lookup_lt_is_Some_2 po (lo + 1)) as [next Hnext]; [lia|].
    destruct (lookup_lt_is_Some_2 ao lo) as [a Ha]; [lia|].
    destruct (Hval node) as [m0 Hm0];
      [eapply list_elem_of_lookup_2; exact Hlo|].
    pose proof (@reroute_step_eq po ao node lo next a m0 h Hnext Ha Hm0) as Hstep.
    destruct (IH (S lo) next (<[node := relinked next a m0]> h))
      as (last & h' & Hrun & Hlast & Hlen & Hin & Hout).
    + rewrite <- Nat.add_1_r. exact Hnext.
    + lia.
    + lia.
    + intros c Hc. apply lookup_lt_is_Some. rewrite length_insert.
      apply lookup_lt_is_Some. apply Hval. exact Hc.
    + exists last, h'. split; [|split; [|split; [|split]]].
      * cbn [seq for_each]. erewrite bind_eq by exact Hstep. exact Hrun.
      * rewrite Nat.add_succ_r. exact Hlast.
      * rewrite Hlen. apply length_insert.
      * intros i c p a' m Hi Hc Hp Ha' Hm.
        destruct (decide (i = lo)) as [-> | Hne].
        -- assert (c = node) as -> by congruence.
           assert (p = next) as -> by (rewrite <- Nat.add_1_r in Hp; congruence).
           assert (a' = a) as -> by congruence.
           assert (m = m0) as -> by congruence.
           rewrite Hout.
           ++ apply list_lookup_insert_eq. eapply lookup_lt_Some. exact Hm0.
           ++ intros i' Hi' Hc'.
              pose proof (NoDup_lookup _ _ _ _ Hnd Hlo Hc'). lia.
        -- apply (Hin i c p a' m); try assumption; [lia|].
           rewrite list_lookup_insert_ne; [exact Hm|].
           intros <-. pose proof (NoDup_lookup _ _ _ _ Hnd Hlo Hc). lia.
      * intros b Hb. rewrite Hout.
        -- apply list_lookup_insert_ne. intros <-. apply (Hb lo); [lia|exact Hlo].
        -- intros i Hi. apply Hb. lia.
Qed.

(** What [reroute] does along a path that ends at [self]. *)
Lemma reroute_spec self path (actions : list (Action E)) h :
  NoDup path -> last path = Some self ->
  length path = S (length actions) ->
  (forall c, c ∈ path -> is_Some (h !! c)) ->
  exists h',
    reroute self path actions h = Ret (tt, h')
    /\ length h' = length h
    /\ (forall j p c a m,
          path !! j = Some p -> path !! S j = Some c ->
          actions !! j = Some a -> h !! c = Some m ->
          h' !! c = Some (relinked p a m))
    /\ (forall b, b ∉ drop 1 path -> h' !! b = h !! b).
Proof.
  intros Hnd Hlast Hlen Hval.
  assert (reverse path !! 0%nat = Some self) as H0.
  { rewrite reverse_lookup by lia. rewrite last_lookup in Hlast.
    rewrite <- Hlast. f_equal. lia. }
  destruct (reroute_loop (po := reverse path) (reverse actions))
    with (n := length actions) (lo := 0%nat) (node := self) (h := h)
    as (last' & h' & Hrun & _ & Hlen' & Hin & Hout).
  - rewrite reverse_Permutation. exact Hnd.
  - exact H0.
  - rewrite length_reverse. lia.
  - rewrite length_reverse. lia.
  - intros c Hc. apply Hval. apply elem_of_reverse. exact Hc.
  - exists h'. split; [|split; [exact Hlen'|split]].
    + unfold reroute. rewrite length_reverse, Hlen.
      replace (S (length actions) - 1)%nat with (length actions) by lia.
      erewrite bind_eq by exact Hrun. reflexivity.
    + intros j p c a m Hp Hc Ha Hm.
      assert (j < length actions)%nat as Hj by (eapply lookup_lt_Some; exact Ha).
      apply (Hin (length actions - S j)%nat c p a m); try assumption.
      * lia.
      * rewrite reverse_lookup by lia. rewrite <- Hc. f_equal. lia.
      * rewrite reverse_lookup by lia. rewrite <- Hp. f_equal. lia.
      * rewrite reverse_lookup by lia. rewrite <- Ha. f_equal. lia.
    + intros b Hb. apply Hout. intros i Hi Hc. apply Hb.
      rewrite reverse_lookup in Hc by lia.
      apply (list_elem_of_lookup_2 _ (length path - S i - 1)%nat).
      rewrite lookup_drop. rewrite <- Hc. f_equal. lia.
Qed.

(** Too few actions: the pass that finds none raises. *)
Lemma reroute_loop_short po (ao : list (Action E)) :
  forall n lo node h,
    (lo <= length ao)%nat -> (length ao < lo + n)%nat ->
    (lo + n < length po)%nat ->
    is_Some (h !! node) -> (forall c, c ∈ po -> is_Some (h !! c)) ->
    for_each (seq lo n) node (reroute_step po ao) h = Raise IndexError.
Proof.
  induction n as [|n IH]; intros lo node h Hlo Hao Hpo [m0 Hm0] Hval; [lia|].
  destruct (lookup_lt_is_Some_2 po (lo + 1)) as [next Hnext]; [lia|].
  cbn [seq for_each].
  destruct (ao !! lo) as [a|] eqn:Ha.
  - erewrite bind_eq by (eapply reroute_step_eq; eassumption).
    apply lookup_lt_Some in Ha.
    apply IH; try lia.
    + apply lookup_lt_is_Some. rewrite length_insert.
      apply lookup_lt_is_Some. apply Hval.
      eapply list_elem_of_lookup_2. exact Hnext.
    + intros c Hc. apply lookup_lt_is_Some. rewrite length_insert.
      apply lookup_lt_is_Some. apply Hval. exact Hc.
  - unfold bind at 1. unfold reroute_step. rewrite Hnext, Ha.
    erewrite bind_eq by (apply node_at_eq; exact Hm0).
    destruct (parent_is_not m0 next).
    + erewrite bind_eq by (apply node_update_eq; exact Hm0). reflexivity.
    + reflexivity.
Qed.

(** The trajectory read off a chain: the actions stored at its nodes,
    the one nearest to the root first; the root's own is left out. *)
Lemma trajectory_loop_along_chain h a l :
  chain_to_root h a l ->
  forall fuel acc,
    (length l <= S fuel)%nat ->
    trajectory_loop fuel h a acc
    = Ret (reverse ((fun c => h !! c ≫= @action E) <$> take (length l - 1) l)
           ++ acc).
Proof.
  induction 1 as [a n Ha Hs | a n p l Ha Hs Hn Hw IH]; intros fuel acc Hlen.
  - unfold no_parent in Hs. destruct (parent n) eqn:Hp; [discriminate|].
    destruct fuel; simpl; rewrite Ha, Hp; reflexivity.
  - destruct (ChainFacts.walk_head Hw) as [l' ->].
    destruct fuel as [|fuel]; [simpl in Hlen; lia|].
    cbn [trajectory_loop]. rewrite Ha, Hn.
    rewrite IH by (simpl in *; lia).
    cbn [length]. rewrite !Nat.sub_succ, !Nat.sub_0_r.
    cbn [take fmap list_fmap]. rewrite reverse_cons, <- app_assoc.
    rewrite Ha. reflexivity.
Qed.

(** After [reroute], the trajectory of the [j]-th node of the path is the
    first [j] actions. *)
Lemma trajectory_after_reroute path (actions : list (Action E)) h h' :
  NoDup path -> length path = S (length actions) ->
  (forall c, c ∈ path -> is_Some (h !! c)) ->
  (forall p0 n0, path !! 0%nat = Some p0 -> h !! p0 = Some n0 ->
                 parent n0 = None) ->
  (forall j p c a m,
      path !! j = Some p -> path !! S j = Some c ->
      actions !! j = Some a -> h !! c = Some m ->
      h' !! c = Some (relinked p a m)) ->
  (forall b, b ∉ drop 1 path -> h' !! b = h !! b) ->
  forall j fuel acc c,
    (j <= fuel)%nat -> path !! j = Some c ->
    trajectory_loop fuel h' c acc = Ret ((Some <$> take j actions) ++ acc).
Proof.
  intros Hnd Hlen Hval Hroot Hin Hout.
  induction j as [|j IH]; intros fuel acc c Hfuel Hc.
  - destruct (Hval c) as [n0 Hn0]; [eapply list_elem_of_lookup_2; exact Hc|].
    assert (h' !! c = Some n0) as Hc'.
    { rewrite Hout; [exact Hn0|]. intros Hin'.
      apply list_elem_of_lookup_1 in Hin' as [i Hi]. rewrite lookup_drop in Hi.
      pose proof (NoDup_lookup _ _ _ _ Hnd Hc Hi). lia. }
    pose proof (Hroot _ _ Hc Hn0) as Hp.
    destruct fuel; simpl; rewrite Hc', Hp; reflexivity.
  - assert (S j < length path)%nat as Hlt by (eapply lookup_lt_Some; exact Hc).
    destruct (lookup_lt_is_Some_2 path j) as [p Hp]; [lia|].
    destruct (lookup_lt_is_Some_2 actions j) as [a Ha]; [lia|].
    destruct (Hval c) as [m Hm]; [eapply list_elem_of_lookup_2; exact Hc|].
    pose proof (Hin _ _ _ _ _ Hp Hc Ha Hm) as Hc'.
    destruct fuel as [|fuel]; [lia|].
    cbn [trajectory_loop]. rewrite Hc'. cbn [relinked parent set_action set_parent action].
    rewrite (IH fuel _ p) by (lia || exact Hp).
    rewrite (take_S_r _ _ _ Ha), fmap_app, <- app_assoc. reflexivity.
Qed.

(** The trajectory loop returns only from a node whose parent chain ends. *)
Lemma trajectory_loop_returned h fuel :
  forall a acc t,
    trajectory_loop fuel h a acc = Ret t ->
    exists l, chain_to_root h a l
              /\ (length t + 1 = length acc + length l)%nat.
Proof.
  induction fuel as [|fuel IH]; intros a acc t H; cbn [trajectory_loop] in H;
    (destruct (h !! a) as [n|] eqn:Ha; [|discriminate]);
    (destruct (parent n) as [p|] eqn:Hp;
     [| injection H as <-; exists [a]; split;
        [ eapply Chain.walk_stop; [exact Ha|]; unfold no_parent; rewrite Hp;
          reflexivity
        | simpl; lia ]]).
  - discriminate.
  - apply IH in H as (l & Hw & Hlen).
    exists (a :: l). split.
    + eapply Chain.walk_step; [exact Ha | | exact Hp | exact Hw].
      unfold no_parent. rewrite Hp. reflexivity.
    + simpl in *. lia.
Qed.


Lemma chain_to_root_unbump (h : list (Node E)) r c a l :
  chain_to_root (alter (bump r) c h) a l -> chain_to_root h a l.
Proof.
  apply ChainFacts.walk_ext. intros b n Hb.
  destruct (decide (c = b)) as [<- | Hne].
  - rewrite list_lookup_alter_eq in Hb.
    destruct (h !! c) as [n0|]; [|discriminate].
    injection Hb as <-. exists n0. auto.
  - rewrite list_lookup_alter_ne in Hb by exact Hne. exists n. auto.
Qed.

Lemma back_propagation_returned fuel :
  forall (s : Agent E) a r s',
    back_propagation fuel (Some a) r s = Ret (tt, s') ->
    exists l, chain_to_root (heap s) a l /\ (length l <= fuel)%nat
              /\ s' = with_heap (Chain.alter_all (bump r) l (heap s)) s.
Proof.
  induction fuel as [|fuel IH]; intros s a r s' H; [discriminate|].
  cbn [back_propagation] in H.
  destruct (heap s !! a) as [n|] eqn:Ha.
  - erewrite bind_eq in H by (eapply update_eq; exact Ha).
    erewrite bind_eq in H
      by (eapply deref_eq; simpl; rewrite list_lookup_alter_eq, Ha; reflexivity).
    cbn [parent bump] in H.
    destruct (parent n) as [p|] eqn:Hp.
    + apply IH in H as (l & Hw & Hlen & ->).
      exists (a :: l). split; [|split].
      * eapply Chain.walk_step; [exact Ha | | exact Hp |].
        -- unfold no_parent. rewrite Hp. reflexivity.
        -- eapply chain_to_root_unbump. exact Hw.
      * simpl. lia.
      * reflexivity.
    + rewrite back_propagation_None in H. injection H as <-.
      exists [a]. split; [|split].
      * eapply Chain.walk_stop; [exact Ha|]. unfold no_parent. rewrite Hp. reflexivity.
      * simpl. lia.
      * reflexivity.
  - unfold bind at 1 in H. unfold update, bind, deref in H. rewrite Ha in H.
    discriminate.
Qed.

End Facts.

(** X1.  [Node.trajectory_from_root] follows the parent chain of the
    node up to the node with no parent and answers the actions stored at
    the nodes it passes, the one nearest to the root first and the
    root's own left out; it returns only when that chain exists, and its
    answer is one shorter than the chain. *)
Theorem trajectory_from_root_reads_chain (E : Collaborators)
    (h : list (Node E)) (a : nat) :
  (forall l fuel,
     chain_to_root h a l -> (length l <= S fuel)%nat ->
     trajectory_from_root fuel h a
     = Ret (reverse ((fun c => h !! c ≫= @action E)
                       <$> take (length l - 1) l)))
  /\ (forall fuel t,
        trajectory_from_root fuel h a = Ret t ->
        exists l, chain_to_root h a l /\ length l = S (length t)).
Proof.
  split.
  - intros l fuel Hw Hlen. unfold trajectory_from_root.
    rewrite (trajectory_loop_along_chain Hw) by exact Hlen.
    apply f_equal, app_nil_r.
  - intros fuel t H. unfold trajectory_from_root in H.
    apply trajectory_loop_returned in H as (l & Hw & Hlen).
    exists l. split; [exact Hw | simpl in Hlen; lia].
Qed.

(** X2.  [Node.reroute] along a path of distinct nodes that ends at the
    node itself, with one action per step of the path: every node of the
    path but the first gets the node before it as parent and the action
    of that step as action; the first node of the path and the nodes off
    the path are left as they were, and no field other than [parent]
    and [action] changes anywhere. *)
Theorem reroute_relinks_path (E : Collaborators) (self : nat)
    (path : list nat) (actions : list (Action E)) (h : list (Node E)) :
  NoDup path -> last path = Some self ->
  length path = S (length actions) ->
  (forall c, c ∈ path -> is_Some (h !! c)) ->
  exists h',
    reroute self path actions h = Ret (tt, h')
    /\ length h' = length h
    /\ (forall j p c a m,
          path !! j = Some p -> path !! S j = Some c ->
          actions !! j = Some a -> h !! c = Some m ->
          h' !! c = Some (relinked p a m))
    /\ (forall b, b ∉ drop 1 path -> h' !! b = h !! b)
    /\ (forall c m m',
          h !! c = Some m -> h' !! c = Some m' ->
          id m' = id m /\ total_value m' = total_value m
          /\ visits m' = visits m /\ is_leaf m' = is_leaf m
          /\ chosen m' = chosen m /\ unreachable m' = unreachable m).
Proof.
  intros Hnd Hlast Hlen Hval.
  destruct (@reroute_spec E self path actions h Hnd Hlast Hlen Hval)
    as (h' & Hrun & Hlen' & Hin & Hout).
  exists h'. repeat (split; [assumption|]).
  intros c m m' Hm Hm'.
  destruct (decide (c ∈ drop 1 path)) as [Hc | Hc].
  - apply list_elem_of_lookup_1 in Hc as [k Hk]. rewrite lookup_drop in Hk.
    assert (S k < length path)%nat as Hlt by (eapply lookup_lt_Some; exact Hk).
    destruct (lookup_lt_is_Some_2 path k) as [p Hp]; [lia|].
    destruct (lookup_lt_is_Some_2 actions k) as [a Ha]; [lia|].
    rewrite (Hin _ _ _ _ _ Hp Hk Ha Hm) in Hm'. injection Hm' as <-.
    repeat split.
  - rewrite (Hout _ Hc), Hm in Hm'. injection Hm' as <-. repeat split.
Qed.

(** X3.  [Node.reroute] with fewer actions than the path has steps
    raises [IndexError]. *)
Theorem reroute_too_few_actions (E : Collaborators) (self : nat)
    (path : list nat) (actions : list (Action E)) (h : list (Node E)) :
  (S (length actions) < length path)%nat ->
  is_Some (h !! self) -> (forall c, c ∈ path -> is_Some (h !! c)) ->
  reroute self path actions h = Raise IndexError.
Proof.
  intros Hlen Hself Hval. unfold reroute.
  unfold bind. rewrite reroute_loop_short; [reflexivity | | | | exact Hself |].
  - lia.
  - rewrite !length_reverse. lia.
  - rewrite !length_reverse. lia.
  - intros c Hc. apply Hval. apply elem_of_reverse. exact Hc.
Qed.

(** X4.  Rerouting a node along a path that starts at a node with no
    parent, and then asking for its trajectory from the root, gives back
    the actions the path was rerouted with. *)
Theorem reroute_then_trajectory_from_root (E : Collaborators) (self : nat)
    (path : list nat) (actions : list (Action E)) (h : list (Node E))
    (fuel : nat) :
  NoDup path -> last path = Some self ->
  length path = S (length actions) ->
  (forall c, c ∈ path -> is_Some (h !! c)) ->
  (forall p0 n0, path !! 0%nat = Some p0 -> h !! p0 = Some n0 ->
                 parent n0 = None) ->
  (length actions <= fuel)%nat ->
  exists h',
    reroute self path actions h = Ret (tt, h')
    /\ trajectory_from_root fuel h' self = Ret (Some <$> actions).
Proof.
  intros Hnd Hlast Hlen Hval Hroot Hfuel.
  destruct (@reroute_spec E self path actions h Hnd Hlast Hlen Hval)
    as (h' & Hrun & Hlen' & Hin & Hout).
  exists h'. split; [exact Hrun|].
  unfold trajectory_from_root.
  rewrite (@trajectory_after_reroute E path actions h h' Hnd Hlen Hval Hroot
             Hin Hout (length actions) fuel [] self).
  - rewrite app_nil_r, firstn_all. reflexivity.
  - exact Hfuel.
  - rewrite last_lookup in Hlast. rewrite <- Hlast. f_equal. lia.
Qed.

(** X5.  The graph-search [back_propagation] returns exactly when the
    parent chain of the node ends at a node with no parent: when it
    returns it has updated that chain and nothing else, and on a chain
    of parents that never ends (a cycle) it does not return. *)
Theorem back_propagation_returns_iff_rooted (E : Collaborators)
    (s : Agent E) (a : nat) (r : R) :
  (forall fuel s',
     back_propagation fuel (Some a) r s = Ret (tt, s') ->
     exists l, chain_to_root (heap s) a l /\ (length l <= fuel)%nat
               /\ s' = with_heap (Chain.alter_all (bump r) l (heap s)) s)
  /\ (forall l,
        chain_to_root (heap s) a l ->
        back_propagation (length l) (Some a) r s
        = Ret (tt, with_heap (Chain.alter_all (bump r) l (heap s)) s)).
Proof.
  split.
  - intros fuel s'. apply back_propagation_returned.
  - intros l Hw. apply back_propagation_along_chain; [exact Hw | lia].
Qed.

End NodeFacts.
(** * Moving the root and walking to a node of the graph search *)

Module RootFacts.
Import Py PyFacts MCGS MCGSFacts.

(** X24.  When the store finds a path from the current node to the
    destination that has no action on it, the loop of [go_to_node]
    makes no progress and never returns. *)
Theorem go_to_node_hangs_on_empty_path (E : Collaborators)
    (G : GraphAlgorithms E) (dest node : nat) (env : GameState E)
    (s : Agent E) (observations : list string) :
  has_path G (heap s) (graph s) node dest = true ->
  get_path G (heap s) (graph s) node dest = Ret (observations, []) ->
  (forall fuel, go_to_node_loop G fuel dest node env s = OutOfFuel)
  /\ (get_node_info (heap s) (graph s) (get_observation env) = Ret node ->
      forall fuel, go_to_node G fuel dest env s = OutOfFuel).
Proof.
  intros Hpath Hget.
  assert (forall fuel, go_to_node_loop G fuel dest node env s = OutOfFuel)
    as Hloop.
  { induction fuel as [|fuel IH]; cbn [go_to_node_loop];
      unfold bind at 1, get; rewrite Hpath; [reflexivity|].
    rewrite Hget. unfold bind at 1, lift. cbn [fst snd follow_path].
    unfold bind at 1, ret. cbn [fst snd]. exact IH. }
  split; [exact Hloop|].
  intros Hnode fuel. unfold go_to_node, bind at 1, get.
  rewrite Hnode. unfold bind at 1, lift. unfold bind at 1.
  rewrite Hloop. reflexivity.
Qed.

(** X25.  [set_root_node] makes the node that carries the observation of
    the game state the root, in the agent and in the store.  It issues
    no forward-model call and changes no fingerprint, node list or edge
    list.  When the observation is that of the old root no node
    changes; otherwise, when no path leads from the new root back to
    the old one, the only change is that the new root is flagged
    [chosen] and loses its parent. *)
Theorem set_root_node_moves_root (E : Collaborators) (G : GraphAlgorithms E)
    (gs : GameState E) (s s' : Agent E) :
  keeps_ids G ->
  set_root_node G gs s = Ret (tt, s') ->
  exists a n old,
    get_node_info (heap s) (graph s) (get_observation gs) = Ret a
    /\ heap s !! a = Some n /\ heap s !! root_node s = Some old
    /\ root_node s' = a
    /\ graph s' = graph_set_root_node (graph s) a
    /\ @id E <$> heap s' = @id E <$> heap s
    /\ forward_model_calls s' = forward_model_calls s
    /\ fm_advances s' = fm_advances s
    /\ (id n = id old -> heap s' = heap s)
    /\ (id n <> id old ->
        has_path G (<[a := set_parent None (set_chosen true n)]> (heap s))
          (graph_set_root_node (graph s) a) a (root_node s) = false ->
        heap s' = <[a := set_parent None (set_chosen true n)]> (heap s)).
Proof.
  intros HG H. unfold set_root_node in H.
  apply bind_Ret in H as (old_root & s1 & H1 & H). injection H1 as <- <-.
  apply bind_Ret in H as (s0 & s1 & H0 & H). injection H0 as <- <-.
  apply bind_Ret in H as (a & s1 & H1 & H). apply lift_Ret in H1 as [Ha ->].
  apply bind_Ret in H as (u & s1 & H1 & H). injection H1 as _ <-.
  apply bind_Ret in H as (u1 & s1 & H1 & H). injection H1 as _ <-.
  apply bind_Ret in H as (n & s1 & H1 & H).
  unfold deref in H1. cbn [heap with_graph with_root_node] in H1.
  destruct (heap s !! a) as [n0|] eqn:Hn; [|discriminate].
  injection H1 as <- <-.
  apply bind_Ret in H as (old & s1 & H1 & H).
  unfold deref in H1. cbn [heap with_graph with_root_node] in H1.
  destruct (heap s !! root_node s) as [old0|] eqn:Hold; [|discriminate].
  injection H1 as <- <-.
  exists a, n0, old0. split; [exact Ha|]. split; [exact Hn|].
  split; [first [exact Hold | reflexivity]|].
  destruct (String.eqb_spec (id n0) (id old0)) as [Heq | Hne]; cbn [negb] in H.
  - injection H as <-.
    cbn [root_node graph heap forward_model_calls fm_advances with_graph
         with_root_node].
    repeat split. intros Hne. contradiction.
  - assert (a < length (heap s))%nat as Hlt
      by (eapply lookup_lt_Some; exact Hn).
    apply bind_Ret in H as (u2 & s1 & H1 & H).
    unfold update in H1.
    erewrite bind_eq in H1
      by (apply deref_eq; cbn [heap with_graph with_root_node]; exact Hn).
    injection H1 as _ <-.
    apply bind_Ret in H as (u3 & s1 & H1 & H).
    unfold update in H1.
    erewrite bind_eq in H1
      by (apply deref_eq; cbn [heap with_heap];
          apply list_lookup_insert_eq; exact Hlt).
    injection H1 as _ <-.
    cbn [heap with_heap with_graph with_root_node] in H.
    rewrite list_insert_insert_eq in H.
    set (h1 := <[a := set_parent None (set_chosen true n0)]> (heap s)) in *.
    assert (@id E <$> h1 = @id E <$> heap s) as Hids1.
    { subst h1.
      apply (@ids_insert E (heap s) a n0
               (fun m => set_parent None (set_chosen true m)) Hn eq_refl). }
    apply bind_Ret in H as (s0 & s1 & H0 & H). injection H0 as <- <-.
    cbn [heap graph with_heap with_graph with_root_node] in H.
    change (<[a := set_parent None (set_chosen true n0)]> (heap s)) with h1.
    destruct (has_path G h1 (graph_set_root_node (graph s) a) a (root_node s))
      eqn:Hpath.
    + apply bind_Ret in H as (h & s1 & H1 & H).
      apply lift_Ret in H1 as [Hre ->].
      apply bind_Ret in H as (u4 & s1 & H1 & H). injection H1 as _ <-.
      apply bind_Ret in H as (root & s1 & H1 & H).
      unfold deref in H1. cbn [heap with_heap] in H1.
      destruct (h !! root_node s) as [r0|] eqn:Hr; [|discriminate].
      injection H1 as <- <-.
      apply bind_Ret in H as (s0 & s1 & H0 & H). injection H0 as <- <-.
      apply bind_Ret in H as (e & s1 & H1 & H).
      apply lift_Ret in H1 as [_ ->].
      unfold update in H.
      erewrite bind_eq in H by (apply deref_eq; cbn [heap with_heap]; exact Hr).
      injection H as <-.
      cbn [root_node graph heap forward_model_calls fm_advances with_heap
           with_graph with_root_node].
      split; [reflexivity|]. split; [reflexivity|].
      split; [|repeat split; [intros; contradiction | discriminate]].
      rewrite (@ids_insert E h (root_node s) r0
                 (fun m => set_action (Some (edge_action e)) m) Hr eq_refl).
      rewrite (proj1 HG _ _ _ _ _ Hre). exact Hids1.
    + injection H as <-.
      cbn [root_node graph heap forward_model_calls fm_advances with_heap
           with_graph with_root_node].
      split; [reflexivity|]. split; [reflexivity|].
      split; [exact Hids1|]. repeat split. intros; contradiction.
Qed.

End RootFacts.
(** ** The graph-search agent: the budget in iterations, and expansion *)

Module GraphSearchFacts.
Import Py PyFacts MCGS MCGSFacts.


Section Iterations.

Context (E : Collaborators) (G : GraphAlgorithms E).

Lemma stable_iteration_count bt n m :
  stable (fun s : Agent E =>
            budget_type s = bt /\ num_iterations s = n /\ max_iterations s = m)
         (fun _ _ => True).
Proof. split; simpl; intros; tauto. Qed.

(** No method below [plan] touches [num_iterations] or the budget
    settings. *)
Lemma plan_iteration_keeps_count fuel gs (s s' : Agent E) u :
  plan_iteration G fuel gs s = Ret (u, s') ->
  budget_type s' = budget_type s
  /\ num_iterations s' = num_iterations s
  /\ max_iterations s' = max_iterations s.
Proof.
  intros H.
  exact (pres_plan_iteration G
           (stable_iteration_count (budget_type s) (num_iterations s)
              (max_iterations s))
           fuel gs s (conj eq_refl (conj eq_refl eq_refl)) H).
Qed.

Lemma plan_loop_never_returns fuel :
  forall gs (s : Agent E) u s',
    budget_type s = OTHER_BUDGET
    \/ (budget_type s = MAX_ITERATIONS
        /\ num_iterations s < max_iterations s) ->
    plan_loop G fuel gs s <> Ret (u, s').
Proof.
  induction fuel as [|fuel IH]; intros gs s u s' Hmode H; simpl in H;
    unfold bind, get in H;
    (assert (is_budget_over s = false) as Hover
       by (unfold is_budget_over;
           destruct Hmode as [-> | [-> Hlt]]; [reflexivity | lia]));
    rewrite Hover in H.
  - discriminate H.
  - destruct (plan_iteration G (S fuel) gs s) as [[u1 s1]| |] eqn:Hit;
      try discriminate.
    destruct (plan_iteration_keeps_count _ _ _ Hit) as (Hb & Hn & Hm).
    apply (IH gs s1 u s'); [|exact H].
    rewrite Hb, Hn, Hm. exact Hmode.
Qed.

Lemma plan_never_returns fuel gs (s : Agent E) r s' :
  budget_type s = OTHER_BUDGET
  \/ (budget_type s = MAX_ITERATIONS /\ num_iterations s < max_iterations s) ->
  plan G fuel gs s <> Ret (r, s').
Proof.
  intros Hmode H. unfold plan in H.
  pose proof (stable_iteration_count (budget_type s) (num_iterations s)
                (max_iterations s)) as HI.
  apply bind_Ret in H as (u & s1 & H1 & H).
  apply (pres_set_root_node HI (reroutes_within_True G)) in H1;
    [|repeat split].
  apply bind_Ret in H as (s0 & s2 & H0 & H). injection H0 as <- <-.
  apply bind_Ret in H as (h & s2 & H2 & H). apply lift_Ret in H2 as [_ ->].
  apply bind_Ret in H as (u2 & s2 & H2 & H). injection H2 as _ <-.
  apply bind_Ret in H as (u3 & s3 & H3 & H).
  destruct H1 as (Hb & Hn & Hm).
  apply plan_loop_never_returns in H3; [exact H3|].
  simpl. rewrite Hb, Hn, Hm. exact Hmode.
Qed.

End Iterations.
(** *** Expansion *)

Section Expansion.

Context (E : Collaborators).

Lemma add_new_observation_frame o p a r (s : Agent E) res s' :
  add_new_observation o p a r s = Ret (res, s') ->
  forward_model_calls s' = forward_model_calls s
  /\ fm_advances s' = fm_advances s
  /\ player_id s' = player_id s
  /\ root_node s' = root_node s.
Proof.
  intros H.
  assert (preserves
            (fun x => forward_model_calls x = forward_model_calls s
                      /\ fm_advances x = fm_advances s
                      /\ player_id x = player_id s
                      /\ root_node x = root_node s)
            (@add_new_observation E o p a r)) as Hp.
  { unfold add_new_observation, add_node, add_edge.
    repeat first
      [ apply pres_update_any; intros; simpl; assumption
      | apply preserves_modify; intros; simpl; assumption
      | apply pres_deref_any
      | apply pres_new_object; intros; simpl; assumption
      | pres_step ]. }
  eapply Hp; [repeat split | exact H].
Qed.

Lemma add_new_observation_keeps_nodes o p a r (s : Agent E) res s' :
  add_new_observation o p a r s = Ret (res, s') ->
  (@id E <$> heap s) `prefix_of` (@id E <$> heap s').
Proof.
  intros H.
  eapply (pres_add_new_observation
            (stable_nodes_persist E (@id E <$> heap s))); [|exact H].
  unfold nodes_persist. reflexivity.
Qed.

Lemma graph_expansion_loop node env player actions :
  forall (acc : list nat * list (Action E)) (s : Agent E) res s',
    for_each actions acc
      (fun (acc : list nat * list (Action E)) action =>
         bind (advance env action) (fun expansion_env =>
         bind (@count_forward_model_call E) (fun _ =>
         bind (add_new_observation (get_observation expansion_env) node
                 action (evaluate_state expansion_env player)) (fun res =>
         ret (fst acc ++ [fst res], snd acc ++ [action])))))
      s = Ret (res, s') ->
    exists cs,
      res = (fst acc ++ cs, snd acc ++ actions)
      /\ length cs = length actions
      /\ (forall i c a,
            cs !! i = Some c -> actions !! i = Some a ->
            (@id E <$> heap s') !! c
            = Some (get_observation (advance_gamestate E env a)))
      /\ (@id E <$> heap s) `prefix_of` (@id E <$> heap s')
      /\ (length (heap s') <= length (heap s) + length actions)%nat
      /\ forward_model_calls s'
         = forward_model_calls s + Z.of_nat (length actions)
      /\ fm_advances s' = fm_advances s + Z.of_nat (length actions)
      /\ player_id s' = player_id s
      /\ root_node s' = root_node s.
Proof.
  induction actions as [|a actions IH]; intros acc s res s' H.
  - injection H as <- <-. exists []. rewrite !app_nil_r.
    destruct acc. simpl. repeat split; try lia; try reflexivity.
    intros i c a Hc. discriminate.
  - apply for_each_cons_Ret in H as (acc1 & s1 & H1 & H).
    apply bind_Ret in H1 as (env1 & s2 & H2 & H1). injection H2 as <- <-.
    apply bind_Ret in H1 as (u & s2 & H2 & H1). injection H2 as _ <-.
    apply bind_Ret in H1 as ([c v] & s2 & H2 & H1). injection H1 as <- <-.
    destruct (add_new_observation_frame _ _ _ _ _ H2) as (Hfc & Hadv & Hpl & Hroot).
    pose proof (add_new_observation_keeps_nodes _ _ _ _ _ H2) as Hpre.
    destruct (add_new_observation_creates_or_fetches _ _ _ _ _ H2)
      as [Hc Hcase].
    assert (length (heap s2) <= S (length (heap s)))%nat as Hlen1.
    { destruct (has_node _ _ _); destruct Hcase as [_ ->]; simpl; lia. }
    apply IH in H as (cs & -> & Hlen & Hobs & Hpre' & Hlen' & Hfc' & Hadv'
                      & Hpl' & Hroot').
    exists (c :: cs). cbn [fst snd length] in *.
    split; [rewrite <- !app_assoc; reflexivity|].
    split; [lia|]. split; [|split; [|split; [lia|]]].
    + intros [|i] c' a' Hc' Ha'.
      * injection Hc' as <-. injection Ha' as <-.
        eapply prefix_lookup_Some; [exact Hc | exact Hpre'].
      * eapply Hobs; eassumption.
    + etransitivity; [exact Hpre | exact Hpre'].
    + simpl in Hfc, Hadv, Hpl, Hroot. repeat split; lia || congruence.
Qed.

End Expansion.

(** *** Simulation without legal actions *)

Section Simulation.

Context (E : Collaborators).

Lemma random_choice_many_empty {A} size (s : Agent E) :
  0 < size -> random_choice_many (@nil A) size s = Raise ValueError.
Proof.
  intros Hsize. unfold random_choice_many.
  destruct (Z.ltb_spec size 0); [lia|].
  destruct (Z.eqb_spec size 0); [lia|].
  unfold range. destruct (Z.to_nat size) eqn:Hn; [lia|]. reflexivity.
Qed.

End Simulation.

(** X7.  The graph-search planning loop never adds to [num_iterations]:
    a pass through its body leaves the counter and the budget settings
    as they were.  So under the [MAX_ITERATIONS] budget with a positive
    bound, and under a budget type that is none of the three known
    ones, [is_budget_over] stays false and [compute_action] never
    returns: whatever the fuel, the run raises or is still looping. *)
Theorem graph_search_never_counts_iterations (E : Collaborators)
    (G : GraphAlgorithms E) (gs : GameState E) (s : Agent E) :
  budget_type s = OTHER_BUDGET
  \/ (budget_type s = MAX_ITERATIONS /\ 0 < max_iterations s) ->
  (forall fuel r s', compute_action G fuel gs s <> Ret (r, s'))
  /\ (forall fuel s1 s2 u,
        plan_iteration G fuel gs s1 = Ret (u, s2) ->
        num_iterations s2 = num_iterations s1).
Proof.
  intros Hmode. split.
  - intros fuel r s' H. unfold compute_action in H.
    apply bind_Ret in H as (u & s1 & H1 & H). injection H1 as _ <-.
    apply bind_Ret in H as (player & s1 & H1 & H). injection H1 as _ <-.
    apply bind_Ret in H as (a & s1 & H1 & H).
    apply plan_never_returns in H1; [exact H1|].
    simpl. destruct Hmode as [Hb | [Hb Hm]]; [left; exact Hb|].
    right. split; [exact Hb | exact Hm].
  - intros fuel s1 s2 u H.
    apply (plan_iteration_keeps_count G _ _ _ H).
Qed.

(** What [expansion] answers and what it leaves. *)
Lemma graph_expansion_spec (E : Collaborators)
    (node : nat) (env : GameState E) (s s' : Agent E)
    (children : list nat) (actions : list (Action E)) :
  expansion node env s = Ret ((children, actions), s') ->
  actions = generate_actions E env (player_id s)
  /\ length children = length actions
  /\ (forall i c a,
        children !! i = Some c -> actions !! i = Some a ->
        (@id E <$> heap s') !! c
        = Some (get_observation (advance_gamestate E env a)))
  /\ (@id E <$> heap s) `prefix_of` (@id E <$> heap s')
  /\ (length (heap s') <= length (heap s) + length actions)%nat
  /\ forward_model_calls s'
     = forward_model_calls s + Z.of_nat (length actions)
  /\ fm_advances s' = fm_advances s + Z.of_nat (length actions).
Proof.
  intros H. unfold expansion in H.
  apply bind_Ret in H as (n & s0 & Hn & H).
  unfold deref in Hn. destruct (heap s !! node) as [n0|] eqn:Hnode;
    [|discriminate].
  injection Hn as <- <-.
  apply bind_Ret in H as (u & s1 & H1 & H).
  assert (@id E <$> heap s1 = @id E <$> heap s
          /\ forward_model_calls s1 = forward_model_calls s
          /\ fm_advances s1 = fm_advances s
          /\ player_id s1 = player_id s) as (Hids & Hfc & Hadv & Hpl).
  { destruct (is_leaf n0).
    - apply bind_Ret in H1 as (u1 & s2 & H2 & H1). injection H1 as _ <-.
      unfold update in H2.
      erewrite bind_eq in H2 by (apply deref_eq; exact Hnode).
      injection H2 as _ <-.
      cbn [heap with_graph with_heap forward_model_calls fm_advances
           player_id].
      split; [apply ids_insert; [exact Hnode | reflexivity]|].
      repeat split.
    - injection H1 as _ <-. repeat split. }
  apply bind_Ret in H as (player & s2 & H2 & H). injection H2 as <- <-.
  apply graph_expansion_loop in H
    as (cs & Hres & Hlen & Hobs & Hpre & Hlen' & Hfc' & Hadv' & _).
  simpl in Hres. injection Hres as -> ->.
  rewrite Hpl in *. rewrite Hids in Hpre.
  assert (length (heap s1) = length (heap s)) as Hl.
  { rewrite <- (length_fmap (@id E) (heap s1)), Hids. apply length_fmap. }
  repeat split; try assumption; lia.
Qed.

(** X16.  The graph-search [expansion] answers one child per legal
    action, in the order of the actions: the node that carries the
    observation the action leads to.  It issues and counts one
    forward-model call per action, constructs at most one node per
    action and destroys none. *)
Theorem graph_expansion_answers_successor_nodes (E : Collaborators)
    (node : nat) (env : GameState E) (s s' : Agent E)
    (children : list nat) (actions : list (Action E)) :
  expansion node env s = Ret ((children, actions), s') ->
  actions = generate_actions E env (player_id s)
  /\ length children = length actions
  /\ (forall i c a,
        children !! i = Some c -> actions !! i = Some a ->
        (@id E <$> heap s') !! c
        = Some (get_observation (advance_gamestate E env a)))
  /\ (@id E <$> heap s) `prefix_of` (@id E <$> heap s')
  /\ (length (heap s') <= length (heap s) + length actions)%nat
  /\ forward_model_calls s'
     = forward_model_calls s + Z.of_nat (length actions)
  /\ fm_advances s' = fm_advances s + Z.of_nat (length actions).
Proof. apply graph_expansion_spec. Qed.

(** X17.  In a state that holds one node per fingerprint, an action that
    leaves the observation as it is makes the expanded node its own
    child: [expansion] answers the node itself for that action. *)
Theorem graph_expansion_unchanged_observation (E : Collaborators)
    (node : nat) (n : Node E) (env : GameState E) (s s' : Agent E)
    (children : list nat) (actions : list (Action E))
    (i : nat) (a : Action E) :
  Dedup s -> heap s !! node = Some n ->
  expansion node env s = Ret ((children, actions), s') ->
  actions !! i = Some a ->
  get_observation (advance_gamestate E env a) = id n ->
  children !! i = Some node.
Proof.
  intros Hs Hn H Ha Hobs.
  assert (Dedup s') as [_ Hnd].
  { eapply (pres_expansion (stable_Dedup E)); [exact Hs | exact H]. }
  destruct (graph_expansion_spec _ _ _ H)
    as (_ & Hlen & Hchild & Hpre & _).
  destruct (lookup_lt_is_Some_2 children i) as [c Hc].
  { rewrite Hlen. eapply lookup_lt_Some. exact Ha. }
  rewrite Hc. f_equal.
  eapply NoDup_lookup; [exact Hnd | |].
  - rewrite (Hchild _ _ _ Hc Ha). rewrite Hobs. reflexivity.
  - eapply prefix_lookup_Some; [|exact Hpre].
    rewrite list_lookup_fmap, Hn. reflexivity.
Qed.

(** X18.  [sequential_simulation] in a state with no legal action raises
    [ValueError] (sampling from an empty sequence), whenever a rollout
    is asked for and its depth is positive. *)
Theorem sequential_simulation_without_actions (E : Collaborators)
    (a : Action E) (env : GameState E) (s : Agent E) :
  generate_actions E env (player_id s) = [] ->
  0 < num_rollouts s -> 0 < rollout_depth s ->
  sequential_simulation a env s = Raise ValueError.
Proof.
  intros Hacts Hn Hd. unfold sequential_simulation.
  erewrite bind_eq by reflexivity. unfold range.
  destruct (Z.to_nat (num_rollouts s)) as [|k] eqn:Hk; [lia|].
  cbn [seq for_each]. unfold bind at 1, bind at 1.
  assert (simulation_round a env ([], []) 0%nat s = Raise ValueError) as ->;
    [|reflexivity].
  unfold simulation_round.
  erewrite bind_eq by reflexivity. rewrite Hacts.
  erewrite bind_eq by reflexivity. unfold bind at 1.
  rewrite random_choice_many_empty by exact Hd. reflexivity.
Qed.

End GraphSearchFacts.
(** ** The tree-search agent: iterations, selection, expansion, the
    choice of a child, and rollouts under a budget *)

Module TreeFacts.
Import Py PyFacts MCTS MCTSFacts.


Section Stable.

Context (E : Collaborators).
Context (I : Agent E -> Prop) (HI : stable I).

Lemma tree_pres_deref a : preserves I (@deref E a).
Proof.
  intros s n s' Hs H. unfold deref in H.
  destruct (heap s !! a); [|discriminate]. injection H as _ <-. exact Hs.
Qed.

Lemma tree_pres_update a (f : Node -> Node) : preserves I (@update E a f).
Proof.
  intros s u s' Hs H. unfold update in H.
  apply bind_Ret in H as (n & s1 & H1 & H2).
  unfold deref in H1. destruct (heap s !! a); [|discriminate].
  injection H1 as <- <-. injection H2 as _ <-.
  apply (stable_heap HI). exact Hs.
Qed.

Lemma tree_pres_new_object (n : Node) : preserves I (@new_object E n).
Proof. intros s a s' Hs H. injection H as _ <-. apply (stable_heap HI). exact Hs. Qed.

Lemma tree_pres_advance (env : GameState E) a : preserves I (advance env a).
Proof. intros s b s' Hs H. injection H as _ <-. apply (stable_advance HI). exact Hs. Qed.

(** A forward-model call together with its count. *)
Lemma tree_pres_call {A} (env : GameState E) a
    (k : GameState E -> M (Agent E) A) :
  (forall env', preserves I (k env')) ->
  preserves I (bind (advance env a)
                 (fun env' => bind (@count_forward_model_call E)
                                (fun _ => k env'))).
Proof.
  intros Hk s b s' Hs H.
  apply bind_Ret in H as (env' & s1 & H1 & H).
  apply bind_Ret in H as (u & s2 & H2 & H).
  injection H1 as <- <-. injection H2 as _ <-.
  eapply Hk; [|exact H].
  apply (stable_call HI). exact Hs.
Qed.

Lemma tree_pres_random_choice {A} (l : list A) :
  preserves I (@random_choice E A l).
Proof.
  unfold random_choice. destruct l as [|d l]; [apply preserves_raise|].
  apply preserves_bind; [apply preserves_get|]. intros s.
  destruct (draw E (random s) (length (d :: l))) as [i r].
  apply preserves_bind; [|intros; apply preserves_ret].
  apply preserves_modify. intros s0. apply (stable_random HI).
Qed.

Ltac tree_stable_solve :=
  first [ apply (stable_graph HI); assumption
        | apply (stable_random HI); assumption
        | apply (stable_node_counter HI); assumption
        | apply (stable_edge_counter HI); assumption
        | apply (stable_root_node HI); assumption
        | apply (stable_heap HI); assumption ].

Ltac tree_pres_step :=
  match goal with
  | |- preserves _ (let _ := _ in _) => cbv zeta
  | |- preserves _ (bind (advance _ _) (fun _ => bind count_forward_model_call _)) =>
      apply tree_pres_call
  | |- preserves _ (advance _ _) => apply tree_pres_advance
  | |- preserves _ (update _ _) => apply tree_pres_update
  | |- preserves _ (deref _) => apply tree_pres_deref
  | |- preserves _ (new_object _) => apply tree_pres_new_object
  | |- preserves _ (random_choice _) => apply tree_pres_random_choice
  | |- preserves _ (add_node _) =>
      apply preserves_modify; intros; tree_stable_solve
  | |- preserves _ (modify _) => apply preserves_modify; intros; tree_stable_solve
  | _ => pres_step
  end.

Ltac tree_pres := repeat tree_pres_step.

Lemma tree_pres_select_child node : preserves I (@select_child E node).
Proof. unfold select_child. tree_pres. Qed.

Lemma tree_pres_selection fuel :
  forall node env, preserves I (@selection E fuel node env).
Proof.
  induction fuel as [|fuel IH]; intros node env; simpl; tree_pres;
    try apply tree_pres_select_child.
Qed.

Lemma tree_pres_expansion node env : preserves I (@expansion E node env).
Proof. unfold expansion. tree_pres. Qed.

Lemma tree_pres_rollout_loop fuel :
  forall env cum, preserves I (@rollout_loop E fuel env cum).
Proof.
  induction fuel as [|fuel IH]; intros env cum; simpl; tree_pres.
Qed.

Lemma tree_pres_simulation fuel node env :
  preserves I (@simulation E fuel node env).
Proof.
  unfold simulation, rollout. tree_pres. apply tree_pres_rollout_loop.
Qed.

Lemma tree_pres_back_propagation fuel :
  forall node v, preserves I (@back_propagation E fuel node v).
Proof.
  induction fuel as [|fuel IH]; intros [a|] v; simpl; tree_pres.
Qed.

Lemma tree_pres_get_best_action node : preserves I (@get_best_action E node).
Proof. unfold get_best_action. tree_pres. apply tree_pres_select_child. Qed.

End Stable.
(** *** The budget in iterations *)

Section Iterations.

Context (E : Collaborators).

Lemma stable_iteration_settings bt n m :
  stable (fun s : Agent E =>
            budget_type s = bt /\ num_iterations s = n /\ max_iterations s = m).
Proof. split; simpl; intros; tauto. Qed.

(** One pass of the loop of [plan] adds one to [num_iterations] and
    leaves the budget settings alone. *)
Lemma plan_iteration_counts fuel gs (s s' : Agent E) u :
  plan_iteration fuel gs s = Ret (u, s') ->
  budget_type s' = budget_type s
  /\ num_iterations s' = num_iterations s + 1
  /\ max_iterations s' = max_iterations s.
Proof.
  intros H. unfold plan_iteration in H.
  pose proof (stable_iteration_settings (budget_type s) (num_iterations s)
                (max_iterations s)) as HI.
  apply bind_Ret in H as (root & s0 & H0 & H). injection H0 as _ <-.
  apply bind_Ret in H as (sel & s1 & H1 & H).
  apply (tree_pres_selection HI) in H1; [|repeat split].
  apply bind_Ret in H as (children & s2 & H2 & H).
  apply (tree_pres_expansion HI) in H2; [|exact H1].
  apply bind_Ret in H as (u' & s3 & H3 & H).
  assert (budget_type s3 = budget_type s
          /\ num_iterations s3 = num_iterations s
          /\ max_iterations s3 = max_iterations s) as (Hb & Hn & Hm).
  { match type of H3 with
    | ?m s2 = _ =>
        assert (preserves
                  (fun x : Agent E =>
                     budget_type x = budget_type s
                     /\ num_iterations x = num_iterations s
                     /\ max_iterations x = max_iterations s) m) as Hp
    end.
    { apply preserves_for_each. intros acc child. apply preserves_bind.
      - apply (tree_pres_simulation HI).
      - intros v. apply (tree_pres_back_propagation HI). }
    exact (Hp _ _ _ H2 H3). }
  injection H as _ <-. simpl. repeat split; try assumption. lia.
Qed.

Lemma plan_loop_iterated fuel :
  forall gs (s s' : Agent E),
    budget_type s = MAX_ITERATIONS ->
    plan_loop fuel gs s = Ret (tt, s') ->
    iterated gs (Z.to_nat (max_iterations s - num_iterations s)) s s'
    /\ num_iterations s' = Z.max (num_iterations s) (max_iterations s).
Proof.
  induction fuel as [|fuel IH]; intros gs s s' Hbt H; simpl in H;
    unfold bind, get in H;
    (destruct (is_budget_over s) eqn:Hover;
     [ injection H as <-; unfold is_budget_over in Hover; rewrite Hbt in Hover;
       replace (Z.to_nat (max_iterations s - num_iterations s)) with O by lia;
       split; [apply iterated_O | lia] |]).
  - discriminate H.
  - destruct (plan_iteration (S fuel) gs s) as [[[] s1]| |] eqn:Hit;
      try discriminate.
    destruct (plan_iteration_counts _ _ _ Hit) as (Hb & Hn & Hm).
    destruct (IH gs s1 s') as [Hrun Hend]; [congruence | exact H |].
    unfold is_budget_over in Hover. rewrite Hbt in Hover.
    replace (Z.to_nat (max_iterations s - num_iterations s))
      with (S (Z.to_nat (max_iterations s1 - num_iterations s1))) by lia.
    split; [eapply iterated_S; eassumption | lia].
Qed.

End Iterations.

(** *** Choosing a child *)

Section Select.

Context (E : Collaborators).

Lemma fold_Rmax_ge (l : list R) :
  forall x, (x <= fold_left Rmax l x)%R
            /\ forall w, w ∈ l -> (w <= fold_left Rmax l x)%R.
Proof.
  induction l as [|y l IH]; intros x; simpl.
  - split; [lra|]. intros w Hw. apply elem_of_nil in Hw. contradiction.
  - destruct (IH (Rmax x y)) as [H1 H2]. split.
    + pose proof (Rmax_l x y). lra.
    + intros w Hw. apply elem_of_cons in Hw as [-> | Hw]; [|auto].
      pose proof (Rmax_r x y). lra.
Qed.

Lemma fold_Rmax_in (l : list R) : forall x, fold_left Rmax l x ∈ x :: l.
Proof.
  induction l as [|y l IH]; intros x; simpl.
  - apply list_elem_of_here.
  - specialize (IH (Rmax x y)). apply elem_of_cons in IH as [-> | IH].
    + unfold Rmax. destruct (Rle_dec x y).
      * apply list_elem_of_further, list_elem_of_here.
      * apply list_elem_of_here.
    + apply list_elem_of_further, list_elem_of_further. exact IH.
Qed.

Lemma index_of_first (m : R) (l : list R) :
  m ∈ l ->
  l !! index_of m l = Some m
  /\ forall j w, (j < index_of m l)%nat -> l !! j = Some w -> w <> m.
Proof.
  induction l as [|x l IH]; intros Hin.
  - apply elem_of_nil in Hin. contradiction.
  - simpl. destruct (Req_dec_T x m) as [-> | Hne].
    + split; [reflexivity|]. intros j w Hj. lia.
    + apply elem_of_cons in Hin as [-> | Hin]; [contradiction|].
      destruct (IH Hin) as [H1 H2]. split; [exact H1|].
      intros [|j] w Hj Hw.
      * injection Hw as <-. exact Hne.
      * apply (H2 j); [lia | exact Hw].
Qed.

(** [child_values.index(max(child_values))] is the first position that
    holds the largest value. *)
Lemma index_of_max_first (l : list R) i :
  index_of_max l = Ret i ->
  exists v, l !! i = Some v
            /\ forall j w, l !! j = Some w ->
                 (w <= v)%R /\ ((j < i)%nat -> (w < v)%R).
Proof.
  destruct l as [|x l]; [discriminate|]. unfold index_of_max.
  intros [= <-]. set (m := fold_left Rmax l x).
  destruct (index_of_first (fold_Rmax_in l x)) as [H1 H2].
  fold m in H1, H2. exists m. split; [exact H1|].
  intros j w Hw.
  assert (w <= m)%R as Hle.
  { destruct (fold_Rmax_ge l x) as [Hx Hl]. fold m in Hx, Hl.
    apply list_elem_of_lookup_2 in Hw.
    apply elem_of_cons in Hw as [-> | Hw]; [exact Hx | apply Hl; exact Hw]. }
  split; [exact Hle|]. intros Hj. pose proof (H2 j w Hj Hw). lra.
Qed.

Lemma map_outcome_Ret {A B} (f : A -> outcome B) (l : list A) :
  forall ys, map_outcome f l = Ret ys ->
    forall j c, l !! j = Some c ->
      exists w, f c = Ret w /\ ys !! j = Some w.
Proof.
  induction l as [|x l IH]; intros ys H j c Hc; [discriminate|].
  simpl in H. destruct (f x) as [y| |] eqn:Hx; try discriminate. simpl in H.
  destruct (map_outcome f l) as [ys'| |]; try discriminate. simpl in H.
  injection H as <-. destruct j as [|j].
  - injection Hc as <-. exists y. split; [exact Hx | reflexivity].
  - apply (IH ys' eq_refl j c Hc).
Qed.

Lemma map_outcome_length {A B} (f : A -> outcome B) (l : list A) :
  forall ys, map_outcome f l = Ret ys -> length ys = length l.
Proof.
  induction l as [|x l IH]; intros ys H; simpl in H.
  - injection H as <-. reflexivity.
  - destruct (f x) as [y| |]; try discriminate. simpl in H.
    destruct (map_outcome f l) as [ys'| |]; try discriminate. simpl in H.
    injection H as <-. simpl. f_equal. apply IH. reflexivity.
Qed.

(** [select_child] reads the state and leaves it as it is. *)
Lemma select_child_pure node (s : Agent E) r s' :
  select_child node s = Ret (r, s') -> s' = s.
Proof.
  intros H.
  assert (preserves (fun x => x = s) (@select_child E node)) as Hp.
  { unfold select_child. pres. }
  eapply Hp; [reflexivity | exact H].
Qed.

Lemma select_child_first_best node (s : Agent E) child a s' :
  select_child node s = Ret ((child, a), s') ->
  exists i v e,
    get_children (graph s) node !! i = Some child
    /\ uct_at (heap s) child = Ret v
    /\ (forall j c,
          get_children (graph s) node !! j = Some c ->
          exists w, uct_at (heap s) c = Ret w
                    /\ (w <= v)%R /\ ((j < i)%nat -> (w < v)%R))
    /\ get_edge_info (graph s) (Some node) child = Ret e
    /\ a = edge_action e.
Proof.
  intros H. unfold select_child in H.
  apply bind_Ret in H as (s0 & s1 & H0 & H). injection H0 as <- <-.
  apply bind_Ret in H as (es & s1 & H1 & H). apply lift_Ret in H1 as [_ ->].
  apply bind_Ret in H as (vals & s1 & H1 & H). apply lift_Ret in H1 as [Hvals ->].
  apply bind_Ret in H as (i & s1 & H1 & H). apply lift_Ret in H1 as [Hi ->].
  destruct (get_children (graph s) node !! i) as [c0|] eqn:Hc0; [|discriminate].
  apply bind_Ret in H as (e & s1 & H1 & H). apply lift_Ret in H1 as [He ->].
  injection H as <- <- _.
  destruct (index_of_max_first _ Hi) as (v & Hv & Hmax).
  destruct (map_outcome_Ret _ _ Hvals _ Hc0) as (v' & Hscore & Hv').
  assert (v' = v) as -> by congruence.
  exists i, v, e. repeat split; try assumption.
  intros j c Hc.
  destruct (map_outcome_Ret _ _ Hvals _ Hc) as (w & Hw & Hw').
  exists w. split; [exact Hw|]. apply (Hmax j w Hw').
Qed.

Lemma select_child_childless node (s : Agent E) :
  get_children (graph s) node = [] ->
  select_child node s = Raise ValueError.
Proof.
  intros H. unfold select_child, bind, get, lift. rewrite H. reflexivity.
Qed.

End Select.

(** *** Selection *)

Section Selection.

Context (E : Collaborators).

Lemma selection_descends fuel :
  forall node env (s : Agent E) leaf env' s',
    selection fuel node env s = Ret ((leaf, env'), s') ->
    (exists n, heap s !! leaf = Some n /\ is_leaf n = true)
    /\ exists actions : list (Action E),
         env' = fold_left (advance_gamestate E) actions env
         /\ (length actions <= fuel)%nat
         /\ forward_model_calls s'
            = forward_model_calls s + Z.of_nat (length actions)
         /\ fm_advances s' = fm_advances s + Z.of_nat (length actions)
         /\ heap s' = heap s /\ graph s' = graph s
         /\ root_node s' = root_node s
         /\ node_counter s' = node_counter s
         /\ edge_counter s' = edge_counter s
         /\ num_iterations s' = num_iterations s.
Proof.
  assert (forall node env (s : Agent E) n,
            heap s !! node = Some n -> is_leaf n = true ->
            (exists n, heap s !! node = Some n /\ is_leaf n = true)
            /\ exists actions : list (Action E),
                 env = fold_left (advance_gamestate E) actions env
                 /\ (length actions <= 0)%nat
                 /\ forward_model_calls s
                    = forward_model_calls s + Z.of_nat (length actions)
                 /\ fm_advances s = fm_advances s + Z.of_nat (length actions)
                 /\ heap s = heap s /\ graph s = graph s
                 /\ root_node s = root_node s
                 /\ node_counter s = node_counter s
                 /\ edge_counter s = edge_counter s
                 /\ num_iterations s = num_iterations s) as Hleaf.
  { intros node env s n Hn Hl. split; [eauto|].
    exists []. simpl. repeat split; lia. }
  induction fuel as [|fuel IH]; intros node env s leaf env' s' H;
    cbn [selection] in H;
    apply bind_Ret in H as (n & s0 & Hn & H);
    unfold deref in Hn;
    (destruct (heap s !! node) as [n0|] eqn:Hnode; [|discriminate]);
    injection Hn as <- <-;
    (destruct (is_leaf n0) eqn:Hl;
     [ injection H as <- <- <-;
       destruct (Hleaf node env s n0 Hnode Hl) as [H1 (acts & H2 & H3 & H4)];
       split; [exact H1|]; exists acts;
       split; [exact H2|]; split; [lia | exact H4] |]).
  - discriminate.
  - apply bind_Ret in H as (sel & s1 & Hsel & H).
    apply select_child_pure in Hsel as ->.
    apply bind_Ret in H as (env1 & s1 & H1 & H). injection H1 as <- <-.
    apply bind_Ret in H as (u & s1 & H1 & H). injection H1 as _ <-.
    apply IH in H as [Hfound (acts & Henv & Hlen & Hc & Ha & Hrest)].
    split; [exact Hfound|].
    exists (snd sel :: acts). split; [exact Henv|].
    split; [simpl; lia|].
    cbn [forward_model_calls fm_advances with_forward_model_calls
         with_fm_advances] in Hc, Ha.
    split; [rewrite Hc; cbn [length]; lia|].
    split; [rewrite Ha; cbn [length]; lia|].
    exact Hrest.
Qed.

Lemma selection_childless fuel node env (s : Agent E) n :
  heap s !! node = Some n -> is_leaf n = false ->
  get_children (graph s) node = [] ->
  selection (S fuel) node env s = Raise ValueError.
Proof.
  intros Hn Hl Hc. cbn [selection].
  erewrite bind_eq by (apply tree_deref_eq; exact Hn). rewrite Hl.
  unfold bind at 1. rewrite select_child_childless by exact Hc. reflexivity.
Qed.

Lemma tree_calls_added_0 (s : Agent E) : calls_added 0 s = s.
Proof.
  destruct s. unfold calls_added, with_forward_model_calls,
    with_fm_advances. simpl. rewrite !Z.add_0_r. reflexivity.
Qed.

Lemma tree_calls_added_add j k (s : Agent E) :
  calls_added k (calls_added j s) = calls_added (j + k) s.
Proof.
  unfold calls_added, with_forward_model_calls, with_fm_advances. simpl.
  rewrite !Z.add_assoc. reflexivity.
Qed.

(** [select_child] looks at the nodes and the edges only. *)
Lemma select_child_reads node (s s1 : Agent E) r :
  heap s1 = heap s -> graph s1 = graph s ->
  select_child node s = Ret (r, s) -> select_child node s1 = Ret (r, s1).
Proof.
  intros Hh Hg. unfold select_child, bind, get. rewrite Hh, Hg.
  repeat match goal with
         | |- context [lift ?o _] => destruct o; cbn [lift]; try discriminate
         | |- context [match ?l !! ?i with Some _ => _ | None => _ end] =>
             destruct (l !! i); try discriminate
         end.
  unfold ret. intros H. injection H as <-. reflexivity.
Qed.

Lemma descends_reads (s s1 : Agent E) steps :
  heap s1 = heap s -> graph s1 = graph s ->
  forall node leaf, descends s node steps leaf -> descends s1 node steps leaf.
Proof.
  intros Hh Hg. induction steps as [|step rest IH]; intros node leaf.
  - simpl. rewrite Hh. tauto.
  - intros (Hn & Hsel & Hrest). cbn [descends]. rewrite Hh.
    split; [exact Hn|]. split; [|apply IH; exact Hrest].
    eapply select_child_reads; eassumption.
Qed.

Lemma selection_follows fuel :
  forall node env (s : Agent E) leaf env' s',
    selection fuel node env s = Ret ((leaf, env'), s') ->
    exists steps : list (nat * Action E),
      descends s node steps leaf
      /\ (length steps <= fuel)%nat
      /\ env' = fold_left (advance_gamestate E) (map snd steps) env
      /\ s' = calls_added (Z.of_nat (length steps)) s.
Proof.
  induction fuel as [|fuel IH]; intros node env s leaf env' s' H;
    cbn [selection] in H;
    apply bind_Ret in H as (n & s0 & Hn & H);
    unfold deref in Hn;
    (destruct (heap s !! node) as [n0|] eqn:Hnode; [|discriminate]);
    injection Hn as <- <-;
    (destruct (is_leaf n0) eqn:Hl;
     [ injection H as <- <- <-; exists [];
       split; [split; [reflexivity | exists n0; split; assumption]|];
       split; [simpl; lia|]; split; [reflexivity|];
       symmetry; apply tree_calls_added_0 |]).
  - discriminate.
  - apply bind_Ret in H as (sel & s1 & Hsel & H).
    pose proof (select_child_pure _ _ Hsel) as ->.
    apply bind_Ret in H as (env1 & s1 & H1 & H). injection H1 as <- <-.
    apply bind_Ret in H as (u & s1 & H1 & H). injection H1 as _ <-.
    change (with_forward_model_calls _ _) with (calls_added 1 s) in H.
    apply IH in H as (steps & Hd & Hlen & -> & ->).
    exists (sel :: steps). split; [|split; [|split]].
    + cbn [descends]. split; [exists n0; split; assumption|].
      split; [exact Hsel|].
      eapply descends_reads; [| |exact Hd]; reflexivity.
    + simpl. lia.
    + reflexivity.
    + rewrite tree_calls_added_add. f_equal. simpl length. lia.
Qed.

Lemma selection_along steps :
  forall fuel node env (s : Agent E) leaf,
    descends s node steps leaf -> (length steps <= fuel)%nat ->
    selection fuel node env s
    = Ret ((leaf, fold_left (advance_gamestate E) (map snd steps) env),
           calls_added (Z.of_nat (length steps)) s).
Proof.
  induction steps as [|step rest IH]; intros fuel node env s leaf Hd Hlen.
  - destruct Hd as [-> (n & Hn & Hl)].
    rewrite tree_calls_added_0.
    destruct fuel; cbn [selection]; unfold bind at 1, deref;
      rewrite Hn, Hl; reflexivity.
  - destruct Hd as ((n & Hn & Hl) & Hsel & Hrest).
    destruct fuel as [|fuel]; [simpl in Hlen; lia|].
    cbn [selection]. unfold bind at 1, deref. rewrite Hn, Hl.
    erewrite bind_eq by exact Hsel.
    erewrite bind_eq by reflexivity. erewrite bind_eq by reflexivity.
    change (with_forward_model_calls _ _) with (calls_added 1 s).
    rewrite (IH fuel (fst step) _ (calls_added 1 s) leaf).
    + rewrite tree_calls_added_add. cbn [map fold_left].
      do 3 f_equal. simpl length. lia.
    + eapply descends_reads; [| |exact Hrest]; reflexivity.
    + simpl in Hlen. lia.
Qed.

End Selection.

(** *** Back-propagation and the chosen node *)

Section Chosen.

Context (E : Collaborators).

Lemma walk_bump (stops : Node -> bool) v c :
  (forall n, stops (bump E v n) = stops n) ->
  forall h a l,
    Chain.walk stops parent h a l <->
    Chain.walk stops parent (alter (bump E v) c h) a l.
Proof.
  intros Hstops h a l. split; apply ChainFacts.walk_ext; intros b n Hb.
  - destruct (decide (c = b)) as [<- | Hne].
    + exists (bump E v n). rewrite list_lookup_alter_eq, Hb. auto.
    + exists n. rewrite list_lookup_alter_ne by exact Hne. auto.
  - destruct (decide (c = b)) as [<- | Hne].
    + rewrite list_lookup_alter_eq in Hb.
      destruct (h !! c) as [n0|]; [|discriminate].
      injection Hb as <-. exists n0. auto.
    + rewrite list_lookup_alter_ne in Hb by exact Hne. exists n. auto.
Qed.

Lemma tree_back_propagation_returned fuel :
  forall (s : Agent E) a v s',
    back_propagation fuel (Some a) v s = Ret (tt, s') ->
    exists l, chain_to_chosen (heap s) a l /\ (length l <= fuel)%nat
              /\ s' = with_heap (Chain.alter_all (bump E v) l (heap s)) s.
Proof.
  induction fuel as [|fuel IH]; intros s a v s' H; [discriminate|].
  cbn [back_propagation] in H.
  destruct (heap s !! a) as [n|] eqn:Ha.
  - erewrite bind_eq in H by (eapply tree_update_eq; exact Ha).
    erewrite bind_eq in H
      by (eapply tree_deref_eq; simpl; rewrite list_lookup_alter_eq, Ha;
          reflexivity).
    cbn [chosen parent bump] in H.
    destruct (chosen n) eqn:Hc.
    + injection H as <-. exists [a]. split; [|split].
      * eapply Chain.walk_stop; [exact Ha | exact Hc].
      * simpl. lia.
      * reflexivity.
    + destruct (parent n) as [p|] eqn:Hp.
      * apply IH in H as (l & Hw & Hlen & ->).
        exists (a :: l). split; [|split].
        -- eapply Chain.walk_step; [exact Ha | exact Hc | exact Hp |].
           apply (proj2 (walk_bump chosen v a (fun _ => eq_refl) _ _ _)).
           exact Hw.
        -- simpl. lia.
        -- reflexivity.
      * destruct fuel; discriminate.
  - unfold bind at 1 in H. unfold update, bind, deref in H. rewrite Ha in H.
    discriminate.
Qed.

Lemma tree_back_propagation_None fuel v (s : Agent E) :
  back_propagation fuel None v s = Raise AttributeError.
Proof. destruct fuel; reflexivity. Qed.

(** A chain that reaches the node with no parent without meeting a
    chosen node: the loop steps on [None]. *)
Lemma tree_back_propagation_unchosen fuel :
  forall (s : Agent E) a l v,
    chain_to_root (heap s) a l ->
    (forall c n, c ∈ l -> heap s !! c = Some n -> chosen n = false) ->
    (length l <= fuel)%nat ->
    back_propagation fuel (Some a) v s = Raise AttributeError.
Proof.
  induction fuel as [|fuel IH]; intros s a l v Hw Hun Hlen.
  - destruct (ChainFacts.walk_head Hw) as [l' ->]. simpl in Hlen. lia.
  - inversion Hw as [a' n Ha Hs | a' n p l' Ha Hs Hn Hw']; subst;
      cbn [back_propagation];
      erewrite bind_eq by (eapply tree_update_eq; exact Ha);
      (erewrite bind_eq
         by (eapply tree_deref_eq; simpl; rewrite list_lookup_alter_eq, Ha;
             reflexivity));
      cbn [chosen parent bump];
      (rewrite (Hun a n); [|apply list_elem_of_here | exact Ha]).
    + unfold no_parent in Hs. destruct (parent n); [discriminate|].
      apply tree_back_propagation_None.
    + rewrite Hn. apply (IH _ p l' v).
      * simpl. apply (proj1 (walk_bump no_parent v a (fun _ => eq_refl) _ _ _)).
        exact Hw'.
      * intros c m Hc Hm. simpl in Hm.
        destruct (decide (a = c)) as [<- | Hne].
        -- rewrite list_lookup_alter_eq, Ha in Hm. injection Hm as <-.
           simpl. apply (Hun a n); [apply list_elem_of_here | exact Ha].
        -- rewrite list_lookup_alter_ne in Hm by exact Hne.
           apply (Hun c m); [apply list_elem_of_further; exact Hc | exact Hm].
      * simpl in Hlen. lia.
Qed.

End Chosen.

(** *** Rollouts and the budget *)

Section RolloutBudget.

Context (E : Collaborators).

Lemma tree_random_choice_Ret {A} (l : list A) (s : Agent E) a s1 :
  random_choice l s = Ret (a, s1) ->
  exists rng, s1 = with_random rng s.
Proof.
  unfold random_choice. destruct l as [|d l]; [discriminate|].
  unfold bind, get.
  destruct (draw E (random s) (length (d :: l))) as [i rng].
  intros H. injection H as _ <-. exists rng. reflexivity.
Qed.

Ltac fields :=
  cbn [forward_model_calls fm_advances heap graph root_node node_counter
       edge_counter num_iterations use_opponent_model budget_type
       max_forward_model_calls player_id num_rollouts random
       with_forward_model_calls with_fm_advances with_random] in *.

Lemma rollout_loop_accounting fuel :
  forall env cum (s : Agent E) v s',
    rollout_loop fuel env cum s = Ret (v, s') ->
    exists k : nat,
      (k <= fuel)%nat
      /\ forward_model_calls s' = forward_model_calls s + Z.of_nat k
      /\ fm_advances s'
         = fm_advances s
           + (if use_opponent_model s then 2 else 1) * Z.of_nat k
      /\ (budget_type s = MAX_FM_CALLS ->
          forward_model_calls s'
          <= Z.max (forward_model_calls s) (max_forward_model_calls s))
      /\ heap s' = heap s /\ graph s' = graph s
      /\ root_node s' = root_node s
      /\ node_counter s' = node_counter s
      /\ edge_counter s' = edge_counter s
      /\ num_iterations s' = num_iterations s
      /\ use_opponent_model s' = use_opponent_model s
      /\ budget_type s' = budget_type s
      /\ max_forward_model_calls s' = max_forward_model_calls s.
Proof.
  assert (forall (f : nat) (s : Agent E),
            exists k : nat,
              (k <= f)%nat
              /\ forward_model_calls s = forward_model_calls s + Z.of_nat k
              /\ fm_advances s
                 = fm_advances s
                   + (if use_opponent_model s then 2 else 1) * Z.of_nat k
              /\ (budget_type s = MAX_FM_CALLS ->
                  forward_model_calls s
                  <= Z.max (forward_model_calls s) (max_forward_model_calls s))
              /\ heap s = heap s /\ graph s = graph s
              /\ root_node s = root_node s
              /\ node_counter s = node_counter s
              /\ edge_counter s = edge_counter s
              /\ num_iterations s = num_iterations s
              /\ use_opponent_model s = use_opponent_model s
              /\ budget_type s = budget_type s
              /\ max_forward_model_calls s = max_forward_model_calls s)
    as Hstop.
  { intros f s. exists O. repeat split; lia. }
  induction fuel as [|fuel IH]; intros env cum s v s' H;
    cbn [rollout_loop] in H;
    apply bind_Ret in H as (s0 & s1 & H0 & H); injection H0 as <- <-;
    cbv zeta in H;
    (destruct (Nat.eqb _ 0);
     [injection H as _ <-; apply Hstop|]);
    (destruct (is_budget_over s) eqn:Hover;
     [injection H as _ <-; apply Hstop|]);
    (destruct (is_game_over E env);
     [injection H as _ <-; apply Hstop|]).
  - discriminate.
  - apply bind_Ret in H as (a & s1 & H1 & H).
    apply tree_random_choice_Ret in H1 as [rng ->].
    apply bind_Ret in H as (env1 & s1 & H1 & H). injection H1 as <- <-.
    apply bind_Ret in H as (u & s1 & H1 & H). injection H1 as _ <-.
    fields.
    assert (budget_type s = MAX_FM_CALLS ->
            forward_model_calls s < max_forward_model_calls s) as Hroom.
    { intros Hbt. unfold is_budget_over in Hover. rewrite Hbt in Hover. lia. }
    destruct (use_opponent_model s) eqn:Hopp.
    + apply bind_Ret in H as (b & s1 & H1 & H).
      apply tree_random_choice_Ret in H1 as [rng' ->].
      apply bind_Ret in H as (env2 & s1 & H1 & H). injection H1 as <- <-.
      apply IH in H as (k & Hk & Hc & Ha & Hb & Hrest). fields.
      rewrite Hopp in Ha.
      exists (S k). split; [lia|]. split; [lia|]. split; [lia|].
      split; [intros Hbt; specialize (Hb Hbt); specialize (Hroom Hbt); lia|].
      rewrite Hopp in Hrest. exact Hrest.
    + apply IH in H as (k & Hk & Hc & Ha & Hb & Hrest). fields.
      rewrite Hopp in Ha.
      exists (S k). split; [lia|]. split; [lia|]. split; [lia|].
      split; [intros Hbt; specialize (Hb Hbt); specialize (Hroom Hbt); lia|].
      rewrite Hopp in Hrest. exact Hrest.
Qed.

(** The rollouts of one simulation, one after the other. *)
Lemma rollouts_accounting fuel (env : GameState E) (idxs : list nat) :
  forall (acc : list R) (s : Agent E) r s',
    for_each idxs acc
      (fun rewards _ => bind (rollout fuel env)
                          (fun average_reward => ret (rewards ++ [average_reward])))
      s = Ret (r, s') ->
    exists k : nat,
      forward_model_calls s' = forward_model_calls s + Z.of_nat k
      /\ fm_advances s'
         = fm_advances s
           + (if use_opponent_model s then 2 else 1) * Z.of_nat k
      /\ (budget_type s = MAX_FM_CALLS ->
          forward_model_calls s'
          <= Z.max (forward_model_calls s) (max_forward_model_calls s))
      /\ heap s' = heap s /\ graph s' = graph s
      /\ root_node s' = root_node s
      /\ node_counter s' = node_counter s
      /\ edge_counter s' = edge_counter s
      /\ num_iterations s' = num_iterations s.
Proof.
  induction idxs as [|i idxs IH]; intros acc s r s' H.
  - injection H as _ <-. exists O. repeat split; lia.
  - apply for_each_cons_Ret in H as (acc1 & s1 & H1 & H).
    apply bind_Ret in H1 as (v & s2 & H2 & H1). injection H1 as _ <-.
    apply rollout_loop_accounting in H2
      as (k1 & _ & Hc1 & Ha1 & Hb1 & Hh1 & Hg1 & Hr1 & Hn1 & He1 & Hi1
          & Ho1 & Ht1 & Hm1).
    apply IH in H
      as (k2 & Hc2 & Ha2 & Hb2 & Hh2 & Hg2 & Hr2 & Hn2 & He2 & Hi2).
    rewrite Ho1 in Ha2. rewrite Ht1, Hm1 in Hb2.
    exists (k1 + k2)%nat.
    split; [lia|].
    split; [destruct (use_opponent_model s); lia|].
    split; [intros Hbt; specialize (Hb1 Hbt); specialize (Hb2 Hbt); lia|].
    repeat split; congruence.
Qed.

End RolloutBudget.

(** *** Expansion *)

Section Expansion.

Context (E : Collaborators).

(** The body of the loop of [expansion]. *)
Local Abbreviation expansion_body :=
  (fun (node : nat) (env : GameState E) (player : Z)
       (children : list nat) (action : Action E) =>
     bind (advance env action) (fun expansion_env =>
     bind (@count_forward_model_call E) (fun _ =>
     bind get (fun s : Agent E =>
     bind (new_object
             (Node_init (node_counter s) (get_observation expansion_env)
                (Some node) true 0%R 0
                (has_observation (heap s) (graph s)
                   (get_observation expansion_env)))) (fun child =>
     bind (modify (fun s : Agent E =>
                     with_node_counter (node_counter s + 1) s)) (fun _ =>
     bind (modify (fun s : Agent E =>
                     with_edge_counter (edge_counter s + 1) s)) (fun _ =>
     bind (add_node child) (fun _ =>
     bind (modify (fun s0 : Agent E =>
                     with_graph
                       (graph_add_edge (graph s0)
                          (@mkEdge E (edge_counter s) node child action
                             (evaluate_state env player))) s0)) (fun _ =>
     ret (children ++ [child])))))))))).

Lemma expansion_step node env player acc a (s : Agent E) :
  exists s1 red,
    expansion_body node env player acc a s
    = Ret (acc ++ [length (heap s)], s1)
    /\ heap s1
       = heap s ++ [Node_init (node_counter s)
                      (get_observation (advance_gamestate E env a))
                      (Some node) true 0%R 0 red]
    /\ nodes (graph s1) = nodes (graph s) ++ [length (heap s)]
    /\ edges (graph s1)
       = edges (graph s)
         ++ [@mkEdge E (edge_counter s) node (length (heap s)) a
               (evaluate_state env player)]
    /\ node_counter s1 = node_counter s + 1
    /\ edge_counter s1 = edge_counter s + 1
    /\ forward_model_calls s1 = forward_model_calls s + 1
    /\ fm_advances s1 = fm_advances s + 1
    /\ root_node s1 = root_node s
    /\ num_iterations s1 = num_iterations s
    /\ player_id s1 = player_id s.
Proof.
  eexists. eexists. split; [reflexivity|]. repeat split.
Qed.

Lemma expansion_loop node env player actions :
  forall acc (s : Agent E),
    exists s',
      for_each actions acc (expansion_body node env player) s
      = Ret (acc ++ seq (length (heap s)) (length actions), s')
      /\ length (heap s') = (length (heap s) + length actions)%nat
      /\ (forall b n, heap s !! b = Some n -> heap s' !! b = Some n)
      /\ (forall i a,
            actions !! i = Some a ->
            exists c,
              heap s' !! (length (heap s) + i)%nat = Some c
              /\ id c = node_counter s + Z.of_nat i
              /\ observation c = get_observation (advance_gamestate E env a)
              /\ parent c = Some node /\ is_leaf c = true
              /\ value c = 0%R /\ visits c = 0 /\ chosen c = false)
      /\ nodes (graph s')
         = nodes (graph s) ++ seq (length (heap s)) (length actions)
      /\ edges (graph s')
         = edges (graph s)
           ++ imap (fun i a =>
                      @mkEdge E (edge_counter s + Z.of_nat i) node
                        (length (heap s) + i) a (evaluate_state env player))
                actions
      /\ node_counter s' = node_counter s + Z.of_nat (length actions)
      /\ edge_counter s' = edge_counter s + Z.of_nat (length actions)
      /\ forward_model_calls s'
         = forward_model_calls s + Z.of_nat (length actions)
      /\ fm_advances s' = fm_advances s + Z.of_nat (length actions)
      /\ root_node s' = root_node s
      /\ num_iterations s' = num_iterations s
      /\ player_id s' = player_id s.
Proof.
  induction actions as [|a actions IH]; intros acc s.
  - exists s. cbn [for_each length seq imap]. rewrite !app_nil_r.
    split; [reflexivity|]. split; [lia|]. split; [auto|].
    split; [intros i a Hi; discriminate|].
    repeat split; lia.
  - destruct (expansion_step node env player acc a s)
      as (s1 & red & Hstep & Hheap & Hnodes & Hedges & Hnc & Hec & Hfc & Hadv
          & Hroot & Hit & Hpl).
    destruct (IH (acc ++ [length (heap s)]) s1)
      as (s' & Hrun & Hlen & Hold & Hnew & Hnodes' & Hedges' & Hnc' & Hec'
          & Hfc' & Hadv' & Hroot' & Hit' & Hpl').
    assert (length (heap s1) = S (length (heap s))) as Hlen1.
    { rewrite Hheap, length_app. simpl. lia. }
    exists s'. split; [|split; [|split; [|split; [|split; [|split]]]]].
    + cbn [for_each]. erewrite bind_eq by exact Hstep.
      rewrite Hrun, Hlen1, <- app_assoc. reflexivity.
    + rewrite Hlen, Hlen1. simpl. lia.
    + intros b n Hb. apply Hold. rewrite Hheap.
      apply lookup_app_l_Some. exact Hb.
    + intros [|i] a' Hi.
      * injection Hi as <-. eexists. split.
        -- apply Hold. rewrite Hheap, Nat.add_0_r.
           apply list_lookup_middle. reflexivity.
        -- cbn. repeat split. lia.
      * destruct (Hnew i a' Hi) as (c & Hc & Hid & Hrest).
        exists c. split; [|split; [|exact Hrest]].
        -- rewrite <- Hc. f_equal. lia.
        -- rewrite Hid, Hnc. lia.
    + rewrite Hnodes', Hnodes, Hlen1, <- app_assoc. reflexivity.
    + rewrite Hedges', Hedges, <- app_assoc. cbn [imap app]. f_equal.
      rewrite Nat.add_0_r, Z.add_0_r. f_equal.
      apply imap_ext. intros i x Hx. simpl. rewrite Hec, Hlen1.
      f_equal; lia.
    + cbn [length]. repeat split; lia.
Qed.

Lemma expansion_spec node env (s : Agent E) n :
  heap s !! node = Some n ->
  exists s',
    expansion node env s
    = Ret (seq (length (heap s))
             (length (generate_actions E env (player_id s))), s')
    /\ length (heap s')
       = (length (heap s)
          + length (generate_actions E env (player_id s)))%nat
    /\ heap s' !! node = Some (set_is_leaf false n)
    /\ (forall b m, b <> node -> heap s !! b = Some m -> heap s' !! b = Some m)
    /\ (forall i a,
          generate_actions E env (player_id s) !! i = Some a ->
          exists c,
            heap s' !! (length (heap s) + i)%nat = Some c
            /\ id c = node_counter s + Z.of_nat i
            /\ observation c = get_observation (advance_gamestate E env a)
            /\ parent c = Some node /\ is_leaf c = true
            /\ value c = 0%R /\ visits c = 0 /\ chosen c = false)
    /\ nodes (graph s')
       = nodes (graph s)
         ++ seq (length (heap s))
              (length (generate_actions E env (player_id s)))
    /\ edges (graph s')
       = edges (graph s)
         ++ imap (fun i a =>
                    @mkEdge E (edge_counter s + Z.of_nat i) node
                      (length (heap s) + i) a
                      (evaluate_state env (player_id s)))
              (generate_actions E env (player_id s))
    /\ node_counter s'
       = node_counter s
         + Z.of_nat (length (generate_actions E env (player_id s)))
    /\ edge_counter s'
       = edge_counter s
         + Z.of_nat (length (generate_actions E env (player_id s)))
    /\ forward_model_calls s'
       = forward_model_calls s
         + Z.of_nat (length (generate_actions E env (player_id s)))
    /\ fm_advances s'
       = fm_advances s
         + Z.of_nat (length (generate_actions E env (player_id s)))
    /\ root_node s' = root_node s
    /\ num_iterations s' = num_iterations s.
Proof.
  intros Hn.
  set (s0 := with_heap (<[node := set_is_leaf false n]> (heap s)) s).
  destruct (expansion_loop node env (player_id s)
              (generate_actions E env (player_id s)) [] s0)
    as (s' & Hrun & Hlen & Hold & Hnew & Hnodes & Hedges & Hnc & Hec & Hfc
        & Hadv & Hroot & Hit & _).
  assert (length (heap s0) = length (heap s)) as Hlen0
    by (subst s0; simpl; apply length_insert).
  rewrite Hlen0 in *.
  exists s'. split; [|split; [exact Hlen|
                     split; [|split; [|split; [exact Hnew|
                     repeat split; assumption]]]]].
  - unfold expansion.
    erewrite bind_eq by (unfold update; erewrite bind_eq
                           by (apply tree_deref_eq; exact Hn); reflexivity).
    erewrite bind_eq by reflexivity.
    exact Hrun.
  - apply Hold. subst s0. simpl. apply list_lookup_insert_eq.
    eapply lookup_lt_Some. exact Hn.
  - intros b m Hne Hb. apply Hold. subst s0. simpl.
    rewrite list_lookup_insert_ne by congruence. exact Hb.
Qed.

End Expansion.

(** X6.  The tree-search [back_propagation] returns exactly when some
    node on the parent chain of the node is flagged [chosen]: it then
    has updated the chain up to the nearest such node and nothing else.
    On a chain that reaches the node with no parent without meeting a
    chosen node it raises [AttributeError]. *)
Theorem tree_back_propagation_needs_chosen_ancestor (E : Collaborators)
    (s : Agent E) (a : nat) (v : R) :
  (forall fuel s',
     back_propagation fuel (Some a) v s = Ret (tt, s') ->
     exists l, chain_to_chosen (heap s) a l /\ (length l <= fuel)%nat
               /\ s' = with_heap (Chain.alter_all (bump E v) l (heap s)) s)
  /\ (forall l,
        chain_to_chosen (heap s) a l ->
        back_propagation (length l) (Some a) v s
        = Ret (tt, with_heap (Chain.alter_all (bump E v) l (heap s)) s))
  /\ (forall l fuel,
        chain_to_root (heap s) a l ->
        (forall c n, c ∈ l -> heap s !! c = Some n -> chosen n = false) ->
        (length l <= fuel)%nat ->
        back_propagation fuel (Some a) v s = Raise AttributeError).
Proof.
  split; [|split].
  - intros fuel s'. apply tree_back_propagation_returned.
  - intros l Hw. apply back_propagation_along_chosen_chain; [exact Hw | lia].
  - intros l fuel. apply tree_back_propagation_unchosen.
Qed.

(** X8.  Under the [MAX_ITERATIONS] budget the tree-search planning loop
    runs the iterations that are left and no more: when it returns,
    [max_iterations - num_iterations] passes through its body have
    been made (none when the counter had reached the bound) and the
    counter stands at the bound; each pass adds exactly one to it. *)
Theorem tree_search_runs_max_iterations (E : Collaborators) (fuel : nat)
    (gs : GameState E) (s s' : Agent E) :
  budget_type s = MAX_ITERATIONS ->
  plan_loop fuel gs s = Ret (tt, s') ->
  iterated gs (Z.to_nat (max_iterations s - num_iterations s)) s s'
  /\ num_iterations s' = Z.max (num_iterations s) (max_iterations s)
  /\ forall fuel' s1 s2 u,
       plan_iteration fuel' gs s1 = Ret (u, s2) ->
       num_iterations s2 = num_iterations s1 + 1.
Proof.
  intros Hbt H. destruct (@plan_loop_iterated E fuel gs s s' Hbt H) as [Hrun Hend].
  split; [exact Hrun|]. split; [exact Hend|].
  intros fuel' s1 s2 u Hit.
  apply (@plan_iteration_counts E fuel' gs s1 s2 u Hit).
Qed.

(** X9.  The tree-search [selection] returns exactly when, within the
    fuel, the way from the node leads to a leaf: at every node on it
    that is not a leaf it follows the edge to the child that
    [select_child] answers.  The node it returns is that leaf, the
    environment it leaves is the given one advanced by the actions of
    these edges in turn, and the state is the given one with one
    forward-model call issued and counted per edge: no node, edge, root
    or other counter changes. *)
Theorem tree_selection_reaches_leaf (E : Collaborators) (fuel : nat)
    (node : nat) (env env' : GameState E) (s s' : Agent E) (leaf : nat) :
  selection fuel node env s = Ret ((leaf, env'), s')
  <-> exists steps : list (nat * Action E),
        descends s node steps leaf
        /\ (length steps <= fuel)%nat
        /\ env' = fold_left (advance_gamestate E) (map snd steps) env
        /\ s' = calls_added (Z.of_nat (length steps)) s.
Proof.
  split.
  - apply selection_follows.
  - intros (steps & Hd & Hlen & -> & ->).
    apply selection_along; assumption.
Qed.

(** X10.  The tree-search [expansion] of a node constructs one fresh
    leaf per legal action, in the order of the actions: its [id] is the
    node counter at that moment, its observation the board the action
    leads to, its parent the expanded node, its statistics zero.  The
    expanded node stops being a leaf and no other node changes.  One
    edge per child is stored, and every one of them carries the
    heuristic value of the state that was expanded, not of the state
    the action leads to.  Node counter, edge counter, the calls counted
    and the calls issued each grow by the number of actions. *)
Theorem tree_expansion_creates_children (E : Collaborators) (node : nat)
    (env : GameState E) (s : Agent E) (n : Node) :
  heap s !! node = Some n ->
  exists s',
    expansion node env s
    = Ret (seq (length (heap s))
             (length (generate_actions E env (player_id s))), s')
    /\ length (heap s')
       = (length (heap s)
          + length (generate_actions E env (player_id s)))%nat
    /\ heap s' !! node = Some (set_is_leaf false n)
    /\ (forall b m, b <> node -> heap s !! b = Some m -> heap s' !! b = Some m)
    /\ (forall i a,
          generate_actions E env (player_id s) !! i = Some a ->
          exists c,
            heap s' !! (length (heap s) + i)%nat = Some c
            /\ id c = node_counter s + Z.of_nat i
            /\ observation c = get_observation (advance_gamestate E env a)
            /\ parent c = Some node /\ is_leaf c = true
            /\ value c = 0%R /\ visits c = 0 /\ chosen c = false)
    /\ nodes (graph s')
       = nodes (graph s)
         ++ seq (length (heap s))
              (length (generate_actions E env (player_id s)))
    /\ edges (graph s')
       = edges (graph s)
         ++ imap (fun i a =>
                    @mkEdge E (edge_counter s + Z.of_nat i) node
                      (length (heap s) + i) a
                      (evaluate_state env (player_id s)))
              (generate_actions E env (player_id s))
    /\ node_counter s'
       = node_counter s
         + Z.of_nat (length (generate_actions E env (player_id s)))
    /\ edge_counter s'
       = edge_counter s
         + Z.of_nat (length (generate_actions E env (player_id s)))
    /\ forward_model_calls s'
       = forward_model_calls s
         + Z.of_nat (length (generate_actions E env (player_id s)))
    /\ fm_advances s'
       = fm_advances s
         + Z.of_nat (length (generate_actions E env (player_id s)))
    /\ root_node s' = root_node s
    /\ num_iterations s' = num_iterations s.
Proof. apply expansion_spec. Qed.

(** X11.  Node ids are not unique in the tree search: [init] gives the
    root the id 0 and leaves the node counter at 0, so the first child
    the first expansion constructs is a different node object with the
    same id. *)
Theorem tree_root_and_first_child_share_id (E : Collaborators)
    (seed : RandomState E) (budget : BudgetType) (player : Z)
    (gs env : GameState E) (a : Action E) (rest : list (Action E)) :
  generate_actions E env player = a :: rest ->
  exists s' root child,
    expansion 0%nat env (init E seed budget player gs)
    = Ret (seq 1 (S (length rest)), s')
    /\ heap s' !! 0%nat = Some root /\ heap s' !! 1%nat = Some child
    /\ id root = 0 /\ id child = 0 /\ parent child = Some 0%nat.
Proof.
  intros Hacts.
  destruct (@expansion_spec E 0%nat env (init E seed budget player gs) _
              eq_refl)
    as (s' & Hrun & _ & Hroot & _ & Hnew & _).
  cbn [player_id init heap length node_counter] in Hrun, Hnew.
  rewrite Hacts in Hrun, Hnew.
  destruct (Hnew 0%nat a eq_refl) as (c & Hc & Hid & _ & Hp & _).
  eexists s', _, c. split; [exact Hrun|]. split; [exact Hroot|].
  split; [exact Hc|]. split; [reflexivity|]. split; [lia | exact Hp].
Qed.

(** X12.  [select_child] answers the child with the largest UCT score,
    the first of them when several share it, together with the action
    of the edge that leads to it; it changes nothing. *)
Theorem select_child_takes_first_best (E : Collaborators) (node : nat)
    (s s' : Agent E) (child : nat) (a : Action E) :
  select_child node s = Ret ((child, a), s') ->
  s' = s
  /\ exists i v e,
       get_children (graph s) node !! i = Some child
       /\ uct_at (heap s) child = Ret v
       /\ (forall j c,
             get_children (graph s) node !! j = Some c ->
             exists w, uct_at (heap s) c = Ret w
                       /\ (w <= v)%R /\ ((j < i)%nat -> (w < v)%R))
       /\ get_edge_info (graph s) (Some node) child = Ret e
       /\ a = edge_action e.
Proof.
  intros H. split; [apply (@select_child_pure E node s _ s' H)|].
  eapply select_child_first_best. exact H.
Qed.

(** X13.  Expanding a node in a state with no legal action constructs
    nothing and still takes the leaf flag off the node; a selection
    that later arrives at this node, a non-leaf without children,
    raises [ValueError] (the maximum of an empty list). *)
Theorem childless_inner_node_breaks_selection (E : Collaborators)
    (node : nat) (n : Node) (env : GameState E) (s : Agent E) :
  heap s !! node = Some n ->
  generate_actions E env (player_id s) = [] ->
  get_children (graph s) node = [] ->
  exists s',
    expansion node env s = Ret ([], s')
    /\ heap s' = <[node := set_is_leaf false n]> (heap s)
    /\ graph s' = graph s
    /\ forall fuel env', selection (S fuel) node env' s' = Raise ValueError.
Proof.
  intros Hn Hacts Hc.
  exists (with_heap (<[node := set_is_leaf false n]> (heap s)) s).
  split; [|split; [reflexivity|split; [reflexivity|]]].
  - unfold expansion.
    erewrite bind_eq by (unfold update; erewrite bind_eq
                           by (apply tree_deref_eq; exact Hn); reflexivity).
    erewrite bind_eq by reflexivity.
    cbn [player_id with_heap]. rewrite Hacts. reflexivity.
  - intros fuel env'.
    apply (@selection_childless E fuel node env' _ (set_is_leaf false n)).
    + cbn [heap with_heap]. apply list_lookup_insert_eq.
      eapply lookup_lt_Some. exact Hn.
    + reflexivity.
    + exact Hc.
Qed.

(** X14.  A tree-search rollout that returns has counted one
    forward-model call per step of its own and issued twice as many
    when the opponent model is on (the opponent's moves are not
    counted); under [MAX_FM_CALLS] it never carries the count past the
    bound; and it changes no node, edge or other counter. *)
Theorem tree_rollout_stays_within_budget (E : Collaborators) (fuel : nat)
    (env : GameState E) (s s' : Agent E) (v : R) :
  rollout fuel env s = Ret (v, s') ->
  exists k : nat,
    (k <= fuel)%nat
    /\ forward_model_calls s' = forward_model_calls s + Z.of_nat k
    /\ fm_advances s'
       = fm_advances s + (if use_opponent_model s then 2 else 1) * Z.of_nat k
    /\ (budget_type s = MAX_FM_CALLS ->
        forward_model_calls s'
        <= Z.max (forward_model_calls s) (max_forward_model_calls s))
    /\ heap s' = heap s /\ graph s' = graph s
    /\ root_node s' = root_node s
    /\ node_counter s' = node_counter s
    /\ edge_counter s' = edge_counter s
    /\ num_iterations s' = num_iterations s.
Proof.
  intros H. unfold rollout in H.
  apply rollout_loop_accounting in H
    as (k & Hk & Hc & Ha & Hb & Hh & Hg & Hr & Hn & He & Hi & _).
  exists k. repeat split; assumption.
Qed.

(** X15.  When the legal actions are not exactly one, [compute_action]
    answers the action [plan] chose if that action still validates
    against the game state, and otherwise the last of the legal
    actions; with no legal action at all that fallback raises
    [IndexError]. *)
Theorem compute_action_falls_back_to_last_action (E : Collaborators)
    (fuel : nat) (gs : GameState E) (s s' : Agent E) (a : Action E) :
  length (generate_actions E gs (player_id s)) <> 1%nat ->
  plan fuel gs (budget_reset s) = Ret (a, s') ->
  compute_action fuel gs s
  = if validate E a gs then Ret (from_single_action a, s')
    else match last (generate_actions E gs (player_id s)) with
         | Some b => Ret (from_single_action b, s')
         | None => Raise IndexError
         end.
Proof.
  intros Hlen Hplan. unfold compute_action, reset_budget.
  erewrite bind_eq by reflexivity. erewrite bind_eq by reflexivity.
  change (player_id (budget_reset s)) with (player_id s).
  destruct (generate_actions E gs (player_id s)) as [|x [|y l]] eqn:Hacts;
    [ | simpl in Hlen; lia | ];
    erewrite bind_eq by exact Hplan;
    destruct (validate E a gs); cbn [negb]; try reflexivity.
  unfold bind at 1. destruct (last (x :: y :: l)); reflexivity.
Qed.

(** What a simulation adds to the counters. *)
Lemma simulation_accounting (E : Collaborators) (fuel : nat)
    (node : nat) (env : GameState E) (s s' : Agent E) (v : R) :
  simulation fuel node env s = Ret (v, s') ->
  exists k : nat,
    forward_model_calls s' = forward_model_calls s + Z.of_nat k
    /\ fm_advances s'
       = fm_advances s + 1
         + (if use_opponent_model s then 2 else 1) * Z.of_nat k
    /\ (budget_type s = MAX_FM_CALLS ->
        forward_model_calls s'
        <= Z.max (forward_model_calls s) (max_forward_model_calls s))
    /\ heap s' = heap s /\ graph s' = graph s
    /\ root_node s' = root_node s
    /\ node_counter s' = node_counter s
    /\ edge_counter s' = edge_counter s
    /\ num_iterations s' = num_iterations s.
Proof.
  intros H. unfold simulation in H.
  apply bind_Ret in H as (n & s1 & H1 & H).
  unfold deref in H1. destruct (heap s !! node); [|discriminate].
  injection H1 as <- <-.
  apply bind_Ret in H as (s0 & s1 & H0 & H). injection H0 as <- <-.
  apply bind_Ret in H as (e & s1 & H1 & H). apply lift_Ret in H1 as [_ ->].
  apply bind_Ret in H as (env1 & s1 & H1 & H). injection H1 as <- <-.
  apply bind_Ret in H as (k0 & s2 & H2 & H). injection H2 as <- <-.
  apply bind_Ret in H as (rewards & s3 & H3 & H).
  apply lift_Ret in H as [_ ->].
  apply rollouts_accounting in H3
    as (k & Hc & Ha & Hb & Hh & Hg & Hr & Hn & He & Hi).
  cbn [forward_model_calls fm_advances heap graph root_node node_counter
       edge_counter num_iterations use_opponent_model budget_type
       max_forward_model_calls with_fm_advances] in *.
  exists k. repeat split; first [assumption | lia].
Qed.

(** X19.  A tree-search simulation issues one forward-model call that it
    does not count (the step to the child) before its rollouts, so the
    calls issued exceed the calls counted by that one call and by the
    opponent's moves of the rollouts; under [MAX_FM_CALLS] it never
    carries the count past the bound; and it changes no node, edge or
    other counter. *)
Theorem tree_simulation_undercounts (E : Collaborators) (fuel : nat)
    (node : nat) (env : GameState E) (s s' : Agent E) (v : R) :
  simulation fuel node env s = Ret (v, s') ->
  exists k : nat,
    forward_model_calls s' = forward_model_calls s + Z.of_nat k
    /\ fm_advances s'
       = fm_advances s + 1
         + (if use_opponent_model s then 2 else 1) * Z.of_nat k
    /\ (budget_type s = MAX_FM_CALLS ->
        forward_model_calls s'
        <= Z.max (forward_model_calls s) (max_forward_model_calls s))
    /\ heap s' = heap s /\ graph s' = graph s
    /\ root_node s' = root_node s
    /\ node_counter s' = node_counter s
    /\ edge_counter s' = edge_counter s
    /\ num_iterations s' = num_iterations s.
Proof. apply simulation_accounting. Qed.

(** X20.  Under a budget type that is none of the three known ones
    [is_budget_over] is always false, and the tree-search planning loop
    never returns: whatever the fuel, the run raises or is still
    looping. *)
Theorem tree_search_unknown_budget_never_returns (E : Collaborators)
    (gs : GameState E) (s : Agent E) :
  budget_type s = OTHER_BUDGET ->
  forall fuel u s', plan_loop fuel gs s <> Ret (u, s').
Proof.
  intros Hbt fuel. revert s Hbt.
  induction fuel as [|fuel IH]; intros s Hbt u s' H; simpl in H;
    unfold bind, get in H;
    (assert (is_budget_over s = false) as Hover
       by (unfold is_budget_over; rewrite Hbt; reflexivity));
    rewrite Hover in H.
  - discriminate H.
  - destruct (plan_iteration (S fuel) gs s) as [[u1 s1]| |] eqn:Hit;
      try discriminate.
    destruct (@plan_iteration_counts E (S fuel) gs s s1 u1 Hit) as (Hb & _).
    apply (IH s1 (eq_trans Hb Hbt) u s' H).
Qed.

End TreeFacts.
(** ** The graph-search agent: the best step and the move of the root *)

Module BestStepFacts.
Import Py PyFacts MCGS MCGSFacts.


Section Climb.

Context (E : Collaborators) (G : GraphAlgorithms E).

Lemma climb_along (s : Agent E) b l :
  chain_to_child_of (root_node s) (heap s) b l ->
  forall fuel, (length l <= S fuel)%nat ->
    exists best,
      last l = Some best /\ climb_to_root_child fuel b s = Ret (best, s).
Proof.
  induction 1 as [a n Ha Hs | a n p l Ha Hs Hn Hw IH]; intros fuel Hlen.
  - unfold is_child_of in Hs. destruct (parent n) as [p|] eqn:Hp;
      [|discriminate].
    exists a. split; [reflexivity|].
    destruct fuel; cbn [climb_to_root_child];
      (erewrite bind_eq by (apply deref_eq; exact Ha));
      (erewrite bind_eq by reflexivity); rewrite Hp, Hs; reflexivity.
  - destruct (ChainFacts.walk_head Hw) as [l' ->].
    destruct fuel as [|fuel]; [simpl in Hlen; lia|].
    destruct (IH fuel) as (best & Hlast & Hrun); [simpl in *; lia|].
    exists best. split; [exact Hlast|].
    cbn [climb_to_root_child].
    erewrite bind_eq by (apply deref_eq; exact Ha).
    erewrite bind_eq by reflexivity.
    rewrite Hn. unfold is_child_of in Hs. rewrite Hn in Hs. rewrite Hs.
    exact Hrun.
Qed.

Lemma climb_returned fuel :
  forall (s : Agent E) b best s',
    climb_to_root_child fuel b s = Ret (best, s') ->
    s' = s
    /\ exists l n,
         chain_to_child_of (root_node s) (heap s) b l
         /\ (length l <= S fuel)%nat
         /\ last l = Some best
         /\ heap s !! best = Some n /\ parent n = Some (root_node s).
Proof.
  induction fuel as [|fuel IH]; intros s b best s' H;
    cbn [climb_to_root_child] in H;
    apply bind_Ret in H as (n & s1 & H1 & H);
    unfold deref in H1;
    (destruct (heap s !! b) as [n0|] eqn:Hb; [|discriminate]);
    injection H1 as <- <-;
    apply bind_Ret in H as (root & s1 & H1 & H); injection H1 as <- <-;
    (destruct (parent n0) as [p|] eqn:Hp; [|discriminate]);
    (destruct (Nat.eqb_spec p (root_node s)) as [-> | Hne];
     [ injection H as <- <-; split; [reflexivity|];
       exists [b], n0; split;
       [ eapply Chain.walk_stop; [exact Hb|]; unfold is_child_of;
         rewrite Hp; apply Nat.eqb_refl
       | split; [simpl; lia|]; split; [reflexivity | split; assumption] ] |]).
  - discriminate.
  - apply IH in H as (-> & l & n & Hw & Hlen & Hlast & Hn & Hpn).
    split; [reflexivity|]. exists (b :: l), n.
    split; [|split; [|split; [|split; assumption]]].
    + eapply Chain.walk_step; [exact Hb | | exact Hp | exact Hw].
      unfold is_child_of. rewrite Hp. apply Nat.eqb_neq. exact Hne.
    + simpl. lia.
    + destruct (ChainFacts.walk_head Hw) as [l' ->]. exact Hlast.
Qed.

Lemma climb_unrooted (s : Agent E) b l :
  chain_to_root (heap s) b l ->
  (forall c n, c ∈ l -> heap s !! c = Some n ->
               parent n <> Some (root_node s)) ->
  forall fuel, (length l <= S fuel)%nat ->
    climb_to_root_child fuel b s = Raise AttributeError.
Proof.
  induction 1 as [a n Ha Hs | a n p l Ha Hs Hn Hw IH]; intros Hun fuel Hlen.
  - unfold no_parent in Hs. destruct (parent n) eqn:Hp; [discriminate|].
    destruct fuel; cbn [climb_to_root_child];
      (erewrite bind_eq by (apply deref_eq; exact Ha));
      (erewrite bind_eq by reflexivity); rewrite Hp; reflexivity.
  - destruct (ChainFacts.walk_head Hw) as [l' ->].
    destruct fuel as [|fuel]; [simpl in Hlen; lia|].
    cbn [climb_to_root_child].
    erewrite bind_eq by (apply deref_eq; exact Ha).
    erewrite bind_eq by reflexivity.
    rewrite Hn.
    destruct (Nat.eqb_spec p (root_node s)) as [-> | Hne].
    + exfalso. apply (Hun a n); [apply list_elem_of_here | exact Ha | exact Hn].
    + apply IH; [|simpl in *; lia].
      intros c m Hc. apply Hun. apply list_elem_of_further. exact Hc.
Qed.

End Climb.
(** X21.  When the store names a best node, [select_best_step] climbs
    from it along the parent chain to the nearest node that hangs
    directly under the root.  It returns exactly when, within the fuel,
    the chain reaches such a node and the store has an edge from [node]
    to it: it answers that node with the action of that edge and
    changes nothing.  When the chain reaches the node with no parent
    without passing a child of the root (the best node is the root
    itself, say) it raises [AttributeError]. *)
Theorem select_best_step_climbs_to_child_of_root (E : Collaborators)
    (G : GraphAlgorithms E) (fuel : nat) (node : nat) (s s' : Agent E)
    (b best : nat) (a : option (Action E)) :
  get_best_node G (heap s) (graph s) true = Some b ->
  (select_best_step G fuel node false s = Ret ((best, a), s')
   <-> s' = s
       /\ exists l n e,
            chain_to_child_of (root_node s) (heap s) b l
            /\ (length l <= S fuel)%nat
            /\ last l = Some best
            /\ heap s !! best = Some n /\ parent n = Some (root_node s)
            /\ get_edge_info (graph s) (Some node) best = Ret e
            /\ a = Some (edge_action e))
  /\ (forall l,
        chain_to_root (heap s) b l ->
        (forall c n, c ∈ l -> heap s !! c = Some n ->
                     parent n <> Some (root_node s)) ->
        (length l <= S fuel)%nat ->
        select_best_step G fuel node false s = Raise AttributeError).
Proof.
  intros Hbest. split; [split|].
  - intros H. unfold select_best_step in H.
    apply bind_Ret in H as (s0 & s1 & H0 & H). injection H0 as <- <-.
    cbv zeta in H. rewrite Hbest in H.
    apply bind_Ret in H as (best' & s1 & H1 & H).
    apply climb_returned in H1 as (-> & l & n & Hw & Hlen & Hlast & Hn & Hp).
    apply bind_Ret in H as (s0 & s1 & H0 & H). injection H0 as <- <-.
    apply bind_Ret in H as (e & s1 & H1 & H). apply lift_Ret in H1 as [He ->].
    injection H as <- <- <-.
    split; [reflexivity|]. exists l, n, e. repeat split; assumption.
  - intros (-> & l & n & e & Hw & Hlen & Hlast & _ & _ & He & ->).
    destruct (@climb_along E s b l Hw fuel Hlen) as (best' & Hlast' & Hrun).
    rewrite Hlast in Hlast'. injection Hlast' as <-.
    unfold select_best_step.
    unfold bind at 1, get. cbv zeta. rewrite Hbest.
    erewrite bind_eq by exact Hrun.
    unfold bind at 1, get. unfold bind at 1, lift. rewrite He. reflexivity.
  - intros l Hw Hun Hlen. unfold select_best_step.
    unfold bind at 1, get. cbv zeta. rewrite Hbest.
    unfold bind at 1. rewrite (@climb_unrooted E s b l Hw Hun fuel Hlen).
    reflexivity.
Qed.

Lemma get_optimal_action_without_path (E : Collaborators)
    (G : GraphAlgorithms E) (fuel : nat) (node : nat) (s : Agent E)
    (a : option (Action E)) (b : nat) (n : Node E) :
  select_best_step G fuel node false s = Ret ((b, a), s) ->
  heap s !! b = Some n ->
  has_path G (<[b := set_parent None (set_chosen true n)]> (heap s))
    (graph s) b (root_node s) = false ->
  get_optimal_action G fuel node s
  = Ret (a, with_root_node b
              (with_heap
                 (<[b := set_parent None (set_chosen true n)]> (heap s)) s)).
Proof.
  intros Hsel Hb Hpath. unfold get_optimal_action.
  erewrite bind_eq by exact Hsel. cbn [fst snd].
  assert (b < length (heap s))%nat as Hlt by (eapply lookup_lt_Some; exact Hb).
  unfold update at 1.
  erewrite bind_eq
    by (erewrite bind_eq by (apply deref_eq; exact Hb); reflexivity).
  unfold update at 1.
  erewrite bind_eq
    by (erewrite bind_eq
          by (apply deref_eq; cbn [heap with_heap];
              apply list_lookup_insert_eq; exact Hlt);
        reflexivity).
  cbn [heap with_heap]. rewrite list_insert_insert_eq.
  erewrite bind_eq by reflexivity.
  cbn [heap graph root_node with_heap]. rewrite Hpath.
  erewrite bind_eq by reflexivity. erewrite bind_eq by reflexivity.
  reflexivity.
Qed.

(** X22.  [get_optimal_action] makes the node that [select_best_step]
    answers the root.  It issues no forward-model call, leaves the
    store as it is and neither constructs nor destroys a node nor
    changes a fingerprint; when no path leads from the new root back to
    the old one, the only change to the nodes is that the new root is
    flagged [chosen] and loses its parent.  In that case it returns
    whenever [select_best_step] does. *)
Theorem get_optimal_action_moves_root (E : Collaborators)
    (G : GraphAlgorithms E) (fuel : nat) (node : nat) (s s' : Agent E)
    (a : option (Action E)) :
  keeps_ids G ->
  (get_optimal_action G fuel node s = Ret (a, s') ->
   exists b n,
     select_best_step G fuel node false s = Ret ((b, a), s)
     /\ heap s !! b = Some n
     /\ root_node s' = b
     /\ @id E <$> heap s' = @id E <$> heap s
     /\ graph s' = graph s
     /\ forward_model_calls s' = forward_model_calls s
     /\ fm_advances s' = fm_advances s
     /\ (has_path G (<[b := set_parent None (set_chosen true n)]> (heap s))
           (graph s) b (root_node s) = false ->
         heap s' = <[b := set_parent None (set_chosen true n)]> (heap s)))
  /\ (forall b n,
        select_best_step G fuel node false s = Ret ((b, a), s) ->
        heap s !! b = Some n ->
        has_path G (<[b := set_parent None (set_chosen true n)]> (heap s))
          (graph s) b (root_node s) = false ->
        get_optimal_action G fuel node s
        = Ret (a, with_root_node b
                    (with_heap
                       (<[b := set_parent None (set_chosen true n)]> (heap s))
                       s))).
Proof.
  intros HG. split; [|apply get_optimal_action_without_path].
  intros H. unfold get_optimal_action in H.
  apply bind_Ret in H as ([b a'] & s1 & Hsel & H).
  pose proof (select_best_step_pure _ _ _ _ _ Hsel) as ->.
  cbn [fst snd] in H.
  apply bind_Ret in H as (u & s1 & H1 & H).
  unfold update in H1. apply bind_Ret in H1 as (n & s2 & H2 & H1).
  unfold deref in H2. destruct (heap s !! b) as [n0|] eqn:Hb; [|discriminate].
  injection H2 as <- <-. injection H1 as _ <-.
  assert (b < length (heap s))%nat as Hlt by (eapply lookup_lt_Some; exact Hb).
  apply bind_Ret in H as (u1 & s1 & H1 & H).
  unfold update in H1.
  erewrite bind_eq in H1
    by (apply deref_eq; cbn [heap with_heap];
        apply list_lookup_insert_eq; exact Hlt).
  injection H1 as _ <-. cbn [heap with_heap] in H.
  rewrite list_insert_insert_eq in H.
  set (h1 := <[b := set_parent None (set_chosen true n0)]> (heap s)) in *.
  assert (@id E <$> h1 = @id E <$> heap s) as Hids1.
  { subst h1.
    apply (@ids_insert E (heap s) b n0
             (fun m => set_parent None (set_chosen true m)) Hb eq_refl). }
  apply bind_Ret in H as (s0 & s1 & H0 & H). injection H0 as <- <-.
  apply bind_Ret in H as (u2 & s2 & H2 & H).
  apply bind_Ret in H as (u3 & s3 & H3 & H). injection H3 as _ <-.
  injection H as <- <-.
  cbn [root_node graph heap with_heap with_root_node forward_model_calls
       fm_advances] in H2.
  exists b, n0. split; [exact Hsel|]. split; [exact Hb|].
  split; [reflexivity|].
  cbn [root_node graph heap with_root_node forward_model_calls fm_advances].
  change (<[b := set_parent None (set_chosen true n0)]> (heap s)) with h1.
  destruct (has_path G h1 (graph s) b (root_node s)) eqn:Hpath.
  - apply bind_Ret in H2 as (h & s1 & H1 & H2).
    apply lift_Ret in H1 as [Hre ->].
    apply bind_Ret in H2 as (u4 & s1 & H1 & H2). injection H1 as _ <-.
    apply bind_Ret in H2 as (root & s1 & H1 & H2).
    unfold deref in H1. cbn [heap with_heap] in H1.
    destruct (h !! root_node s) as [r0|] eqn:Hr; [|discriminate].
    injection H1 as <- <-.
    apply bind_Ret in H2 as (s0 & s1 & H0 & H2). injection H0 as <- <-.
    apply bind_Ret in H2 as (e & s1 & H1 & H2).
    apply lift_Ret in H1 as [_ ->].
    unfold update in H2.
    erewrite bind_eq in H2 by (apply deref_eq; cbn [heap with_heap]; exact Hr).
    injection H2 as _ <-.
    cbn [heap graph forward_model_calls fm_advances with_heap].
    split; [|split; [reflexivity|split; [reflexivity|split;
                      [reflexivity|discriminate]]]].
    rewrite (@ids_insert E h (root_node s) r0
               (fun m => set_action (Some (edge_action e)) m) Hr eq_refl).
    rewrite (proj1 HG _ _ _ _ _ Hre). exact Hids1.
  - injection H2 as _ <-.
    cbn [heap graph forward_model_calls fm_advances with_heap].
    split; [exact Hids1|]. repeat split.
Qed.

End BestStepFacts.
(** ** The tree-search agent: what holds in every state it can reach *)

Module TreeInvariant.
Import Py PyFacts MCTS MCTSFacts TreeFacts.


Section Anchored.

Context (E : Collaborators).

(** What the methods keep: every node is anchored, and the node counter
    is one behind the number of node objects. *)
Local Abbreviation sound :=
  (fun s : Agent E =>
     anchored (heap s)
     /\ node_counter s = Z.of_nat (length (heap s)) - 1).

Lemma anchored_ext (h h' : list Node) :
  length h' = length h ->
  (forall b n, h !! b = Some n ->
     exists n', h' !! b = Some n'
                /\ chosen n' = chosen n /\ parent n' = parent n) ->
  anchored h -> anchored h'.
Proof.
  intros Hlen Hext Hh a Ha. rewrite Hlen in Ha.
  destruct (Hh a Ha) as [l Hl]. exists l.
  eapply ChainFacts.walk_ext; [exact Hext | exact Hl].
Qed.

Lemma anchored_alter (f : Node -> Node) a (h : list Node) :
  (forall n, chosen (f n) = chosen n /\ parent (f n) = parent n) ->
  anchored h -> anchored (alter f a h).
Proof.
  intros Hf. apply anchored_ext; [apply length_alter|].
  intros b n Hb. destruct (decide (a = b)) as [<- | Hne].
  - exists (f n). rewrite list_lookup_alter_eq, Hb. split; [reflexivity|].
    apply Hf.
  - exists n. rewrite list_lookup_alter_ne by exact Hne. auto.
Qed.

Lemma anchored_alter_all v l :
  forall h : list Node, anchored h -> anchored (Chain.alter_all (bump E v) l h).
Proof.
  induction l as [|a l IH]; intros h Hh; [exact Hh|].
  rewrite ChainFacts.alter_all_cons. apply IH.
  apply anchored_alter; [|exact Hh]. intros n. split; reflexivity.
Qed.

(** Flagging a node [chosen] can only shorten chains. *)
Lemma walk_set_chosen (h : list Node) c a l :
  chain_to_chosen h a l ->
  exists l', chain_to_chosen (alter (set_chosen true) c h) a l'.
Proof.
  induction 1 as [a n Ha Hs | a n p l Ha Hs Hn Hw [l' IH]].
  - exists [a]. destruct (decide (c = a)) as [-> | Hne].
    + eapply Chain.walk_stop;
        [rewrite list_lookup_alter_eq, Ha; reflexivity | reflexivity].
    + eapply Chain.walk_stop;
        [rewrite list_lookup_alter_ne by exact Hne; exact Ha | exact Hs].
  - destruct (decide (c = a)) as [-> | Hne].
    + exists [a]. eapply Chain.walk_stop;
        [rewrite list_lookup_alter_eq, Ha; reflexivity | reflexivity].
    + exists (a :: l'). eapply Chain.walk_step;
        [ rewrite list_lookup_alter_ne by exact Hne; exact Ha
        | exact Hs | exact Hn | exact IH ].
Qed.

Lemma anchored_set_chosen c (h : list Node) :
  anchored h -> anchored (alter (set_chosen true) c h).
Proof.
  intros Hh a Ha. rewrite length_alter in Ha.
  destruct (Hh a Ha) as [l Hl]. eapply walk_set_chosen. exact Hl.
Qed.

Lemma sound_selection fuel node env : preserves sound (@selection E fuel node env).
Proof.
  intros s [leaf env'] s' [Hk Hn] H.
  apply selection_descends in H
    as (_ & acts & _ & _ & _ & _ & Hh & _ & _ & Hnc & _).
  rewrite Hh, Hnc. split; assumption.
Qed.

Lemma sound_simulation fuel node env :
  preserves sound (@simulation E fuel node env).
Proof.
  intros s v s' [Hk Hn] H.
  apply simulation_accounting in H
    as (k & _ & _ & _ & Hh & _ & _ & Hnc & _).
  rewrite Hh, Hnc. split; assumption.
Qed.

Lemma sound_back_propagation fuel node v :
  preserves sound (@back_propagation E fuel node v).
Proof.
  intros s [] s' [Hk Hn] H. destruct node as [a|].
  - apply tree_back_propagation_returned in H as (l & _ & _ & ->).
    cbn [heap with_heap node_counter].
    rewrite ChainFacts.alter_all_length.
    split; [apply anchored_alter_all; exact Hk | exact Hn].
  - rewrite tree_back_propagation_None in H. discriminate.
Qed.

Lemma sound_get_best_action node : preserves sound (@get_best_action E node).
Proof.
  intros s a s' [Hk Hn] H. unfold get_best_action in H.
  apply bind_Ret in H as (sel & s1 & Hsel & H).
  apply select_child_pure in Hsel as ->.
  apply bind_Ret in H as (u & s1 & H1 & H).
  unfold update in H1. apply bind_Ret in H1 as (n & s2 & H2 & H1).
  unfold deref in H2.
  destruct (heap s !! fst sel) as [n0|] eqn:Hc; [|discriminate].
  injection H2 as <- <-. injection H1 as _ <-.
  apply bind_Ret in H as (u' & s1 & H1 & H). injection H1 as _ <-.
  injection H as _ <-.
  cbn [heap with_heap with_root_node node_counter].
  rewrite (insert_alter _ _ _ Hc), length_alter.
  split; [apply anchored_set_chosen; exact Hk | exact Hn].
Qed.

Lemma sound_expansion node env : preserves sound (@expansion E node env).
Proof.
  intros s r s1 [Hk Hn] H.
  destruct (heap s !! node) as [n|] eqn:Hnode.
  - destruct (expansion_spec node env s Hnode)
      as (s' & Hrun & Hlen & Hnode' & Hold & Hnew & _ & _ & Hnc & _).
    rewrite Hrun in H. injection H as _ <-.
    assert (node < length (heap s))%nat as Hlt
      by (eapply lookup_lt_Some; exact Hnode).
    assert (forall b m, heap s !! b = Some m ->
              exists m', heap s' !! b = Some m'
                         /\ chosen m' = chosen m /\ parent m' = parent m)
      as Hext.
    { intros b m Hb. destruct (decide (b = node)) as [-> | Hne].
      - exists (set_is_leaf false n). rewrite Hnode in Hb. injection Hb as <-.
        split; [exact Hnode' | split; reflexivity].
      - exists m. split; [apply Hold; assumption | split; reflexivity]. }
    split; [|rewrite Hnc, Hlen; lia].
    intros a Ha. rewrite Hlen in Ha.
    destruct (decide (a < length (heap s))%nat) as [Hin | Hout].
    + destruct (Hk a Hin) as [l Hl]. exists l.
      eapply ChainFacts.walk_ext; [exact Hext | exact Hl].
    + destruct (lookup_lt_is_Some_2 (generate_actions E env (player_id s))
                  (a - length (heap s))) as [x Hx]; [lia|].
      destruct (Hnew _ _ Hx) as (c & Hc & _ & _ & Hp & _ & _ & _ & Hch).
      replace (length (heap s) + (a - length (heap s)))%nat with a in Hc
        by lia.
      destruct (Hk node Hlt) as [l Hl].
      exists (a :: l). eapply Chain.walk_step; [exact Hc | exact Hch | exact Hp |].
      eapply ChainFacts.walk_ext; [exact Hext | exact Hl].
  - unfold expansion, bind at 1, update, bind at 1, deref in H.
    rewrite Hnode in H. discriminate.
Qed.

Lemma sound_plan_iteration fuel gs : preserves sound (@plan_iteration E fuel gs).
Proof.
  unfold plan_iteration.
  apply preserves_bind; [apply preserves_gets | intros root].
  apply preserves_bind; [apply sound_selection | intros sel].
  apply preserves_bind; [apply sound_expansion | intros children].
  apply preserves_bind.
  - apply preserves_for_each. intros acc child.
    apply preserves_bind; [apply sound_simulation | intros v].
    apply sound_back_propagation.
  - intros u. apply preserves_modify. intros s Hs. exact Hs.
Qed.

Lemma sound_plan_loop fuel : forall gs, preserves sound (@plan_loop E fuel gs).
Proof.
  induction fuel as [|fuel IH]; intros gs; simpl;
    (apply preserves_bind; [apply preserves_get | intros s0]);
    destruct (is_budget_over s0);
    try apply preserves_ret; try apply preserves_out_of_fuel.
  apply preserves_bind; [apply sound_plan_iteration | intros u]. apply IH.
Qed.

Lemma sound_plan fuel gs : preserves sound (@plan E fuel gs).
Proof.
  unfold plan.
  apply preserves_bind; [apply sound_plan_loop | intros u].
  apply preserves_bind; [apply preserves_gets | intros root].
  apply sound_get_best_action.
Qed.

Lemma sound_compute_action fuel gs : preserves sound (@compute_action E fuel gs).
Proof.
  unfold compute_action, reset_budget.
  apply preserves_bind;
    [apply preserves_modify; intros s Hs; exact Hs | intros u].
  apply preserves_bind; [apply preserves_gets | intros player].
  destruct (generate_actions E gs player) as [|x [|y l]];
    try apply preserves_ret;
    (apply preserves_bind; [apply sound_plan | intros a]);
    (apply preserves_bind; [|intros; apply preserves_ret]);
    destruct (negb (validate E a gs)); try apply preserves_ret;
    destruct (last _); try apply preserves_ret; apply preserves_raise.
Qed.

Lemma sound_init seed budget player gs : sound (init E seed budget player gs).
Proof.
  split; [|reflexivity].
  intros a Ha. simpl in Ha. assert (a = 0%nat) as -> by lia.
  exists [0%nat]. eapply Chain.walk_stop; reflexivity.
Qed.

Lemma reachable_sound (s : Agent E) : reachable s -> sound s.
Proof.
  induction 1 as [seed budget player gs | s s' Hr IH Hstep].
  - apply sound_init.
  - destruct Hstep as
      [fuel gs r s s' H | fuel gs r s s' H | fuel node env r s s' H
      | node env r s s' H | fuel node env r s s' H | fuel node v r s s' H
      | node r s s' H].
    + eapply sound_compute_action; eassumption.
    + eapply sound_plan; eassumption.
    + eapply sound_selection; eassumption.
    + eapply sound_expansion; eassumption.
    + eapply sound_simulation; eassumption.
    + eapply sound_back_propagation; eassumption.
    + eapply sound_get_best_action; eassumption.
Qed.

End Anchored.
(** X23.  In every state the tree-search agent can reach, the parent
    chain of every node meets a node flagged [chosen], so
    [back_propagation] from any node returns, having updated that
    chain: it never steps past the root.  The node counter is one
    behind the number of node objects constructed. *)
Theorem tree_back_propagation_always_returns (E : Collaborators)
    (s : Agent E) :
  reachable s ->
  node_counter s = Z.of_nat (length (heap s)) - 1
  /\ forall a v,
       (a < length (heap s))%nat ->
       exists l,
         chain_to_chosen (heap s) a l
         /\ back_propagation (length l) (Some a) v s
            = Ret (tt, with_heap (Chain.alter_all (bump E v) l (heap s)) s).
Proof.
  intros Hr. destruct (reachable_sound Hr) as [Hk Hn].
  split; [exact Hn|]. intros a v Ha.
  destruct (Hk a Ha) as [l Hl]. exists l. split; [exact Hl|].
  apply back_propagation_along_chosen_chain; [exact Hl | lia].
Qed.

End TreeInvariant.

(** ** Runs in the small world *)

Module Runs.
Import Py PyFacts Examples.

Lemma toy_graph_keeps_ids : MCGS.keeps_ids toy_graph.
Proof.
  split; simpl; intros.
  - injection H as <-. reflexivity.
  - injection H as <-. reflexivity.
Qed.

Lemma mcgs_start_reachable : MCGS.reachable toy_graph mcgs_start.
Proof.
  apply (@MCGS.reachable_init toy toy_graph tt tt MAX_FM_CALLS 0 0%nat).
  reflexivity.
Qed.

Lemma mcgs_end_reachable : MCGS.reachable toy_graph mcgs_end.
Proof.
  eapply MCGS.reachable_step; [exact mcgs_start_reachable|].
  eapply (@MCGS.step_plan toy toy_graph 20 0%nat None).
  vm_compute. reflexivity.
Qed.

(** C1 at a state reached by planning: at most one node carries the
    fingerprint of the root's successor, and observing it again fetches
    that node. *)
Lemma dedup_invariant_witness :
  (length (MCGS.nodes_with_fingerprint mcgs_end "a") <= 1)%nat
  /\ forall p a r c v s',
       MCGS.add_new_observation "a" p a r mcgs_end = Ret ((c, v), s') ->
       MCGS.nodes_with_fingerprint s' "a" = [c]
       /\ if MCGS.has_node (MCGS.heap mcgs_end) (MCGS.graph mcgs_end)
               (MCGS.Fingerprint "a")
          then MCGS.get_node_info (MCGS.heap mcgs_end) (MCGS.graph mcgs_end)
                 "a" = Ret c
               /\ length (MCGS.heap s') = length (MCGS.heap mcgs_end)
          else c = length (MCGS.heap mcgs_end)
               /\ length (MCGS.heap s') = S (length (MCGS.heap mcgs_end)).
Proof.
  apply (@MCGSFacts.dedup_invariant toy toy_graph mcgs_end "a").
  - exact toy_graph_keeps_ids.
  - exact mcgs_end_reachable.
Defined.



Lemma no_reachable_node_fallback_witness :
  (forall closest,
     (closest = true ->
      MCGS.get_closest_done_node toy_graph (MCGS.heap mcgs_tight_end)
        (MCGS.graph mcgs_tight_end) true = None) ->
     MCGS.select_best_step toy_graph 5 (MCGS.root_node mcgs_tight_end)
       closest mcgs_tight_end
     = Ret ((MCGS.root_node mcgs_tight_end, None), mcgs_tight_end))
  /\ MCGS.plan toy_graph 5 0%nat (MCGS.budget_reset mcgs_tight)
     = Ret (None, mcgs_tight_end)
  /\ MCGS.compute_action toy_graph 5 0%nat mcgs_tight
     = Ret (create_end_action_assignment (MCGS.player_id mcgs_tight),
            mcgs_tight_end).
Proof.
  apply (@MCGSFacts.no_reachable_node_fallback toy toy_graph 5 0%nat
           mcgs_tight mcgs_tight_rooted mcgs_tight_end
           (MCGS.heap mcgs_tight_rooted)).
  - vm_compute. reflexivity.
  - reflexivity.
  - vm_compute. reflexivity.
  - reflexivity.
Defined.

(** *** Back-propagation on a line of three nodes *)

Lemma mcts_line_to_root : MCTS.chain_to_root mcts_line 2 [2; 1; 0]%nat.
Proof.
  apply (ChainFacts.walk_from_sound MCTS.no_parent MCTS.parent 3).
  reflexivity.
Qed.

Lemma mcts_line_to_chosen : MCTS.chain_to_chosen mcts_line 2 [2; 1]%nat.
Proof.
  apply (ChainFacts.walk_from_sound MCTS.chosen MCTS.parent 3).
  reflexivity.
Qed.

Lemma mcgs_line_to_root : MCGS.chain_to_root mcgs_line 2 [2; 1; 0]%nat.
Proof.
  apply (ChainFacts.walk_from_sound (@MCGS.no_parent toy) (@MCGS.parent toy) 3).
  reflexivity.
Qed.

Lemma mcgs_line_to_chosen : MCGS.chain_to_chosen mcgs_line 2 [2; 1]%nat.
Proof.
  apply (ChainFacts.walk_from_sound (@MCGS.chosen toy) (@MCGS.parent toy) 3).
  reflexivity.
Qed.

(** C3 fails as stated.  In the tree search the chain of node 2 to the
    node with no parent is 2, 1, 0, yet the root 0 keeps its zero
    visits: propagation stops at the chosen node 1.  In the graph search
    the nearest chosen node on the chain of node 2 is 1, yet the root 0
    beyond it gets a visit. *)
Lemma back_propagation_stops_swapped :
  (MCTS.chain_to_root (MCTS.heap mcts_on_line) 2 [2; 1; 0]%nat
   /\ MCTS.visits <$> MCTS.heap mcts_on_line !! 0%nat = Some 0
   /\ MCTS.visits <$>
        MCTS.heap (final_state
                     (MCTS.back_propagation 3 (Some 2%nat) 1%R mcts_on_line)
                     mcts_on_line) !! 0%nat = Some 0
   /\ MCTS.visits <$>
        MCTS.heap (final_state
                     (MCTS.back_propagation 3 (Some 2%nat) 1%R mcts_on_line)
                     mcts_on_line) !! 1%nat = Some 1)
  /\ (MCGS.chain_to_chosen (MCGS.heap mcgs_on_line) 2 [2; 1]%nat
      /\ @MCGS.visits toy <$> MCGS.heap mcgs_on_line !! 0%nat = Some 0
      /\ @MCGS.visits toy <$>
           MCGS.heap (final_state
                        (MCGS.back_propagation 3 (Some 2%nat) 1%R mcgs_on_line)
                        mcgs_on_line) !! 0%nat = Some 1).
Proof.
  split; [split; [exact mcts_line_to_root|] | split; [exact mcgs_line_to_chosen|]];
    repeat split; vm_compute; reflexivity.
Qed.

Lemma back_propagation_stop_conditions_witness :
  (MCTS.back_propagation 3 (Some 2%nat) 1%R mcts_on_line
   = Ret (tt, MCTS.with_heap
                (Chain.alter_all (MCTS.bump toy 1%R) [2; 1]%nat
                   (MCTS.heap mcts_on_line)) mcts_on_line)
   /\ forall c,
        Chain.alter_all (MCTS.bump toy 1%R) [2; 1]%nat (MCTS.heap mcts_on_line) !! c
        = if bool_decide (c ∈ [2; 1]%nat)
          then MCTS.bump toy 1%R <$> MCTS.heap mcts_on_line !! c
          else MCTS.heap mcts_on_line !! c)
  /\ (MCGS.back_propagation 3 (Some 2%nat) 1%R mcgs_on_line
      = Ret (tt, MCGS.with_heap
                   (Chain.alter_all (MCGS.bump 1%R) [2; 1; 0]%nat
                      (MCGS.heap mcgs_on_line)) mcgs_on_line)
      /\ forall c,
           Chain.alter_all (MCGS.bump 1%R) [2; 1; 0]%nat
             (MCGS.heap mcgs_on_line) !! c
           = if bool_decide (c ∈ [2; 1; 0]%nat)
             then MCGS.bump 1%R <$> MCGS.heap mcgs_on_line !! c
             else MCGS.heap mcgs_on_line !! c).
Proof.
  apply (@Variants.back_propagation_stop_conditions toy 3
           mcts_on_line mcgs_on_line 2%nat 2%nat).
  - exact mcts_line_to_chosen.
  - simpl. lia.
  - exact mcgs_line_to_root.
  - simpl. lia.
Defined.

(** *** Scores *)

(** C6 fails as stated: at an unvisited node with a parent the UCT score
    of either variant divides by zero. *)
Lemma uct_value_divides_by_zero :
  MCGS.visits mcgs_leaf = 0
  /\ MCGS.uct_value mcgs_line mcgs_leaf = Raise ZeroDivisionError
  /\ MCTS.visits mcts_leaf = 0
  /\ MCTS.uct_value mcts_line mcts_leaf = Raise ZeroDivisionError.
Proof.
  split; [reflexivity|]. split.
  - unfold MCGS.uct_value, mcgs_leaf, mcgs_line. simpl.
    rewrite math_log_pos by (apply IZR_lt; lia). reflexivity.
  - split; [reflexivity|]. reflexivity.
Qed.

Lemma zero_visit_value_guard_witness :
  MCGS.value mcgs_leaf
  = Ret (if MCGS.visits mcgs_leaf =? 0 then 0
         else MCGS.total_value mcgs_leaf / IZR (MCGS.visits mcgs_leaf))%R
  /\ (MCGS.visits mcgs_leaf <> 0 ->
      MCGS.uct_value mcgs_line mcgs_leaf <> Raise ZeroDivisionError)
  /\ (MCTS.visits mcts_pair_child <> 0 ->
      MCTS.uct_value mcts_pair mcts_pair_child <> Raise ZeroDivisionError).
Proof.
  exact (@Variants.zero_visit_value_guard toy mcgs_line mcgs_leaf
           mcts_pair mcts_pair_child).
Defined.

(** C5 at a tree-search node visited once under a parent visited once:
    the score is the mean plus [c * sqrt (ln 1 / 1)], which is 0, where
    the formula of the specification gives [c * sqrt (ln 2 / 1)], which is not. *)
Theorem uct_value_tree_search_drops_plus_one :
  MCTS.parent mcts_pair_child = Some 0%nat
  /\ MCTS.visits mcts_pair_child = 1
  /\ MCTS.visits <$> mcts_pair !! 0%nat = Some 1
  /\ MCTS.uct_value mcts_pair mcts_pair_child = Ret 0%R
  /\ (MCTS.value mcts_pair_child / IZR (MCTS.visits mcts_pair_child)
      + 1 / sqrt 2 * sqrt (ln (IZR (1 + 1)) / IZR (MCTS.visits mcts_pair_child))
      <> 0)%R.
Proof.
  split; [reflexivity|]. split; [reflexivity|]. split; [reflexivity|]. split.
  - rewrite (@MCTSFacts.uct_value_tree_formula mcts_pair mcts_pair_child
               (MCTS.mkNode 0 "" None 0%R 1 false false true false) 0%nat)
      by (reflexivity || simpl; lia).
    simpl. rewrite ln_1. unfold Rdiv. rewrite !Rmult_0_l, sqrt_0.
    f_equal. rewrite Rmult_0_r. lra.
  - cbn [MCTS.value MCTS.visits mcts_pair_child].
    change (IZR (1 + 1)) with 2%R.
    assert (0 < ln 2)%R as Hln by (rewrite <- ln_1; apply ln_increasing; lra).
    assert (0 < sqrt 2)%R as Hs2 by (apply sqrt_lt_R0; lra).
    assert (0 < sqrt (ln 2 / 1))%R as Hs
      by (apply sqrt_lt_R0; unfold Rdiv; rewrite Rinv_1; lra).
    assert (0 < 1 / sqrt 2 * sqrt (ln 2 / 1))%R.
    { apply Rmult_lt_0_compat; [|exact Hs].
      apply Rdiv_lt_0_compat; [lra | exact Hs2]. }
    lra.
Qed.

(** *** The shortcut of the tree-search [compute_action] *)

Lemma single_legal_action_shortcut_witness :
  @MCTS.compute_action toy 5 0%nat mcts_start
  = Ret (from_single_action 0%nat, MCTS.budget_reset mcts_start)
  /\ MCTS.graph (MCTS.budget_reset mcts_start) = MCTS.graph mcts_start
  /\ MCTS.heap (MCTS.budget_reset mcts_start) = MCTS.heap mcts_start
  /\ MCTS.node_counter (MCTS.budget_reset mcts_start)
     = MCTS.node_counter mcts_start
  /\ MCTS.edge_counter (MCTS.budget_reset mcts_start)
     = MCTS.edge_counter mcts_start
  /\ MCTS.root_node (MCTS.budget_reset mcts_start) = MCTS.root_node mcts_start
  /\ MCTS.fm_advances (MCTS.budget_reset mcts_start)
     = MCTS.fm_advances mcts_start.
Proof.
  apply (@MCTSFacts.single_legal_action_shortcut toy 5 0%nat mcts_start 0%nat).
  reflexivity.
Defined.

(** *** Statistics of a freshly expanded node *)

Lemma mcgs_expanded_child :
  @MCGS.expansion toy 0%nat 0%nat mcgs_start = Ret (([1%nat], [0%nat]), mcgs_expanded)
  /\ MCGS.heap mcgs_expanded !! 1%nat = Some mcgs_child.
Proof. split; vm_compute; reflexivity. Qed.






(** *** Rollouts *)

(** C7 fails as stated.  From the state 5 the action leads to the state
    6, where the game is over, so the rollout of the specification takes
    no step and earns nothing; the graph-search rollout takes all ten
    steps, eleven forward-model calls with the one to the child, and
    earns ten. *)
Lemma rollout_ignores_terminal_state :
  is_game_over toy (advance_gamestate toy 5%nat 0%nat) = true
  /\ Spec.rollout toy 10 0 (advance_gamestate toy 5%nat 0%nat) tt
     = (0%R, 0, tt)
  /\ MCGS.fm_advances
       (final_state (@MCGS.rollout toy 0%nat 5%nat (repeat 0%nat 10) mcgs_start)
          mcgs_start)
     - MCGS.fm_advances mcgs_start = 11
  /\ exists c,
       fst <$> result (@MCGS.rollout toy 0%nat 5%nat (repeat 0%nat 10) mcgs_start)
       = Some c
       /\ c = 10%R /\ c <> 0%R.
Proof.
  split; [reflexivity|]. split; [reflexivity|].
  split; [vm_compute; reflexivity|].
  eexists. split; [vm_compute; reflexivity|]. split; lra.
Qed.

(** The simulation of the child of [mcts_expanded], with fuel for the
    whole budget. *)
Lemma mcts_expanded_simulates_in_budget :
  @MCTS.simulation toy 3000 1%nat 0%nat mcts_expanded
  = Ret (mcts_simulated_value, mcts_simulated).
Proof. vm_compute. reflexivity. Qed.

(** At the state 0 both rollouts take steps: an action is legal, the
    budget is not over, the game is not over, the opponent can move, and
    the simulation of the child returns. *)
Lemma rollout_procedure_witness :
  (generate_actions toy 0%nat (MCTS.player_id mcts_expanded) <> []
   /\ MCTS.is_budget_over mcts_expanded = false
   /\ is_game_over toy 0%nat = false
   /\ MCTS.use_opponent_model mcts_expanded = true
   /\ @MCTS.simulation toy 3000 1%nat 0%nat mcts_expanded
      = Ret (mcts_simulated_value, mcts_simulated))
  /\ (exists p,
        @MCGS.rollout toy 0%nat 0%nat (repeat 0%nat 10) mcgs_start
        = Ret ((@MCGS.rollout_reward toy (MCGS.player_id mcgs_start)
                  (advance_gamestate toy 0%nat 0%nat) (repeat 0%nat 10), p),
               MCGS.calls_added (1 + Z.of_nat (length (repeat 0%nat 10)))
                 mcgs_start)
        /\ length p = length (repeat 0%nat 10))
  /\ (exists rewards paths rng,
        @MCGS.sequential_simulation toy 0%nat 0%nat mcgs_start
        = Ret ((numpy_mean toy rewards, paths),
               MCGS.with_random rng
                 (MCGS.calls_added
                    (Z.of_nat (Z.to_nat (MCGS.num_rollouts mcgs_start))
                     * (1 + MCGS.rollout_depth mcgs_start)) mcgs_start))
        /\ length rewards = Z.to_nat (MCGS.num_rollouts mcgs_start)
        /\ length paths = Z.to_nat (MCGS.num_rollouts mcgs_start)
        /\ Forall (@MCGS.simulated toy 0%nat 0%nat mcgs_start) rewards
        /\ Forall (fun p => length p
                            = Z.to_nat (MCGS.rollout_depth mcgs_start)) paths)
  /\ (forall env0 cum0,
        generate_actions toy env0 (MCTS.player_id mcts_expanded) = []
        \/ MCTS.is_budget_over mcts_expanded = true
        \/ is_game_over toy env0 = true ->
        @MCTS.rollout_loop toy 3000 env0 cum0 mcts_expanded
        = Ret (cum0, mcts_expanded))
  /\ (generate_actions toy 0%nat (MCTS.player_id mcts_expanded) <> [] ->
      MCTS.is_budget_over mcts_expanded = false ->
      is_game_over toy 0%nat = false ->
      exists b rng,
        b ∈ generate_actions toy 0%nat (MCTS.player_id mcts_expanded)
        /\ let env1 := advance_gamestate toy 0%nat b in
           let opp_env :=
             set_current_tbs_player toy env1
               (MCTS.get_opponent_id mcts_expanded) in
           let cum1 :=
             float_add toy 0
               (@MCTS.evaluate_state toy env1
                  (MCTS.player_id mcts_expanded)) in
           (MCTS.use_opponent_model mcts_expanded = false ->
            @MCTS.rollout_loop toy 3001 0%nat 0%R mcts_expanded
            = @MCTS.rollout_loop toy 3000 env1 cum1
                (@MCTS.stepped toy rng 1 mcts_expanded))
           /\ (MCTS.use_opponent_model mcts_expanded = true ->
               generate_actions toy opp_env
                 (MCTS.get_opponent_id mcts_expanded) = [] ->
               @MCTS.rollout_loop toy 3001 0%nat 0%R mcts_expanded
               = Raise ValueError)
           /\ (MCTS.use_opponent_model mcts_expanded = true ->
               generate_actions toy opp_env
                 (MCTS.get_opponent_id mcts_expanded) <> [] ->
               exists c rng',
                 c ∈ generate_actions toy opp_env
                       (MCTS.get_opponent_id mcts_expanded)
                 /\ @MCTS.rollout_loop toy 3001 0%nat 0%R mcts_expanded
                    = @MCTS.rollout_loop toy 3000
                        (set_current_tbs_player toy
                           (advance_gamestate toy opp_env c)
                           (MCTS.player_id mcts_expanded))
                        cum1 (@MCTS.stepped toy rng' 2 mcts_expanded)))
  /\ @MCTS.rollout_loop toy 3000 0%nat 0%R mcts_expanded <> OutOfFuel
  /\ ((MCTS.use_opponent_model mcts_expanded = true ->
       forall e,
         generate_actions toy e (MCTS.get_opponent_id mcts_expanded) <> []) ->
      exists c st1,
        @MCTS.rollout_loop toy 3000 0%nat 0%R mcts_expanded = Ret (c, st1))
  /\ (@MCTS.simulation toy 3000 1%nat 0%nat mcts_expanded
      = Ret (mcts_simulated_value, mcts_simulated)
      <-> exists n edge rewards,
            MCTS.heap mcts_expanded !! 1%nat = Some n
            /\ MCTS.get_edge_info (MCTS.graph mcts_expanded) (MCTS.parent n)
                 1%nat = Ret edge
            /\ @MCTS.rollouts_yield toy 3000
                 (advance_gamestate toy 0%nat (MCTS.edge_action edge)) rewards
                 (MCTS.with_fm_advances (MCTS.fm_advances mcts_expanded + 1)
                    mcts_expanded)
                 mcts_simulated
            /\ length rewards = Z.to_nat (MCTS.num_rollouts mcts_expanded)
            /\ np_mean toy rewards = Ret mcts_simulated_value).
Proof.
  split.
  - split; [discriminate|]. split; [reflexivity|]. split; [reflexivity|].
    split; [reflexivity | exact mcts_expanded_simulates_in_budget].
  - apply (@Variants.rollout_procedure toy mcgs_start mcts_expanded
             mcts_simulated 0%nat 0%nat (repeat 0%nat 10) 3000 0%R 1%nat
             mcts_simulated_value).
    + discriminate.
    + simpl. lia.
    + simpl. lia.
    + reflexivity.
    + vm_compute. lia.
Defined.

(** C9 fails as stated.  At the state 0 an action is legal and the game
    is not over.  With calls to spare the tree-search rollout takes two
    steps; with a budget of one call it is cut short after the first,
    at the state 2 where it could go on; with no budget it takes none. *)
Lemma tree_rollout_cut_short_by_budget :
  generate_actions toy 0%nat (MCTS.player_id mcts_start) = [0%nat]
  /\ is_game_over toy 2%nat = false
  /\ result (@MCTS.rollout toy 5 0%nat mcts_start) = Some (0 + 1 + 1)%R
  /\ result (@MCTS.rollout toy 5 0%nat mcts_tight) = Some (0 + 1)%R
  /\ result (@MCTS.rollout toy 5 0%nat mcts_spent) = Some 0%R
  /\ (0 + 1 + 1 <> 0 + 1)%R.
Proof.
  split; [reflexivity|]. split; [reflexivity|].
  split; [vm_compute; reflexivity|].
  split; [vm_compute; reflexivity|].
  split; [vm_compute; reflexivity|]. lra.
Qed.

Lemma budget_consulted_between_iterations_witness :
  @MCGS.rollout toy 0%nat 0%nat [0%nat]
    (MCGS.with_budget MAX_FM_CALLS 1 1000 1000 mcgs_start)
  = map_state (MCGS.with_budget MAX_FM_CALLS 1 1000 1000)
      (@MCGS.rollout toy 0%nat 0%nat [0%nat] mcgs_start)
  /\ @MCGS.sequential_simulation toy 0%nat 0%nat
       (MCGS.with_budget MAX_FM_CALLS 1 1000 1000 mcgs_start)
     = map_state (MCGS.with_budget MAX_FM_CALLS 1 1000 1000)
         (@MCGS.sequential_simulation toy 0%nat 0%nat mcgs_start)
  /\ MCGS.plan_iteration toy_graph 5 0%nat
       (MCGS.with_budget MAX_FM_CALLS 1 1000 1000 mcgs_start)
     = map_state (MCGS.with_budget MAX_FM_CALLS 1 1000 1000)
         (MCGS.plan_iteration toy_graph 5 0%nat mcgs_start)
  /\ (MCTS.is_budget_over mcts_spent = true ->
      @MCTS.rollout_loop toy 5 0%nat 0%R mcts_spent = Ret (0%R, mcts_spent)).
Proof.
  exact (@Variants.budget_consulted_between_iterations toy toy_graph
           mcgs_start mcts_spent MAX_FM_CALLS 1 1000 1000 0%nat 0%nat
           [0%nat] 5 0%R).
Defined.

(** *** The tree search, for contrast *)

(** One iteration of the tree-search loop under a budget of one call:
    two forward-model calls are issued, the one of [simulation] is not
    counted. *)
Lemma tree_iteration_counts_one_of_two :
  MCTS.fm_advances
    (final_state (@MCTS.plan_iteration toy 5 0%nat mcts_tight) mcts_tight) = 2
  /\ MCTS.forward_model_calls
       (final_state (@MCTS.plan_iteration toy 5 0%nat mcts_tight) mcts_tight)
     = 1.
Proof. split; vm_compute; reflexivity. Qed.

(** The tree search constructs a node per expansion and only flags the
    repetition: expanding the root twice leaves two nodes with the
    observation of its successor, the second one [redundant]. *)
Lemma tree_search_keeps_a_node_per_expansion :
  MCTS.nodes_with_observation
    (final_state
       (bind (@MCTS.expansion toy 0%nat 0%nat)
          (fun _ => @MCTS.expansion toy 0%nat 0%nat) mcts_start)
       mcts_start) "a"
  = [1; 2]%nat
  /\ MCTS.redundant <$>
       MCTS.heap
         (final_state
            (bind (@MCTS.expansion toy 0%nat 0%nat)
               (fun _ => @MCTS.expansion toy 0%nat 0%nat) mcts_start)
            mcts_start) !! 2%nat
     = Some true.
Proof. split; vm_compute; reflexivity. Qed.

End Runs.
(** ** More runs in the small worlds *)

Module MoreRuns.
Import Py PyFacts Examples.

(** *** Rerouting in a star of three nodes *)

Lemma star_path_distinct : NoDup [0; 1; 2]%nat.
Proof. apply (bool_decide_unpack _). vm_compute. exact I. Qed.

Lemma star_path_valid (c : nat) :
  c ∈ [0; 1; 2]%nat -> is_Some (mcgs_star !! c).
Proof.
  intros Hc. apply list_elem_of_In in Hc. simpl in Hc.
  destruct Hc as [<- | [<- | [<- | []]]]; eexists; reflexivity.
Qed.

Lemma reroute_relinks_path_witness :
  exists h',
    @MCGS.reroute toy 2 [0; 1; 2]%nat [5; 7]%nat mcgs_star = Ret (tt, h')
    /\ @MCGS.parent toy <$> h' !! 2%nat = Some (Some 1%nat)
    /\ @MCGS.action toy <$> h' !! 2%nat = Some (Some 7%nat)
    /\ @MCGS.action toy <$> h' !! 1%nat = Some (Some 5%nat)
    /\ h' !! 0%nat = mcgs_star !! 0%nat.
Proof.
  destruct (@NodeFacts.reroute_relinks_path toy 2 [0; 1; 2]%nat [5; 7]%nat
              mcgs_star star_path_distinct eq_refl eq_refl star_path_valid)
    as (h' & Hrun & _ & Hin & Hout & _).
  exists h'. split; [exact Hrun|].
  rewrite (Hin 1%nat 1%nat 2%nat 7%nat _ eq_refl eq_refl eq_refl eq_refl).
  rewrite (Hin 0%nat 0%nat 1%nat 5%nat _ eq_refl eq_refl eq_refl eq_refl).
  split; [reflexivity|]. split; [reflexivity|]. split; [reflexivity|].
  apply Hout. simpl. intros Hc. apply list_elem_of_In in Hc. simpl in Hc.
  destruct Hc as [Hc | [Hc | []]]; discriminate.
Defined.

Lemma reroute_too_few_actions_witness :
  @MCGS.reroute toy 2 [0; 1; 2]%nat [5%nat] mcgs_star = Raise IndexError.
Proof.
  apply (@NodeFacts.reroute_too_few_actions toy 2 [0; 1; 2]%nat [5%nat]
           mcgs_star).
  - simpl. lia.
  - eexists. reflexivity.
  - exact star_path_valid.
Defined.

Lemma reroute_then_trajectory_from_root_witness :
  exists h',
    @MCGS.reroute toy 2 [0; 1; 2]%nat [5; 7]%nat mcgs_star = Ret (tt, h')
    /\ MCGS.trajectory_from_root 2 h' 2 = Ret [Some 5%nat; Some 7%nat].
Proof.
  apply (@NodeFacts.reroute_then_trajectory_from_root toy 2 [0; 1; 2]%nat
           [5; 7]%nat mcgs_star 2 star_path_distinct eq_refl eq_refl
           star_path_valid).
  - intros p0 n0 Hp Hn. injection Hp as <-. injection Hn as <-. reflexivity.
  - simpl. lia.
Defined.

(** *** The budget in iterations *)

Lemma graph_search_never_counts_iterations_witness :
  (forall fuel r s',
     MCGS.compute_action toy_graph fuel 0%nat mcgs_counting <> Ret (r, s'))
  /\ (forall fuel s1 s2 u,
        MCGS.plan_iteration toy_graph fuel 0%nat s1 = Ret (u, s2) ->
        MCGS.num_iterations s2 = MCGS.num_iterations s1).
Proof.
  apply (@GraphSearchFacts.graph_search_never_counts_iterations toy toy_graph
           0%nat mcgs_counting).
  right. split; reflexivity.
Defined.

Lemma mcts_once_plans :
  @MCTS.plan_loop toy 5 0%nat mcts_once = Ret (tt, mcts_once_end).
Proof. vm_compute. reflexivity. Qed.

Lemma tree_search_runs_max_iterations_witness :
  @MCTS.iterated toy 0%nat 1%nat mcts_once mcts_once_end
  /\ MCTS.num_iterations mcts_once_end = 1
  /\ forall fuel' s1 s2 u,
       @MCTS.plan_iteration toy fuel' 0%nat s1 = Ret (u, s2) ->
       MCTS.num_iterations s2 = MCTS.num_iterations s1 + 1.
Proof.
  apply (@TreeFacts.tree_search_runs_max_iterations toy 5 0%nat mcts_once
           mcts_once_end).
  - reflexivity.
  - exact mcts_once_plans.
Defined.

(** *** Expansion *)

Lemma mcgs_duel_start_init :
  MCGS.init duel tt tt MAX_FM_CALLS 0 0%nat = Ret (tt, mcgs_duel_start).
Proof. reflexivity. Qed.

Lemma mcgs_duel_start_dedup : MCGS.Dedup mcgs_duel_start.
Proof. split; [reflexivity | apply NoDup_singleton]. Qed.

Lemma graph_expansion_answers_successor_nodes_witness :
  [0%nat] = generate_actions toy 0%nat (MCGS.player_id mcgs_start)
  /\ length [1%nat] = length [0%nat]
  /\ (forall i c a,
        [1%nat] !! i = Some c -> [0%nat] !! i = Some a ->
        (@MCGS.id toy <$> MCGS.heap mcgs_expanded) !! c
        = Some (MCGS.get_observation (advance_gamestate toy 0%nat a)))
  /\ (@MCGS.id toy <$> MCGS.heap mcgs_start)
       `prefix_of` (@MCGS.id toy <$> MCGS.heap mcgs_expanded)
  /\ (length (MCGS.heap mcgs_expanded)
      <= length (MCGS.heap mcgs_start) + length [0%nat])%nat
  /\ MCGS.forward_model_calls mcgs_expanded
     = MCGS.forward_model_calls mcgs_start + Z.of_nat (length [0%nat])
  /\ MCGS.fm_advances mcgs_expanded
     = MCGS.fm_advances mcgs_start + Z.of_nat (length [0%nat]).
Proof.
  apply (@GraphSearchFacts.graph_expansion_answers_successor_nodes toy 0%nat
           0%nat mcgs_start mcgs_expanded [1%nat] [0%nat]).
  vm_compute. reflexivity.
Defined.

Lemma graph_expansion_unchanged_observation_witness :
  @MCGS.expansion duel 0%nat 0%nat mcgs_duel_start
  = Ret (([1; 0]%nat, [0; 1]%nat), mcgs_duel_expanded)
  /\ [1; 0]%nat !! 1%nat = Some 0%nat.
Proof.
  assert (@MCGS.expansion duel 0%nat 0%nat mcgs_duel_start
          = Ret (([1; 0]%nat, [0; 1]%nat), mcgs_duel_expanded)) as H
    by (vm_compute; reflexivity).
  split; [exact H|].
  apply (@GraphSearchFacts.graph_expansion_unchanged_observation duel 0%nat
           _ 0%nat mcgs_duel_start mcgs_duel_expanded [1; 0]%nat [0; 1]%nat
           1%nat 1%nat mcgs_duel_start_dedup eq_refl H eq_refl eq_refl).
Defined.

Lemma sequential_simulation_without_actions_witness :
  @MCGS.sequential_simulation duel 0%nat 3%nat mcgs_duel_start
  = Raise ValueError.
Proof.
  apply (@GraphSearchFacts.sequential_simulation_without_actions duel 0%nat
           3%nat mcgs_duel_start); reflexivity.
Defined.

(** *** The tree search on twins *)

Lemma Rmax_same (x : R) : Rmax x x = x.
Proof. unfold Rmax. destruct (Rle_dec x x); reflexivity. Qed.

(** Both children of the root score the same; the first is chosen. *)
Lemma twins_select (s : MCTS.Agent duel) :
  MCTS.heap s = MCTS.heap mcts_twins ->
  MCTS.graph s = MCTS.graph mcts_twins ->
  MCTS.select_child 0 s = Ret ((1%nat, 7%nat), s).
Proof.
  intros Hh Hg. unfold MCTS.select_child, bind, get. rewrite Hh, Hg.
  change (MCTS.get_children (MCTS.graph mcts_twins) 0) with [1; 2]%nat.
  cbv zeta.
  change (lift (MCTS.map_outcome
                  (MCTS.get_edge_info (MCTS.graph mcts_twins) (Some 0%nat))
                  [1; 2]%nat) s)
    with (@Ret (list (MCTS.Edge duel) * MCTS.Agent duel)
            ([ @MCTS.mkEdge duel 0 0%nat 1%nat 7%nat 1%R;
               @MCTS.mkEdge duel 1 0%nat 2%nat 0%nat 1%R ], s)).
  cbv iota beta.
  set (v := (0 / IZR 1 + 1 / sqrt 2 * sqrt (ln (IZR 2) / IZR 1))%R).
  assert (forall c n,
            MCTS.heap mcts_twins !! c = Some n ->
            MCTS.parent n = Some 0%nat -> MCTS.value n = 0%R ->
            MCTS.visits n = 1 ->
            MCTS.uct_value (MCTS.heap mcts_twins) n = Ret v) as Hscore.
  { intros c n _ Hp Hv Hn.
    rewrite (@MCTSFacts.uct_value_tree_formula (MCTS.heap mcts_twins) n
               (MCTS.mkNode 0 "" None 0%R 2 false false true false) 0%nat
               Hp eq_refl); [|lia | simpl; lia].
    rewrite Hv, Hn. reflexivity. }
  assert (MCTS.map_outcome
            (fun c => match MCTS.heap mcts_twins !! c with
                      | Some n => MCTS.uct_value (MCTS.heap mcts_twins) n
                      | None => Raise BadHandle
                      end) [1; 2]%nat = Ret [v; v]) as ->.
  { cbn [MCTS.map_outcome].
    change (MCTS.heap mcts_twins !! 1%nat)
      with (Some (MCTS.mkNode 0 "a" (Some 0%nat) 0%R 1 true false false false)).
    change (MCTS.heap mcts_twins !! 2%nat)
      with (Some (MCTS.mkNode 1 "a" (Some 0%nat) 0%R 1 true false false false)).
    cbv iota beta.
    rewrite (Hscore 1%nat _ eq_refl eq_refl eq_refl eq_refl).
    cbn [obind].
    rewrite (Hscore 2%nat _ eq_refl eq_refl eq_refl eq_refl).
    reflexivity. }
  cbn [lift].
  unfold MCTS.index_of_max. cbn [fold_left MCTS.index_of].
  rewrite Rmax_same.
  destruct (Req_dec_T v v) as [_ | Hne]; [|contradiction].
  reflexivity.
Qed.

Lemma select_child_takes_first_best_witness :
  mcts_twins = mcts_twins
  /\ exists i v e,
       MCTS.get_children (MCTS.graph mcts_twins) 0 !! i = Some 1%nat
       /\ MCTS.uct_at (MCTS.heap mcts_twins) 1 = Ret v
       /\ (forall j c,
             MCTS.get_children (MCTS.graph mcts_twins) 0 !! j = Some c ->
             exists w, MCTS.uct_at (MCTS.heap mcts_twins) c = Ret w
                       /\ (w <= v)%R /\ ((j < i)%nat -> (w < v)%R))
       /\ MCTS.get_edge_info (MCTS.graph mcts_twins) (Some 0%nat) 1 = Ret e
       /\ 7%nat = MCTS.edge_action e.
Proof.
  apply (@TreeFacts.select_child_takes_first_best duel 0%nat mcts_twins
           mcts_twins 1%nat 7%nat).
  apply twins_select; reflexivity.
Defined.

(** From the root of the twins, selection follows the edge to the first
    child, with one forward-model call. *)
Lemma twins_descent :
  MCTS.descends mcts_twins 0%nat [(1%nat, 7%nat)] 1%nat.
Proof.
  split; [eexists; split; reflexivity|].
  split; [apply twins_select; reflexivity|].
  split; [reflexivity | eexists; split; reflexivity].
Qed.

Lemma tree_selection_reaches_leaf_witness :
  MCTS.descends mcts_twins 0%nat [(1%nat, 7%nat)] 1%nat
  /\ @MCTS.selection duel 1 0%nat 0%nat mcts_twins
     = Ret ((1%nat,
             fold_left (advance_gamestate duel)
               (map snd [(1%nat, 7%nat)]) 0%nat),
            MCTS.calls_added (Z.of_nat (length [(1%nat, 7%nat)])) mcts_twins).
Proof.
  split; [exact twins_descent|].
  apply (proj2 (@TreeFacts.tree_selection_reaches_leaf duel 1 0%nat 0%nat
                  _ mcts_twins _ 1%nat)).
  exists [(1%nat, 7%nat)]. split; [exact twins_descent|].
  split; [simpl; lia|]. split; reflexivity.
Defined.

Lemma compute_action_falls_back_to_last_action_witness :
  exists s',
    @MCTS.compute_action duel 5 0%nat mcts_twins
    = Ret (from_single_action 1%nat, s').
Proof.
  assert (exists s',
            @MCTS.plan duel 5 0%nat (MCTS.budget_reset mcts_twins)
            = Ret (7%nat, s')) as [s' Hplan].
  { eexists. unfold MCTS.plan.
    erewrite bind_eq by reflexivity. erewrite bind_eq by reflexivity.
    unfold MCTS.get_best_action.
    erewrite bind_eq by (apply twins_select; reflexivity).
    reflexivity. }
  exists s'.
  rewrite (@TreeFacts.compute_action_falls_back_to_last_action duel 5 0%nat
             mcts_twins s' 7%nat); [reflexivity | | exact Hplan].
  simpl. lia.
Defined.

(** *** Expansion in the tree search *)

Lemma tree_expansion_creates_children_witness :
  exists s',
    @MCTS.expansion toy 0%nat 0%nat mcts_start = Ret ([1%nat], s')
    /\ length (MCTS.heap s') = 2%nat
    /\ MCTS.is_leaf <$> MCTS.heap s' !! 0%nat = Some false
    /\ MCTS.edges (MCTS.graph s')
       = [@MCTS.mkEdge toy 0 0%nat 1%nat 0%nat
            (MCTS.evaluate_state (E := toy) 0%nat 0)]
    /\ MCTS.node_counter s' = 1 /\ MCTS.edge_counter s' = 1
    /\ MCTS.forward_model_calls s' = 1 /\ MCTS.fm_advances s' = 1.
Proof.
  destruct (@TreeFacts.tree_expansion_creates_children toy 0%nat 0%nat
              mcts_start _ eq_refl)
    as (s' & Hrun & Hlen & Hnode & _ & _ & _ & Hedges & Hnc & Hec & Hfc
        & Hadv & _).
  exists s'. split; [exact Hrun|]. split; [exact Hlen|].
  split; [rewrite Hnode; reflexivity|]. split; [exact Hedges|].
  split; [exact Hnc|]. split; [exact Hec|]. split; [exact Hfc | exact Hadv].
Defined.

Lemma tree_root_and_first_child_share_id_witness :
  exists s' root child,
    @MCTS.expansion toy 0%nat 0%nat (MCTS.init toy tt MAX_FM_CALLS 0 0%nat)
    = Ret (seq 1 1, s')
    /\ MCTS.heap s' !! 0%nat = Some root /\ MCTS.heap s' !! 1%nat = Some child
    /\ MCTS.id root = 0 /\ MCTS.id child = 0
    /\ MCTS.parent child = Some 0%nat.
Proof.
  apply (@TreeFacts.tree_root_and_first_child_share_id toy tt MAX_FM_CALLS 0
           0%nat 0%nat 0%nat []).
  reflexivity.
Defined.

Lemma childless_inner_node_breaks_selection_witness :
  exists s',
    @MCTS.expansion duel 0%nat 3%nat mcts_duel_start = Ret ([], s')
    /\ MCTS.heap s'
       = <[0%nat := MCTS.set_is_leaf false
                      (MCTS.set_chosen true
                         (MCTS.Node_init 0 "" None true 0%R 0 false))]>
           (MCTS.heap mcts_duel_start)
    /\ MCTS.graph s' = MCTS.graph mcts_duel_start
    /\ forall fuel env',
         @MCTS.selection duel (S fuel) 0%nat env' s' = Raise ValueError.
Proof.
  apply (@TreeFacts.childless_inner_node_breaks_selection duel 0%nat _ 3%nat
           mcts_duel_start); reflexivity.
Defined.

(** *** A rollout under a budget of one call *)

Lemma mcts_tight_rolls :
  @MCTS.rollout toy 5 1%nat mcts_tight = Ret ((0 + 1)%R, mcts_tight_rolled).
Proof. vm_compute. reflexivity. Qed.

Lemma tree_rollout_stays_within_budget_witness :
  exists k : nat,
    (k <= 5)%nat
    /\ MCTS.forward_model_calls mcts_tight_rolled
       = MCTS.forward_model_calls mcts_tight + Z.of_nat k
    /\ MCTS.fm_advances mcts_tight_rolled
       = MCTS.fm_advances mcts_tight
         + (if MCTS.use_opponent_model mcts_tight then 2 else 1) * Z.of_nat k
    /\ (MCTS.budget_type mcts_tight = MAX_FM_CALLS ->
        MCTS.forward_model_calls mcts_tight_rolled
        <= Z.max (MCTS.forward_model_calls mcts_tight)
             (MCTS.max_forward_model_calls mcts_tight))
    /\ MCTS.heap mcts_tight_rolled = MCTS.heap mcts_tight
    /\ MCTS.graph mcts_tight_rolled = MCTS.graph mcts_tight
    /\ MCTS.root_node mcts_tight_rolled = MCTS.root_node mcts_tight
    /\ MCTS.node_counter mcts_tight_rolled = MCTS.node_counter mcts_tight
    /\ MCTS.edge_counter mcts_tight_rolled = MCTS.edge_counter mcts_tight
    /\ MCTS.num_iterations mcts_tight_rolled = MCTS.num_iterations mcts_tight.
Proof.
  apply (@TreeFacts.tree_rollout_stays_within_budget toy 5 1%nat mcts_tight
           mcts_tight_rolled (0 + 1)%R).
  exact mcts_tight_rolls.
Defined.

(** *** Chains *)

Lemma trajectory_from_root_reads_chain_witness :
  MCGS.trajectory_from_root 2 mcgs_line 2
  = Ret (reverse ((fun c => mcgs_line !! c ≫= @MCGS.action toy)
                    <$> take (length [2; 1; 0]%nat - 1) [2; 1; 0]%nat)).
Proof.
  apply (proj1 (@NodeFacts.trajectory_from_root_reads_chain toy mcgs_line 2)).
  - apply (ChainFacts.walk_from_sound (@MCGS.no_parent toy) (@MCGS.parent toy)
             3). reflexivity.
  - simpl. lia.
Defined.

(** *** A simulation, and a budget type that is not known *)

Lemma mcts_expanded_simulates :
  @MCTS.simulation toy 5 1%nat 0%nat mcts_expanded
  = Ret (mcts_simulated_value, mcts_simulated).
Proof. vm_compute. reflexivity. Qed.

Lemma tree_simulation_undercounts_witness :
  exists k : nat,
    MCTS.forward_model_calls mcts_simulated
    = MCTS.forward_model_calls mcts_expanded + Z.of_nat k
    /\ MCTS.fm_advances mcts_simulated
       = MCTS.fm_advances mcts_expanded + 1
         + (if MCTS.use_opponent_model mcts_expanded then 2 else 1)
           * Z.of_nat k
    /\ (MCTS.budget_type mcts_expanded = MAX_FM_CALLS ->
        MCTS.forward_model_calls mcts_simulated
        <= Z.max (MCTS.forward_model_calls mcts_expanded)
             (MCTS.max_forward_model_calls mcts_expanded))
    /\ MCTS.heap mcts_simulated = MCTS.heap mcts_expanded
    /\ MCTS.graph mcts_simulated = MCTS.graph mcts_expanded
    /\ MCTS.root_node mcts_simulated = MCTS.root_node mcts_expanded
    /\ MCTS.node_counter mcts_simulated = MCTS.node_counter mcts_expanded
    /\ MCTS.edge_counter mcts_simulated = MCTS.edge_counter mcts_expanded
    /\ MCTS.num_iterations mcts_simulated
       = MCTS.num_iterations mcts_expanded.
Proof.
  apply (@TreeFacts.tree_simulation_undercounts toy 5 1%nat 0%nat
           mcts_expanded mcts_simulated mcts_simulated_value).
  exact mcts_expanded_simulates.
Defined.

Lemma tree_search_unknown_budget_never_returns_witness :
  MCTS.budget_type mcts_unbounded = OTHER_BUDGET
  /\ forall fuel u s',
       @MCTS.plan_loop toy fuel 0%nat mcts_unbounded <> Ret (u, s').
Proof.
  split; [reflexivity|].
  apply (@TreeFacts.tree_search_unknown_budget_never_returns toy 0%nat
           mcts_unbounded).
  reflexivity.
Defined.


(** *** The best step *)

Lemma newest_first_keeps_ids : MCGS.keeps_ids newest_first.
Proof.
  split; simpl; intros.
  - injection H as <-. reflexivity.
  - injection H as <-. reflexivity.
Qed.

Lemma mcgs_expanded_child_of_root :
  MCGS.chain_to_child_of (MCGS.root_node mcgs_expanded)
    (MCGS.heap mcgs_expanded) 1 [1%nat].
Proof.
  apply (@Chain.walk_stop _ (MCGS.is_child_of 0) (@MCGS.parent toy)
           (MCGS.heap mcgs_expanded) 1%nat mcgs_child).
  - vm_compute. reflexivity.
  - reflexivity.
Qed.

(** From the expanded root the best node is the child: the climb stops
    at once and answers the child with the action of the edge to it.
    Before the expansion the best node is the root itself, and the
    climb fails. *)
Lemma select_best_step_climbs_to_child_of_root_witness :
  MCGS.select_best_step newest_first 5 0%nat false mcgs_expanded
  = Ret ((1%nat, Some 0%nat), mcgs_expanded)
  /\ MCGS.select_best_step newest_first 5 0%nat false mcgs_start
     = Raise AttributeError.
Proof.
  split.
  - apply (proj2 (proj1 (@BestStepFacts.select_best_step_climbs_to_child_of_root
                           toy newest_first 5 0%nat mcgs_expanded
                           mcgs_expanded 1%nat 1%nat (Some 0%nat) eq_refl))).
    split; [reflexivity|].
    exists [1%nat], mcgs_child, (@MCGS.mkEdge toy 0 0%nat 1%nat 0%nat 1%R).
    split; [exact mcgs_expanded_child_of_root|].
    split; [simpl; lia|]. split; [reflexivity|].
    split; [vm_compute; reflexivity|]. split; [reflexivity|].
    split; [vm_compute; reflexivity | reflexivity].
  - apply (proj2 (@BestStepFacts.select_best_step_climbs_to_child_of_root toy
                    newest_first 5 0%nat mcgs_start mcgs_start 0%nat 0%nat
                    None eq_refl) [0%nat]).
    + apply (ChainFacts.walk_from_sound (@MCGS.no_parent toy)
               (@MCGS.parent toy) 1). reflexivity.
    + intros c n Hc Hn. apply list_elem_of_singleton in Hc. subst c.
      injection Hn as <-. discriminate.
    + simpl. lia.
Defined.

Lemma mcgs_expanded_reroots :
  MCGS.get_optimal_action newest_first 5 0%nat mcgs_expanded
  = Ret (Some 0%nat, mcgs_rerooted).
Proof. vm_compute. reflexivity. Qed.

(** The root moves from the node 0 to its child, the node 1. *)
Lemma get_optimal_action_moves_root_witness :
  (MCGS.root_node mcgs_expanded = 0%nat
   /\ MCGS.root_node mcgs_rerooted = 1%nat
   /\ MCGS.heap mcgs_rerooted !! 1%nat
      = Some (MCGS.set_parent None (MCGS.set_chosen true mcgs_child)))
  /\ exists b n,
       MCGS.select_best_step newest_first 5 0%nat false mcgs_expanded
       = Ret ((b, Some 0%nat), mcgs_expanded)
       /\ MCGS.heap mcgs_expanded !! b = Some n
       /\ MCGS.root_node mcgs_rerooted = b
       /\ @MCGS.id toy <$> MCGS.heap mcgs_rerooted
          = @MCGS.id toy <$> MCGS.heap mcgs_expanded
       /\ MCGS.graph mcgs_rerooted = MCGS.graph mcgs_expanded
       /\ MCGS.forward_model_calls mcgs_rerooted
          = MCGS.forward_model_calls mcgs_expanded
       /\ MCGS.fm_advances mcgs_rerooted = MCGS.fm_advances mcgs_expanded
       /\ (MCGS.has_path newest_first
             (<[b := MCGS.set_parent None (MCGS.set_chosen true n)]>
                (MCGS.heap mcgs_expanded))
             (MCGS.graph mcgs_expanded) b (MCGS.root_node mcgs_expanded)
           = false ->
           MCGS.heap mcgs_rerooted
           = <[b := MCGS.set_parent None (MCGS.set_chosen true n)]>
               (MCGS.heap mcgs_expanded)).
Proof.
  split.
  - split; [reflexivity|]. split; vm_compute; reflexivity.
  - apply (proj1 (@BestStepFacts.get_optimal_action_moves_root toy
                    newest_first 5 0%nat mcgs_expanded mcgs_rerooted
                    (Some 0%nat) newest_first_keeps_ids)).
    exact mcgs_expanded_reroots.
Defined.

(** *** A state the tree search reaches *)

Lemma mcts_expanded_reachable : MCTS.reachable mcts_expanded.
Proof.
  eapply MCTS.reachable_step.
  - apply (@MCTS.reachable_init toy tt MAX_FM_CALLS 0 0%nat).
  - eapply (@MCTS.step_expansion toy 0%nat 0%nat [1%nat]).
    vm_compute. reflexivity.
Qed.

Lemma tree_back_propagation_always_returns_witness :
  MCTS.node_counter mcts_expanded
  = Z.of_nat (length (MCTS.heap mcts_expanded)) - 1
  /\ forall a v,
       (a < length (MCTS.heap mcts_expanded))%nat ->
       exists l,
         MCTS.chain_to_chosen (MCTS.heap mcts_expanded) a l
         /\ MCTS.back_propagation (length l) (Some a) v mcts_expanded
            = Ret (tt, MCTS.with_heap
                         (Chain.alter_all (MCTS.bump toy v) l
                            (MCTS.heap mcts_expanded)) mcts_expanded).
Proof.
  apply (@TreeInvariant.tree_back_propagation_always_returns toy
           mcts_expanded).
  exact mcts_expanded_reachable.
Defined.

(** *** Walking along an empty path, and moving the root *)

Lemma go_to_node_hangs_on_empty_path_witness :
  (forall fuel,
     MCGS.go_to_node_loop self_paths fuel 0%nat 0%nat 0%nat mcgs_start
     = OutOfFuel)
  /\ (MCGS.get_node_info (MCGS.heap mcgs_start) (MCGS.graph mcgs_start)
        (MCGS.get_observation (0%nat : GameState toy)) = Ret 0%nat ->
      forall fuel,
        MCGS.go_to_node self_paths fuel 0%nat 0%nat mcgs_start = OutOfFuel).
Proof.
  apply (@RootFacts.go_to_node_hangs_on_empty_path toy self_paths 0%nat 0%nat
           0%nat mcgs_start [EmptyString]); reflexivity.
Defined.

Lemma mcgs_expanded_moves :
  MCGS.set_root_node toy_graph 1%nat mcgs_expanded = Ret (tt, mcgs_moved).
Proof. vm_compute. reflexivity. Qed.

Lemma set_root_node_moves_root_witness :
  exists a n old,
    MCGS.get_node_info (MCGS.heap mcgs_expanded) (MCGS.graph mcgs_expanded)
      (MCGS.get_observation (1%nat : GameState toy)) = Ret a
    /\ MCGS.heap mcgs_expanded !! a = Some n
    /\ MCGS.heap mcgs_expanded !! MCGS.root_node mcgs_expanded = Some old
    /\ MCGS.root_node mcgs_moved = a
    /\ MCGS.graph mcgs_moved
       = MCGS.graph_set_root_node (MCGS.graph mcgs_expanded) a
    /\ @MCGS.id toy <$> MCGS.heap mcgs_moved
       = @MCGS.id toy <$> MCGS.heap mcgs_expanded
    /\ MCGS.forward_model_calls mcgs_moved
       = MCGS.forward_model_calls mcgs_expanded
    /\ MCGS.fm_advances mcgs_moved = MCGS.fm_advances mcgs_expanded
    /\ (MCGS.id n = MCGS.id old ->
        MCGS.heap mcgs_moved = MCGS.heap mcgs_expanded)
    /\ (MCGS.id n <> MCGS.id old ->
        MCGS.has_path toy_graph
          (<[a := MCGS.set_parent None (MCGS.set_chosen true n)]>
             (MCGS.heap mcgs_expanded))
          (MCGS.graph_set_root_node (MCGS.graph mcgs_expanded) a) a
          (MCGS.root_node mcgs_expanded) = false ->
        MCGS.heap mcgs_moved
        = <[a := MCGS.set_parent None (MCGS.set_chosen true n)]>
            (MCGS.heap mcgs_expanded)).
Proof.
  apply (@RootFacts.set_root_node_moves_root toy toy_graph 1%nat mcgs_expanded
           mcgs_moved).
  - exact Runs.toy_graph_keeps_ids.
  - exact mcgs_expanded_moves.
Defined.

End MoreRuns.
